(** * GUT Matrix: the collaborative merge engine, its scoring model and its
      rate governor, embedded from the TypeScript sources.

    Conventions of the embedding.
    - A JavaScript [number] that the data model declares an integer (score
      factors, scale bounds, versions, counters, clock readings in
      milliseconds) is a [Z]; the averages, which are tenths, are [Q].
      Sums and products of such numbers are the exact ones, which is what
      the double-precision arithmetic of the source gives as long as the
      values stay strictly between -2^53 and 2^53; a statement that rests
      on the exact step of a version says so in a hypothesis.
    - An optional property ([label?: string]) is an [option]; [None] is
      [undefined], that is, the key is absent from the parsed JSON body.
    - A [Record<string, UserScore>] is a [gmap string UserScore].
    - A string is a [string] of 8-bit code units.
    - The key-value namespace holds the parsed documents: [JSON.parse] of what
      [JSON.stringify] wrote is taken to be the document itself. *)

From Stdlib Require Import ZArith QArith Qround Qabs String Ascii List Lia.
From stdpp Require Import gmap strings list fin_maps pretty.

Local Open Scope Z_scope.

(** ** types.ts *)

Record UserScore := mkUserScore {
  us_g : Z;
  us_u : Z;
  us_t : Z;
  us_score : Z;
}.

(** [Partial<UserScore>] *)
Record PartialUserScore := mkPartialUserScore {
  pus_g : option Z;
  pus_u : option Z;
  pus_t : option Z;
  pus_score : option Z;
}.

Record AverageScore := mkAverageScore {
  avg_g : Q;
  avg_u : Q;
  avg_t : Q;
  avg_score : Q;
  avg_count : Z;
}.

Record GutItem := mkGutItem {
  id : string;
  label : string;
  scores : gmap string UserScore;
  avgScore : option AverageScore;
  notes : option string;
}.

Record Scale := mkScale {
  min : Z;
  max : Z;
}.

(** [Partial<Scale>] *)
Record PartialScale := mkPartialScale {
  ps_min : option Z;
  ps_max : option Z;
}.

Record GutList := mkGutList {
  title : string;
  items : list GutItem;
  scale : Scale;
  updatedAt : string;
  version : Z;
}.

(** An element of [UpdateListRequest.items]: the union
    [Partial<GutItem> | UserItemUpdate] as one record of optional
    properties. *)
Record IncomingItem := mkIncomingItem {
  in_id : option string;
  in_label : option string;
  in_scores : option (gmap string UserScore);
  in_avgScore : option AverageScore;
  in_notes : option string;
  in_g : option Z;
  in_u : option Z;
  in_t : option Z;
}.

Record CreateListRequest := mkCreateListRequest {
  cr_title : option string;
  cr_scale : option PartialScale;
}.

Record UpdateListRequest := mkUpdateListRequest {
  up_title : option string;
  up_items : option (list IncomingItem);
  up_scale : option PartialScale;
  up_version : option Z;
  up_userId : option string;
}.

(** The numeric bindings of [Env] are strings in the source, read as
    [Number(env.X || d)]: [None] is an unset or empty binding, [Some n] a
    binding holding the decimal numeral of [n]. *)
Record Env := mkEnv {
  MAX_ITEMS : option Z;
  MIN_SCALE : option Z;
  MAX_SCALE : option Z;
  ENABLE_RATE_LIMITING : string;
  MAX_SAVES_PER_USER_PER_MINUTE : option Z;
  MAX_SAVES_PER_USER_PER_HOUR : option Z;
  MAX_LISTS_PER_USER_PER_DAY : option Z;
  MAX_USERS_PER_LIST : option Z;
  MAX_SAVES_PER_LIST_PER_MINUTE : option Z;
  LIST_MAX_SIZE_KB : option Z;
  LIST_TTL_DAYS : option Z;
}.

(** [Number(binding || d)] *)
Definition envNumber (binding : option Z) (d : Z) : Z :=
  match binding with
  | Some n => n
  | None => d
  end.

(** ** JavaScript primitives used by utils.ts *)

Module Js.

(** [s.slice(0, n)] for a non-negative constant [n]. *)
Definition slice0 (n : nat) (s : string) : string := substring 0 n s.

(** White space and line terminators below code unit 256. *)
Definition isWhiteSpace (c : ascii) : bool :=
  let n := nat_of_ascii c in
  ((9 <=? n)%nat && (n <=? 13)%nat) || (n =? 32)%nat || (n =? 160)%nat.

Fixpoint trimStartList (l : list ascii) : list ascii :=
  match l with
  | c :: l' => if isWhiteSpace c then trimStartList l' else l
  | [] => []
  end.

(** [s.trim()] *)
Definition trim (s : string) : string :=
  string_of_list_ascii
    (rev (trimStartList (rev (trimStartList (list_ascii_of_string s))))).

(** [s || d] on strings: the empty string is falsy. *)
Definition strOr (s d : string) : string :=
  if String.eqb s "" then d else s.

(** [o || d] on an optional string. *)
Definition optStrOr (o : option string) (d : string) : string :=
  match o with
  | Some s => strOr s d
  | None => d
  end.

(** [Number(o) || d] on an optional number: [undefined] gives [NaN], and
    both [NaN] and [0] are falsy. *)
Definition numOr (o : option Z) (d : Z) : Z :=
  match o with
  | Some v => if v =? 0 then d else v
  | None => d
  end.

(** [Math.round(x)]: the integer nearest to [x], a half going up. *)
Definition Math_round (x : Q) : Z := Qfloor (x + (1 # 2)).

(** [l.slice(0, n)] on an array. A negative [n] counts from the end. *)
Definition sliceTo {A} (n : Z) (l : list A) : list A :=
  if n <? 0 then take (length l - Z.to_nat (- n)) l
  else take (Z.to_nat n) l.

(** [l.find(p)] *)
Fixpoint find {A} (p : A -> bool) (l : list A) : option A :=
  match l with
  | x :: l' => if p x then Some x else find p l'
  | [] => None
  end.

(** [l.map((x, index) => f(x, index))] *)
Fixpoint mapi_from {A B} (i : nat) (f : A -> nat -> B) (l : list A) : list B :=
  match l with
  | x :: l' => f x i :: mapi_from (S i) f l'
  | [] => []
  end.

Definition mapi {A B} (f : A -> nat -> B) (l : list A) : list B :=
  mapi_from 0 f l.

End Js.

(** ** utils.ts *)

Module Utils.

Definition calculateScore (g u t : Z) : Z := g * u * t.

Definition clamp (value min max : Z) : Z := Z.max min (Z.min value max).

Definition normalizeScale (scale : option PartialScale) (envMin envMax : Z)
  : Scale :=
  let min := match scale with
             | Some {| ps_min := Some m |} => m
             | _ => 1
             end in
  let max := match scale with
             | Some {| ps_max := Some m |} => m
             | _ => 5
             end in
  let normalizedMin := clamp min 1 envMin in
  let normalizedMax := clamp max 2 envMax in
  if normalizedMin >=? normalizedMax then {| min := 1; max := 5 |}
  else {| min := normalizedMin; max := normalizedMax |}.

(** [uuid] is the value [crypto.randomUUID()] returns if it is called. The
    parameters [scale] and [maxItems] are unused in the source as well. *)
Definition normalizeItem (uuid : string) (item : IncomingItem)
    (scale : Scale) (maxItems : Z) : GutItem :=
  let scores := match in_scores item with
                | Some s => s
                | None => ∅
                end in
  {| id := Js.optStrOr (in_id item) uuid;
     label := Js.strOr (Js.trim (Js.slice0 200 (Js.optStrOr (in_label item) "")))
                       "Untitled Item";
     scores := scores;
     avgScore := in_avgScore item;
     notes := match in_notes item with
              | Some n => if String.eqb n "" then None
                          else Some (Js.trim (Js.slice0 1024 n))
              | None => None
              end |}.

Definition normalizeUserScore (score : PartialUserScore) (scale : Scale)
  : UserScore :=
  let g := clamp (Js.numOr (pus_g score) (min scale)) (min scale) (max scale) in
  let u := clamp (Js.numOr (pus_u score) (min scale)) (min scale) (max scale) in
  let t := clamp (Js.numOr (pus_t score) (min scale)) (min scale) (max scale) in
  {| us_g := g; us_u := u; us_t := t; us_score := calculateScore g u t |}.

(** [Object.values(scores)] *)
Definition Object_values (scores : gmap string UserScore) : list UserScore :=
  (map_to_list scores).*2.

Definition calculateAverageScore (scores : gmap string UserScore)
  : option AverageScore :=
  let userScores := Object_values scores in
  if (length userScores =? 0)%nat then None
  else
    let sum :=
      fold_left
        (fun acc score =>
           {| us_g := us_g acc + us_g score;
              us_u := us_u acc + us_u score;
              us_t := us_t acc + us_t score;
              us_score := us_score acc + us_score score |})
        userScores
        {| us_g := 0; us_u := 0; us_t := 0; us_score := 0 |} in
    let count := Z.of_nat (length userScores) in
    let tenth (s : Z) : Q :=
      (inject_Z (Js.Math_round ((inject_Z s / inject_Z count) * inject_Z 10))
       / inject_Z 10)%Q in
    Some {| avg_g := tenth (us_g sum);
            avg_u := tenth (us_u sum);
            avg_t := tenth (us_t sum);
            avg_score := tenth (us_score sum);
            avg_count := count |}.

(** A [UserScore] passed where a [Partial<UserScore>] is expected. *)
Definition asPartial (s : UserScore) : PartialUserScore :=
  {| pus_g := Some (us_g s); pus_u := Some (us_u s);
     pus_t := Some (us_t s); pus_score := Some (us_score s) |}.

Definition mergeUserScore (item : GutItem) (userId : string)
    (userScore : UserScore) (scale : Scale) : GutItem :=
  let normalizedScore := normalizeUserScore (asPartial userScore) scale in
  let updatedScores := <[userId := normalizedScore]> (scores item) in
  let avgScore := calculateAverageScore updatedScores in
  {| id := id item;
     label := label item;
     scores := updatedScores;
     avgScore := avgScore;
     notes := notes item |}.

End Utils.

Module Validate.

Definition isHexDigit (c : ascii) : bool :=
  let n := nat_of_ascii c in
  ((48 <=? n)%nat && (n <=? 57)%nat)
  || ((97 <=? n)%nat && (n <=? 102)%nat)
  || ((65 <=? n)%nat && (n <=? 70)%nat).

(** Consumes exactly [n] hexadecimal digits. *)
Fixpoint hexRun (n : nat) (l : list ascii) : option (list ascii) :=
  match n, l with
  | O, _ => Some l
  | S n', c :: l' => if isHexDigit c then hexRun n' l' else None
  | S _, [] => None
  end.

(** The groups of the pattern, separated by a dash, up to the end of the
    input. *)
Fixpoint hexGroups (groups : list nat) (l : list ascii) : bool :=
  match groups with
  | [] => false
  | [n] => match hexRun n l with
           | Some [] => true
           | _ => false
           end
  | n :: rest =>
      match hexRun n l with
      | Some (c :: l') => (nat_of_ascii c =? 45)%nat && hexGroups rest l'
      | _ => false
      end
  end.

(** [/^[a-f0-9]{8}-[a-f0-9]{4}-[a-f0-9]{4}-[a-f0-9]{4}-[a-f0-9]{12}$/i.test(userId)] *)
Definition validateUserId (userId : string) : bool :=
  hexGroups [8; 4; 4; 4; 12]%nat (list_ascii_of_string userId).

Definition sanitizeTitle (title : option string) : string :=
  match title with
  | Some t => Js.slice0 200 (Js.trim t)
  | None => ""
  end.

Record Validation := mkValidation {
  valid : bool;
  error : option string;
}.

Definition validateList (data : UpdateListRequest) (maxItems : Z) : Validation :=
  let tooMany := match up_items data with
                 | Some l => maxItems <? Z.of_nat (length l)
                 | None => false
                 end in
  if tooMany then
    {| valid := false;
       error := Some ("Too many items (max " +:+ pretty maxItems +:+ ")") |}
  else
    let badScale := match up_scale data with
                    | Some {| ps_min := Some mn; ps_max := Some mx |} => mx <=? mn
                    | _ => false
                    end in
    if badScale then
      {| valid := false; error := Some "Scale min must be less than max" |}
    else {| valid := true; error := None |}.

Definition getListKey (slug : string) : string := "list:" +:+ slug.

(** [title.toLowerCase()] on the letters A to Z. *)
Definition toLower (c : ascii) : ascii :=
  let n := nat_of_ascii c in
  if ((65 <=? n)%nat && (n <=? 90)%nat)%bool then ascii_of_nat (n + 32) else c.

Definition isSlugChar (c : ascii) : bool :=
  let n := nat_of_ascii c in
  ((97 <=? n)%nat && (n <=? 122)%nat) || ((48 <=? n)%nat && (n <=? 57)%nat).

(** [.replace(/[^a-z0-9]+/g, '-')]: [inRun] tells that the previous
    character already belonged to the run being replaced. *)
Fixpoint dashRuns (inRun : bool) (l : list ascii) : list ascii :=
  match l with
  | c :: l' =>
      if isSlugChar c then c :: dashRuns false l'
      else if inRun then dashRuns true l'
      else "-"%char :: dashRuns true l'
  | [] => []
  end.

Fixpoint dropDashes (l : list ascii) : list ascii :=
  match l with
  | c :: l' => if (nat_of_ascii c =? 45)%nat then dropDashes l' else l
  | [] => []
  end.

(** [suffix] is the text the eight hexadecimal digits drawn from
    [crypto.getRandomValues] make. *)
Definition generateSlug (suffix : string) (title : string) : string :=
  let base :=
    if String.eqb title "" then ""
    else
      let lowered := map toLower (list_ascii_of_string (Js.trim title)) in
      let dashed := dashRuns false lowered in
      let stripped := rev (dropDashes (rev (dropDashes dashed))) in
      Js.slice0 50 (string_of_list_ascii stripped) in
  if String.eqb base "" then suffix else base +:+ "-" +:+ suffix.

End Validate.

(** ** rateLimit.ts *)

Module RateLimit.

Record Entry := mkEntry {
  count : Z;
  resetAt : Z;
}.

(** What one call of [checkRateLimit] reads from its surroundings. *)
Record Tick := mkTick {
  sweep : bool;    (* Math.random() < 0.01 *)
  sweepNow : Z;    (* Date.now() inside cleanupExpired *)
  now : Z;         (* Date.now() inside checkRateLimit *)
}.

Record Result := mkResult {
  allowed : bool;
  retryAfter : option Z;
  current : Z;
}.

Definition cleanupExpired (now : Z) (store : gmap string Entry)
  : gmap string Entry :=
  filter (fun kv => negb (resetAt kv.2 <? now) = true) store.

(** [Math.ceil(ms / 1000)] *)
Definition ceilSeconds (ms : Z) : Z := - ((- ms) / 1000).

Definition checkRateLimit (tk : Tick) (key : string) (limit windowMs : Z)
    (store : gmap string Entry) : Result * gmap string Entry :=
  let store := if sweep tk then cleanupExpired (sweepNow tk) store else store in
  let now := now tk in
  match store !! key with
  | Some entry =>
      if resetAt entry <? now then
        (* expired - create new *)
        ({| allowed := true; retryAfter := None; current := 1 |},
         <[key := {| count := 1; resetAt := now + windowMs |}]> store)
      else if limit <=? count entry then
        ({| allowed := false;
            retryAfter := Some (ceilSeconds (resetAt entry - now));
            current := count entry |},
         store)
      else
        ({| allowed := true; retryAfter := None; current := count entry + 1 |},
         <[key := {| count := count entry + 1; resetAt := resetAt entry |}]> store)
  | None =>
      ({| allowed := true; retryAfter := None; current := 1 |},
       <[key := {| count := 1; resetAt := now + windowMs |}]> store)
  end.

(** What [checkUserRateLimits], [checkListRateLimits] and [checkListSize]
    return: the properties [allowed], [error] and [retryAfter] of the
    source, under names that [Result] leaves free. *)
Record Outcome := mkOutcome {
  ok : bool;
  message : option string;
  retry : option Z;
}.

Definition allow : Outcome := {| ok := true; message := None; retry := None |}.

(** [`${v}`] of an optional number. *)
Definition showOpt (v : option Z) : string :=
  match v with
  | Some n => pretty n
  | None => "undefined"
  end.

(** An element of [limits[action]]: [key], [limit], [window], [message]. *)
Record Check := mkCheck {
  ckey : string;
  climit : Z;
  cwindow : Z;
  cmessage : string;
}.

Inductive Action := save | create.

Definition limits (userId : string) (action : Action) (env : Env) : list Check :=
  match action with
  | save =>
      [ {| ckey := "user:" +:+ userId +:+ ":save:minute";
           climit := envNumber (MAX_SAVES_PER_USER_PER_MINUTE env) 2;
           cwindow := 60 * 1000;
           cmessage := "Too many saves per minute" |};
        {| ckey := "user:" +:+ userId +:+ ":save:hour";
           climit := envNumber (MAX_SAVES_PER_USER_PER_HOUR env) 30;
           cwindow := 60 * 60 * 1000;
           cmessage := "Too many saves per hour" |} ]
  | create =>
      [ {| ckey := "user:" +:+ userId +:+ ":create:day";
           climit := envNumber (MAX_LISTS_PER_USER_PER_DAY env) 10;
           cwindow := 24 * 60 * 60 * 1000;
           cmessage := "Too many lists created today" |} ]
  end.

(** The loop [for (const check of checksToRun)]; [ticks i] is what the
    call made for the check of index [i] reads. *)
Fixpoint runChecks (ticks : nat -> Tick) (i : nat) (checks : list Check)
    (store : gmap string Entry) : Outcome * gmap string Entry :=
  match checks with
  | check :: rest =>
      let '(result, store') :=
        checkRateLimit (ticks i) (ckey check) (climit check) (cwindow check) store in
      if allowed result then runChecks ticks (S i) rest store'
      else
        ({| ok := false;
            message := Some (cmessage check +:+ ". Try again in "
                             +:+ showOpt (retryAfter result) +:+ "s. ("
                             +:+ pretty (current result) +:+ "/"
                             +:+ pretty (climit check) +:+ ")");
            retry := retryAfter result |},
         store')
  | [] => (allow, store)
  end.

Definition checkUserRateLimits (ticks : nat -> Tick) (userId : string)
    (action : Action) (env : Env) (store : gmap string Entry)
  : Outcome * gmap string Entry :=
  if negb (String.eqb (ENABLE_RATE_LIMITING env) "true") then (allow, store)
  else runChecks ticks 0 (limits userId action env) store.

Definition checkListRateLimits (tk : Tick) (slug : string) (env : Env)
    (store : gmap string Entry) : Outcome * gmap string Entry :=
  if negb (String.eqb (ENABLE_RATE_LIMITING env) "true") then (allow, store)
  else
    let limit := envNumber (MAX_SAVES_PER_LIST_PER_MINUTE env) 10 in
    let window := 60 * 1000 in
    let '(result, store') :=
      checkRateLimit tk ("list:" +:+ slug +:+ ":save:minute") limit window store in
    if allowed result then (allow, store')
    else
      ({| ok := false;
          message := Some ("This list is being updated too frequently. Try again in "
                           +:+ showOpt (retryAfter result) +:+ "s. ("
                           +:+ pretty (current result) +:+ "/"
                           +:+ pretty limit +:+ ")");
          retry := retryAfter result |},
       store').

(** [sizeKB.toFixed(1)] of [bytes / 1024]: the nearest tenth, a half going
    up, printed with one decimal. *)
Definition toFixed1KB (bytes : Z) : string :=
  let tenths := (bytes * 20 + 1024) / 2048 in
  pretty (tenths / 10) +:+ "." +:+ pretty (tenths mod 10).

(** [bytes] is [new TextEncoder().encode(data).length]. *)
Definition checkListSize (bytes : Z) (env : Env) : Outcome :=
  let maxSizeKB := envNumber (LIST_MAX_SIZE_KB env) 100 in
  if maxSizeKB * 1024 <? bytes then
    {| ok := false;
       message := Some ("List size (" +:+ toFixed1KB bytes
                        +:+ "KB) exceeds limit of " +:+ pretty maxSizeKB
                        +:+ "KB. Remove some items or notes.");
       retry := None |}
  else allow.

End RateLimit.

(** ** functions/api/list/index.ts and functions/api/list/[slug].ts *)

Module Api.
Import Utils Validate RateLimit.

Inductive Response :=
| JsonList (l : GutList)                              (* jsonResponse(updated) *)
| JsonCreated (slug : string)                         (* jsonResponse({ slug }, 201) *)
| JsonConflict (server : GutList)                     (* jsonResponse(conflict, 409) *)
| ErrorResponse (message : string) (status : Z)       (* errorResponse(message, status) *)
| RateLimitResponse (error : string) (retryAfter : option Z).

Definition status (r : Response) : Z :=
  match r with
  | JsonList _ => 200
  | JsonCreated _ => 201
  | JsonConflict _ => 409
  | ErrorResponse _ s => s
  | RateLimitResponse _ _ => 429
  end.

(** Ghost record of the effects a handler performed, oldest first. *)
Inductive Effect :=
| UserLimitsChecked (userId : string)
| ListLimitsChecked (slug : string)
| StoreGet (key : string)
| StorePut (key : string).

(** The module-level [rateLimitStore], the KV namespace [env.MATRIX_STORE]
    and the ghost record of effects. *)
Record State := mkState {
  rateLimitStore : gmap string Entry;
  MATRIX_STORE : gmap string GutList;
  effects : list Effect;
}.

(** What one request reads from the platform. [randomUUID site i] is what
    [crypto.randomUUID()] returns when the call at [site] is reached for
    the array element of index [i]. *)
Record Host := mkHost {
  userTicks : nat -> Tick;
  listTick : Tick;
  randomUUID : nat -> nat -> string;
  randomSuffix : string;
  toISOString : string;                  (* new Date().toISOString() *)
  encodedLength : GutList -> Z;          (* new TextEncoder().encode(JSON.stringify(l)).length *)
}.

(** [if (s)] on an optional string. *)
Definition truthy (o : option string) : bool :=
  match o with
  | Some s => negb (String.eqb s "")
  | None => false
  end.

Definition isUserItemUpdate (item : IncomingItem) : bool :=
  bool_decide (is_Some (in_g item)) || bool_decide (is_Some (in_u item))
  || bool_decide (is_Some (in_t item)).

(** A stored [GutItem] passed where a [Partial<GutItem>] is expected. *)
Definition ofGutItem (e : GutItem) : IncomingItem :=
  {| in_id := Some (id e); in_label := Some (label e);
     in_scores := Some (scores e); in_avgScore := avgScore e;
     in_notes := notes e; in_g := None; in_u := None; in_t := None |}.

(** [e.id === incomingItem.id] *)
Definition sameId (incomingItem : IncomingItem) (e : GutItem) : bool :=
  match in_id incomingItem with
  | Some i => String.eqb (id e) i
  | None => false
  end.

Definition withLabel (item : GutItem) (l : string) : GutItem :=
  {| id := id item; label := l; scores := scores item;
     avgScore := avgScore item; notes := notes item |}.

Definition withNotes (item : GutItem) (n : option string) : GutItem :=
  {| id := id item; label := label item; scores := scores item;
     avgScore := avgScore item; notes := n |}.

(** Lines 133-148, the callback: one incoming item of a structural
    change, matched with the stored items by id. *)
Definition rebuildItem (h : Host) (existing : GutList) (scale : Scale)
    (maxItems : Z) (incomingItem : IncomingItem) (i : nat) : GutItem :=
  match Js.find (sameId incomingItem) (items existing) with
  | Some existingItem =>
      (* Item exists - preserve its scores and update label/notes *)
      let n := normalizeItem (randomUUID h 1 i) (ofGutItem existingItem)
                 scale maxItems in
      {| id := id n;
         label := Js.optStrOr (in_label incomingItem) (label existingItem);
         scores := scores n;
         avgScore := avgScore n;
         notes := match in_notes incomingItem with
                  | Some n' => Some n'
                  | None => notes existingItem
                  end |}
  | None =>
      (* New item - create with empty scores *)
      normalizeItem (randomUUID h 2 i) incomingItem scale maxItems
  end.

Definition rebuildItems (h : Host) (existing : GutList)
    (incomingItems : list IncomingItem) (scale : Scale) (maxItems : Z)
  : list GutItem :=
  Js.mapi (rebuildItem h existing scale maxItems)
          (Js.sliceTo maxItems incomingItems).

(** Lines 152-177, the callback: [incomingItem] is [incoming.items[index]],
    absent past the end of the incoming array. *)
Definition mergeItem (incomingItem : option IncomingItem) (userId : string)
    (scale : Scale) (item : GutItem) : GutItem :=
  match incomingItem with
  | Some incomingItem =>
      if isUserItemUpdate incomingItem then
        let item := match in_label incomingItem with
                    | Some l => withLabel item l
                    | None => item
                    end in
        let item := match in_notes incomingItem with
                    | Some n => withNotes item (Some n)
                    | None => item
                    end in
        match in_g incomingItem, in_u incomingItem, in_t incomingItem with
        | Some g, Some u, Some t =>
            let userScore :=
              {| us_g := g; us_u := u; us_t := t; us_score := g * u * t |} in
            mergeUserScore item userId userScore scale
        | _, _, _ => item
        end
      else item
  | None => item
  end.

Definition mergeItems (incomingItems : list IncomingItem) (userId : string)
    (scale : Scale) (items : list GutItem) : list GutItem :=
  Js.mapi (fun item index => mergeItem (incomingItems !! index) userId scale item)
          items.

(** Lines 123-186: the items of the updated list. *)
Definition updatedItems (h : Host) (existing : GutList)
    (incoming : UpdateListRequest) (scale : Scale) (maxItems : Z)
  : list GutItem :=
  let existingItems := items existing in
  let items :=
    Js.mapi (fun item i => normalizeItem (randomUUID h 0 i) (ofGutItem item)
                             scale maxItems)
            existingItems in
  match up_items incoming with
  | Some incomingItems =>
      if truthy (up_userId incoming) then
        let userId := default "" (up_userId incoming) in
        let isStructuralChange :=
          negb (length incomingItems =? length existingItems)%nat in
        let items :=
          if isStructuralChange
          then rebuildItems h existing incomingItems scale maxItems
          else items in
        mergeItems incomingItems userId scale items
      else
        Js.mapi (fun item i => normalizeItem (randomUUID h 3 i) item scale maxItems)
                (Js.sliceTo maxItems incomingItems)
  | None => items
  end.

Definition logEffect (e : Effect) (st : State) : State :=
  {| rateLimitStore := rateLimitStore st;
     MATRIX_STORE := MATRIX_STORE st;
     effects := effects st ++ [e] |}.

Definition setRateLimitStore (s : gmap string Entry) (st : State) : State :=
  {| rateLimitStore := s;
     MATRIX_STORE := MATRIX_STORE st;
     effects := effects st |}.

(** [await env.MATRIX_STORE.put(key, JSON.stringify(l), ...)] *)
Definition storePut (key : string) (l : GutList) (st : State) : State :=
  {| rateLimitStore := rateLimitStore st;
     MATRIX_STORE := <[key := l]> (MATRIX_STORE st);
     effects := effects st ++ [StorePut key] |}.

(** [rateLimitResponse(outcome.error!, outcome.retryAfter)] *)
Definition rateLimitResponse (o : Outcome) : Response :=
  RateLimitResponse (default "undefined" (message o)) (retry o).

(** The user's quota windows, lines 76-82. *)
Definition userGate (h : Host) (env : Env) (incoming : UpdateListRequest)
    (st : State) : Outcome * State :=
  match up_userId incoming with
  | Some userId =>
      if negb (String.eqb userId "") then
        let '(o, s) := checkUserRateLimits (userTicks h) userId save env
                         (rateLimitStore st) in
        (o, logEffect (UserLimitsChecked userId) (setRateLimitStore s st))
      else (allow, st)
  | None => (allow, st)
  end.

(** The list's quota window, lines 84-88. *)
Definition listGate (h : Host) (env : Env) (slug : string) (st : State)
  : Outcome * State :=
  let '(o, s) := checkListRateLimits (listTick h) slug env (rateLimitStore st) in
  (o, logEffect (ListLimitsChecked slug) (setRateLimitStore s st)).

(** Lines 118-197: the document that replaces [existing]. The sum
    [version existing + 1] of line 196 is the exact one, as it is in the
    source for a stored version strictly between -2^53 and 2^53. *)
Definition updatedList (h : Host) (env : Env) (existing : GutList)
    (incoming : UpdateListRequest) : GutList :=
  let maxItems := envNumber (MAX_ITEMS env) 500 in
  let envMin := envNumber (MIN_SCALE env) 1 in
  let envMax := envNumber (MAX_SCALE env) 5 in
  let scale := match up_scale incoming with
               | Some s => normalizeScale (Some s) envMin envMax
               | None => scale existing
               end in
  let items := updatedItems h existing incoming scale maxItems in
  {| title := match up_title incoming with
              | Some t => sanitizeTitle (Some t)
              | None => title existing
              end;
     items := items;
     scale := scale;
     updatedAt := toISOString h;
     version := version existing + 1 |}.

(** [incoming.version !== undefined && incoming.version !== existing.version] *)
Definition versionConflict (incoming : UpdateListRequest) (existing : GutList)
  : bool :=
  match up_version incoming with
  | Some v => negb (v =? version existing)
  | None => false
  end.

(** Lines 90-213, once both gates have let the request through. *)
Definition applyUpdate (h : Host) (env : Env) (slug : string)
    (incoming : UpdateListRequest) (st : State) : Response * State :=
  let key := getListKey slug in
  let maxItems := envNumber (MAX_ITEMS env) 500 in
  let validation := validateList incoming maxItems in
  if negb (valid validation) then
    (ErrorResponse (Js.optStrOr (error validation) "Invalid request") 400, st)
  else
    let st := logEffect (StoreGet key) st in
    match MATRIX_STORE st !! key with
    | None => (ErrorResponse "List not found" 404, st)
    | Some existing =>
        if versionConflict incoming existing then (JsonConflict existing, st)
        else
          let updated := updatedList h env existing incoming in
          let sizeCheck := checkListSize (encodedLength h updated) env in
          if negb (ok sizeCheck) then
            (ErrorResponse (default "undefined" (message sizeCheck)) 413, st)
          else (JsonList updated, storePut key updated st)
    end.

(** PUT /api/list/:slug *)
Definition onRequestPut (h : Host) (env : Env) (slug : string)
    (incoming : UpdateListRequest) (st : State) : Response * State :=
  let invalidUser := match up_userId incoming with
                     | Some userId => negb (validateUserId userId)
                     | None => false
                     end in
  if invalidUser then (ErrorResponse "Invalid user ID format" 400, st)
  else
    let '(userRateLimit, st) := userGate h env incoming st in
    if negb (ok userRateLimit) then (rateLimitResponse userRateLimit, st)
    else
      let '(listRateLimit, st) := listGate h env slug st in
      if negb (ok listRateLimit) then (rateLimitResponse listRateLimit, st)
      else applyUpdate h env slug incoming st.

(** POST /api/list; [headerUserId] is [request.headers.get('X-User-Id')]. *)
Definition onRequestPost (h : Host) (env : Env) (headerUserId : option string)
    (body : CreateListRequest) (st : State) : Response * State :=
  let userId := Js.optStrOr headerUserId "anonymous" in
  let '(rateLimitCheck, s) :=
    checkUserRateLimits (userTicks h) userId create env (rateLimitStore st) in
  let st := logEffect (UserLimitsChecked userId) (setRateLimitStore s st) in
  if negb (ok rateLimitCheck) then (rateLimitResponse rateLimitCheck, st)
  else
    let envMin := envNumber (MIN_SCALE env) 1 in
    let envMax := envNumber (MAX_SCALE env) 5 in
    let scale := normalizeScale (cr_scale body) envMin envMax in
    let title := sanitizeTitle (cr_title body) in
    let slug := generateSlug (randomSuffix h) title in
    let list :=
      {| title := title;
         items := [];
         scale := scale;
         updatedAt := toISOString h;
         version := 1 |} in
    let sizeCheck := checkListSize (encodedLength h list) env in
    if negb (ok sizeCheck) then
      (ErrorResponse (default "undefined" (message sizeCheck)) 413, st)
    else (JsonCreated slug, storePut (getListKey slug) list st).

End Api.

(** * Specification vocabulary and sample data *)

Module Spec.
Import Utils Validate RateLimit Api.

(** What is said of one factor: [raw] is the supplied value, [out] the
    normalized one. A supplied zero is read as a missing factor by the
    code, which is what clamping it gives once the lower bound is not
    negative. *)
Definition factorNormalized (sc : Scale) (raw : option Z) (out : Z) : Prop :=
  min sc <= out <= max sc
  /\ (raw = None -> out = min sc)
  /\ (forall v, raw = Some v -> v <> 0 \/ 0 <= min sc ->
                out = clamp v (min sc) (max sc)).

Definition withScore (raw : PartialUserScore) (s : option Z) : PartialUserScore :=
  {| pus_g := pus_g raw; pus_u := pus_u raw; pus_t := pus_t raw; pus_score := s |}.

(** A supplied factor that lies within the scale. *)
Definition suppliedInRange (sc : Scale) (v : Z) : Prop :=
  min sc <= v <= max sc /\ (v <> 0 \/ 0 <= min sc).

(** The sum of one field over the entries of a scores map, and its
    arithmetic mean. *)
Definition total (f : UserScore -> Z) (m : gmap string UserScore) : Z :=
  map_fold (fun _ s acc => f s + acc) 0 m.






(** [s] is the ceiling of [ms / 1000]. *)
Definition ceilingOfSeconds (ms s : Z) : Prop :=
  1000 * (s - 1) < ms <= 1000 * s.

(** A call that finds no live entry opens a window. *)
Definition opensWindow (tk : Tick) (key : string) (windowMs : Z)
    (r : Result) (store' : gmap string Entry) : Prop :=
  r = {| allowed := true; retryAfter := None; current := 1 |}
  /\ store' !! key = Some {| count := 1; resetAt := now tk + windowMs |}.

(** A call within the window of [e] with the count below the limit. *)
Definition countsUp (key : string) (e : Entry)
    (r : Result) (store' : gmap string Entry) : Prop :=
  r = {| allowed := true; retryAfter := None; current := count e + 1 |}
  /\ store' !! key = Some {| count := count e + 1; resetAt := resetAt e |}.

(** A call within the window of [e] with the limit reached. The seconds to
    wait are positive strictly before the reset instant and zero at it. *)
Definition rejects (tk : Tick) (key : string) (e : Entry)
    (r : Result) (store' : gmap string Entry) : Prop :=
  allowed r = false
  /\ current r = count e
  /\ store' !! key = Some e
  /\ exists s, retryAfter r = Some s
               /\ ceilingOfSeconds (resetAt e - now tk) s
               /\ 0 <= s
               /\ (now tk < resetAt e <-> 0 < s).

(** The clock read by the sweep is not ahead of the one the check reads. *)
Definition clockAdvances (tk : Tick) : Prop :=
  sweep tk = true -> sweepNow tk <= now tk.

(** One call of [checkRateLimit], by the entry it finds. *)
Definition oneCall (tk : Tick) (key : string) (limit windowMs : Z)
    (store : gmap string Entry) : Prop :=
  clockAdvances tk ->
  let '(r, store') := checkRateLimit tk key limit windowMs store in
  match store !! key with
  | None => opensWindow tk key windowMs r store'
  | Some e =>
      if resetAt e <? now tk then opensWindow tk key windowMs r store'
      else if count e <? limit then countsUp key e r store'
      else rejects tk key e r store'
  end.

(** The tick [tk] falls within a window that ends at [reset]. *)
Definition withinWindow (reset : Z) (tk : Tick) : Prop :=
  now tk <= reset /\ (sweep tk = true -> sweepNow tk <= reset).

(** Three consecutive calls on one key with the limit 2, the first one
    finding no live entry and the next two falling within its window. *)
Definition threeCalls (t1 t2 t3 : Tick) (key : string) (windowMs : Z)
    (store : gmap string Entry) : Prop :=
  (forall e, store !! key = Some e -> resetAt e < now t1) ->
  withinWindow (now t1 + windowMs) t2 ->
  withinWindow (now t1 + windowMs) t3 ->
  let '(r1, s1) := checkRateLimit t1 key 2 windowMs store in
  let '(r2, s2) := checkRateLimit t2 key 2 windowMs s1 in
  let '(r3, s3) := checkRateLimit t3 key 2 windowMs s2 in
  allowed r1 = true /\ allowed r2 = true /\ allowed r3 = false
  /\ current r3 = 2
  /\ exists s, retryAfter r3 = Some s /\ 0 <= s
               /\ (now t3 < now t1 + windowMs -> 0 < s).

Definition maxItemsOf (env : Env) : Z := envNumber (MAX_ITEMS env) 500.

(** The entry [e] is no longer in force at the call that reads [tk]: its
    window has ended by the clock of the check, or the sweep was drawn and
    it had ended by the clock of the sweep. *)
Definition lapsed (tk : Tick) (e : Entry) : Prop :=
  resetAt e < now tk \/ (sweep tk = true /\ resetAt e < sweepNow tk).

(** The call of [checkRateLimit] for [key] takes [store] to [store'], lets
    the request through and consumes one unit of the quota. Either there
    was no entry in force (none at all, or a lapsed one) and the call opens
    a window with the count 1; or the entry in force had a count below the
    limit and the call stores that count plus one, in the same window. *)
Definition consumesUnit (tk : Tick) (key : string) (limit windowMs : Z)
    (store store' : gmap string Entry) : Prop :=
  exists r e',
    checkRateLimit tk key limit windowMs store = (r, store')
    /\ allowed r = true
    /\ store' !! key = Some e'
    /\ count e' = current r
    /\ (((forall e, store !! key = Some e -> lapsed tk e)
         /\ e' = {| count := 1; resetAt := now tk + windowMs |})
        \/ (exists e,
              store !! key = Some e
              /\ ~ lapsed tk e
              /\ count e < limit
              /\ e' = {| count := count e + 1; resetAt := resetAt e |})).

(** The label and the notes of a stored item [e] that an incoming item [inc]
    matches, after the rebuild and the merge of the acting user's fields. *)
Definition adoptedLabel (inc : IncomingItem) (e : GutItem) : string :=
  match in_label inc with
  | Some l => if isUserItemUpdate inc then l else Js.strOr l (label e)
  | None => label e
  end.

Definition adoptedNotes (inc : IncomingItem) (e : GutItem) : option string :=
  match in_notes inc with
  | Some n => Some n
  | None => notes e
  end.

(** What a structural change makes of the incoming item [inc]: [r] is the
    item stored at its index. *)
Definition reconciled (existing : GutList) (userId : string)
    (inc : IncomingItem) (r : GutItem) : Prop :=
  match Js.find (sameId inc) (items existing) with
  | Some e =>
      (forall k, k <> userId -> scores r !! k = scores e !! k)
      /\ label r = adoptedLabel inc e
      /\ notes r = adoptedNotes inc e
      /\ (id e <> "" -> id r = id e)
  | None =>
      forall k, k <> userId -> scores r !! k = default ∅ (in_scores inc) !! k
  end.

(** An effect on the key-value namespace. *)
Definition onStorage (key : string) (e : Effect) : Prop :=
  e = StoreGet key \/ e = StorePut key.

Definition identityAccepted (incoming : UpdateListRequest) : Prop :=
  forall userId, up_userId incoming = Some userId -> validateUserId userId = true.

(** The state in which the request leaves the two gates. *)
Definition afterGates (h : Host) (env : Env) (slug : string)
    (incoming : UpdateListRequest) (st : State) : State :=
  (listGate h env slug (userGate h env incoming st).2).2.

(** The request passes what is checked before the versions are compared:
    the format of the user identifier, the user's and the list's quota
    windows, and the shape of the body. *)
Definition reachesVersionCheck (h : Host) (env : Env) (slug : string)
    (incoming : UpdateListRequest) (st : State) : Prop :=
  identityAccepted incoming
  /\ ok (userGate h env incoming st).1 = true
  /\ ok (listGate h env slug (userGate h env incoming st).2).1 = true
  /\ valid (validateList incoming (maxItemsOf env)) = true.

(** The exits of [applyUpdate], in the order of the source. *)
Inductive UpdateExit (h : Host) (env : Env) (slug : string)
    (incoming : UpdateListRequest) (st : State) : Response -> State -> Prop :=
| exit_invalid :
    valid (validateList incoming (maxItemsOf env)) = false ->
    UpdateExit h env slug incoming st
      (ErrorResponse
         (Js.optStrOr (error (validateList incoming (maxItemsOf env)))
                      "Invalid request") 400)
      st
| exit_not_found :
    valid (validateList incoming (maxItemsOf env)) = true ->
    MATRIX_STORE st !! getListKey slug = None ->
    UpdateExit h env slug incoming st
      (ErrorResponse "List not found" 404)
      (logEffect (StoreGet (getListKey slug)) st)
| exit_conflict existing :
    valid (validateList incoming (maxItemsOf env)) = true ->
    MATRIX_STORE st !! getListKey slug = Some existing ->
    versionConflict incoming existing = true ->
    UpdateExit h env slug incoming st
      (JsonConflict existing)
      (logEffect (StoreGet (getListKey slug)) st)
| exit_too_large existing :
    valid (validateList incoming (maxItemsOf env)) = true ->
    MATRIX_STORE st !! getListKey slug = Some existing ->
    versionConflict incoming existing = false ->
    ok (checkListSize (encodedLength h (updatedList h env existing incoming)) env)
    = false ->
    UpdateExit h env slug incoming st
      (ErrorResponse
         (default "undefined"
            (message (checkListSize
                        (encodedLength h (updatedList h env existing incoming))
                        env)))
         413)
      (logEffect (StoreGet (getListKey slug)) st)
| exit_stored existing :
    valid (validateList incoming (maxItemsOf env)) = true ->
    MATRIX_STORE st !! getListKey slug = Some existing ->
    versionConflict incoming existing = false ->
    ok (checkListSize (encodedLength h (updatedList h env existing incoming)) env)
    = true ->
    UpdateExit h env slug incoming st
      (JsonList (updatedList h env existing incoming))
      (storePut (getListKey slug) (updatedList h env existing incoming)
         (logEffect (StoreGet (getListKey slug)) st)).

(** The exits of [onRequestPut]. *)
Inductive PutExit (h : Host) (env : Env) (slug : string)
    (incoming : UpdateListRequest) (st : State) : Response -> State -> Prop :=
| put_invalid_user userId :
    up_userId incoming = Some userId ->
    validateUserId userId = false ->
    PutExit h env slug incoming st (ErrorResponse "Invalid user ID format" 400) st
| put_user_limited :
    identityAccepted incoming ->
    ok (userGate h env incoming st).1 = false ->
    PutExit h env slug incoming st
      (rateLimitResponse (userGate h env incoming st).1)
      (userGate h env incoming st).2
| put_list_limited :
    identityAccepted incoming ->
    ok (userGate h env incoming st).1 = true ->
    ok (listGate h env slug (userGate h env incoming st).2).1 = false ->
    PutExit h env slug incoming st
      (rateLimitResponse (listGate h env slug (userGate h env incoming st).2).1)
      (afterGates h env slug incoming st)
| put_applied resp st' :
    identityAccepted incoming ->
    ok (userGate h env incoming st).1 = true ->
    ok (listGate h env slug (userGate h env incoming st).2).1 = true ->
    UpdateExit h env slug incoming (afterGates h env slug incoming st) resp st' ->
    PutExit h env slug incoming st resp st'.

(** A stored score is consistent with a scale: it is the product of its
    factors and each factor lies within the bounds. *)
Definition consistent (sc : Scale) (s : UserScore) : Prop :=
  us_score s = us_g s * us_u s * us_t s
  /\ min sc <= us_g s <= max sc
  /\ min sc <= us_u s <= max sc
  /\ min sc <= us_t s <= max sc.

End Spec.

Module Samples.
Import Utils Validate RateLimit Api.

Definition rawSeven : PartialUserScore :=
  {| pus_g := Some 7; pus_u := None; pus_t := Some 2; pus_score := Some 99 |}.

Definition oneToFive : Scale := {| min := 1; max := 5 |}.

(** Four entries whose [g] and [score] have the mean -0.25. *)
Definition belowZero : gmap string UserScore :=
  <["a" := {| us_g := -1; us_u := 1; us_t := 1; us_score := -1 |}]>
    (<["b" := {| us_g := 0; us_u := 1; us_t := 1; us_score := 0 |}]>
       (<["c" := {| us_g := 0; us_u := 1; us_t := 1; us_score := 0 |}]>
          (<["d" := {| us_g := 0; us_u := 1; us_t := 1; us_score := 0 |}]> ∅))).

(** The limit 2 reached in a window that ends at the instant 1000. *)
Definition spent : gmap string Entry :=
  {[ "k" := {| count := 2; resetAt := 1000 |} ]}.

Definition atReset : Tick := {| sweep := false; sweepNow := 1000; now := 1000 |}.

Definition alice : string := "11111111-1111-1111-1111-111111111111".
Definition bob : string := "22222222-2222-2222-2222-222222222222".

Definition noon : Tick := {| sweep := false; sweepNow := 1000; now := 1000 |}.

Definition host : Host :=
  {| userTicks := fun _ => noon;
     listTick := noon;
     randomUUID := fun _ _ => "6f1c2a9e-0000-4000-8000-000000000000";
     randomSuffix := "deadbeef";
     toISOString := "2025-01-01T00:00:00.000Z";
     encodedLength := fun _ => 512 |}.

Definition limited : Env :=
  {| MAX_ITEMS := None; MIN_SCALE := None; MAX_SCALE := None;
     ENABLE_RATE_LIMITING := "true";
     MAX_SAVES_PER_USER_PER_MINUTE := None;
     MAX_SAVES_PER_USER_PER_HOUR := None;
     MAX_LISTS_PER_USER_PER_DAY := None;
     MAX_USERS_PER_LIST := None;
     MAX_SAVES_PER_LIST_PER_MINUTE := None;
     LIST_MAX_SIZE_KB := None;
     LIST_TTL_DAYS := None |}.

Definition itemA : GutItem :=
  {| id := "a"; label := "Item A";
     scores := {[ alice := {| us_g := 5; us_u := 4; us_t := 3; us_score := 60 |} ]};
     avgScore := None; notes := None |}.

Definition itemB : GutItem :=
  {| id := "b"; label := "Item B"; scores := ∅; avgScore := None; notes := None |}.

Definition stored : GutList :=
  {| title := "Backlog"; items := [itemA; itemB]; scale := oneToFive;
     updatedAt := "2024-12-31T00:00:00.000Z"; version := 3 |}.

Definition serving : State :=
  {| rateLimitStore := ∅;
     MATRIX_STORE := {[ "list:backlog" := stored ]};
     effects := [] |}.

Definition scoring (i : string) (g u t : Z) : IncomingItem :=
  {| in_id := Some i; in_label := None; in_scores := None; in_avgScore := None;
     in_notes := None; in_g := Some g; in_u := Some u; in_t := Some t |}.

Definition naming (i : string) : IncomingItem :=
  {| in_id := Some i; in_label := None; in_scores := None; in_avgScore := None;
     in_notes := None; in_g := None; in_u := None; in_t := None |}.

Definition request (userId : option string) (v : option Z)
    (l : option (list IncomingItem)) : UpdateListRequest :=
  {| up_title := None; up_items := l; up_scale := None;
     up_version := v; up_userId := userId |}.

(** Bob scores item "a" against the version he read, which is stale. *)
Definition staleSave : UpdateListRequest :=
  request (Some bob) (Some 2) (Some [scoring "a" 4 4 4; naming "b"]).

(** The same stale version sent under a malformed user identifier. *)
Definition staleMalformed : UpdateListRequest :=
  request (Some "bob") (Some 2) None.

(** Bob saves under a slug that is not stored. *)
Definition orphanSave : UpdateListRequest :=
  request (Some bob) (Some 1) (Some [scoring "a" 4 4 4]).

(** Bob's scores for both stored items, against the current version. *)
Definition bobSave : UpdateListRequest :=
  request (Some bob) (Some 3) (Some [scoring "a" 9 0 4; scoring "b" 2 2 2]).

(** Bob sends the two stored items in the other order and scores "b". *)
Definition swappedSave : UpdateListRequest :=
  request (Some bob) (Some 3) (Some [scoring "b" 4 4 4; naming "a"]).

(** A new item that arrives with a scores map of its own. *)
Definition itemWithScores : IncomingItem :=
  {| in_id := Some "c"; in_label := Some "Item C";
     in_scores := Some {[ alice := {| us_g := 9; us_u := 9; us_t := 9;
                                      us_score := 1 |} ]};
     in_avgScore := None; in_notes := None;
     in_g := None; in_u := None; in_t := None |}.

(** Bob replaces the two stored items by that new one. *)
Definition structuralSave : UpdateListRequest :=
  request (Some bob) (Some 3) (Some [itemWithScores]).

(** A full replacement of the items, without a user identifier. *)
Definition replacement : UpdateListRequest :=
  request None (Some 3) (Some [itemWithScores]).

(** Three calls on a fresh key at one instant, with the limit 2. *)
Definition firstCall : Result * gmap string Entry :=
  checkRateLimit noon "k" 2 60000 ∅.

Definition secondCall : Result * gmap string Entry :=
  checkRateLimit noon "k" 2 60000 firstCall.2.

Definition thirdCall : Result * gmap string Entry :=
  checkRateLimit noon "k" 2 60000 secondCall.2.

End Samples.

(** * The rest of the handlers *)

(** ** functions/api/list/[slug].ts: GET and DELETE; rateLimit.ts: the
    [Retry-After] header *)

Module Http.
Import Utils Validate RateLimit Api.

(** What a handler of [slug].ts answers: one of the JSON responses, or a
    response without a body. *)
Inductive Reply :=
| Answer (r : Response)
| NotModified                 (* new Response(null, { status: 304, ... }) *)
| NoContent.                  (* new Response(null, { status: 204, ... }) *)

Definition replyStatus (r : Reply) : Z :=
  match r with
  | Answer r => status r
  | NotModified => 304
  | NoContent => 204
  end.

(** The value of a digit in [radix], for [parseInt]. *)
Definition digitValue (radix : Z) (c : ascii) : option Z :=
  let n := Z.of_nat (nat_of_ascii c) in
  let v := if (48 <=? n) && (n <=? 57) then Some (n - 48)
           else if (97 <=? n) && (n <=? 122) then Some (n - 87)
           else if (65 <=? n) && (n <=? 90) then Some (n - 55)
           else None in
  match v with
  | Some d => if d <? radix then Some d else None
  | None => None
  end.

(** The value of the longest prefix of digits, read after [acc]. *)
Fixpoint readDigits (radix acc : Z) (l : list ascii) : Z :=
  match l with
  | c :: l' =>
      match digitValue radix c with
      | Some d => readDigits radix (acc * radix + d) l'
      | None => acc
      end
  | [] => acc
  end.

(** [parseInt(s)] without a radix: leading white space is skipped, a sign
    and the prefix [0x] are read, then the longest run of digits; [None] is
    [NaN], the result when no digit follows. *)
Definition parseInt (s : string) : option Z :=
  let l := Js.trimStartList (list_ascii_of_string s) in
  let '(sign, l) :=
    match l with
    | c :: l' =>
        if (nat_of_ascii c =? 45)%nat then (-1, l')
        else if (nat_of_ascii c =? 43)%nat then (1, l')
        else (1, l)
    | [] => (1, l)
    end in
  let '(radix, l) :=
    match l with
    | z :: x :: l' =>
        if (nat_of_ascii z =? 48)%nat
           && ((nat_of_ascii x =? 120)%nat || (nat_of_ascii x =? 88)%nat)
        then (16, l') else (10, l)
    | _ => (10, l)
    end in
  match l with
  | c :: _ =>
      match digitValue radix c with
      | Some _ => Some (sign * readDigits radix 0 l)
      | None => None
      end
  | [] => None
  end.

(** GET /api/list/:slug; [clientVersion] is
    [request.headers.get('X-Current-Version')]. *)
Definition onRequestGet (slug : string) (clientVersion : option string)
    (st : State) : Reply * State :=
  let key := getListKey slug in
  let st := logEffect (StoreGet key) st in
  match MATRIX_STORE st !! key with
  | None => (Answer (ErrorResponse "List not found" 404), st)
  | Some list =>
      let upToDate :=
        match clientVersion with
        | Some v =>
            negb (String.eqb v "")
            && match parseInt v with
               | Some n => n =? version list
               | None => false
               end
        | None => false
        end in
      if upToDate then (NotModified, st) else (Answer (JsonList list), st)
  end.

(** DELETE /api/list/:slug. The ghost record of effects has no event for a
    deletion and is left as it is. *)
Definition onRequestDelete (slug : string) (st : State) : Reply * State :=
  let key := getListKey slug in
  (NoContent,
   {| rateLimitStore := rateLimitStore st;
      MATRIX_STORE := delete key (MATRIX_STORE st);
      effects := effects st |}).

(** The header ['Retry-After': String(retryAfter || 60)] of
    [rateLimitResponse]. *)
Definition retryAfterHeader (retryAfter : option Z) : string :=
  pretty (Js.numOr retryAfter 60).

End Http.

(** ** public/app.js: the CSV export and import, the file name *)

Module Csv.
Import Validate.

Definition quote : ascii := "034"%char.
Definition comma : ascii := ","%char.
Definition newline : ascii := "010"%char.

(** [str.includes(c)] for a one-character [c]. *)
Definition includes (c : ascii) (l : list ascii) : bool :=
  existsb (Ascii.eqb c) l.

(** The [replace] of [escapeCsv]: every double quote is doubled. *)
Fixpoint doubleQuotes (l : list ascii) : list ascii :=
  match l with
  | c :: l' =>
      if Ascii.eqb c quote then quote :: quote :: doubleQuotes l'
      else c :: doubleQuotes l'
  | [] => []
  end.

(** [escapeCsv(value)] for a text or [null]. *)
Definition escapeCsv (value : option string) : string :=
  match value with
  | None => EmptyString
  | Some str =>
      let l := list_ascii_of_string str in
      if includes comma l || includes quote l || includes newline l
      then string_of_list_ascii (quote :: doubleQuotes l ++ [quote])
      else str
  end.

(** The loop of [parseCsvLine] from the character at hand on: [line] is
    what is left of the line, [current], [inQuotes] and [result] are the
    variables of the source. Skipping the second quote of a doubled one is
    the step [i++]. *)
Fixpoint parseFrom (line current : list ascii) (inQuotes : bool)
    (result : list string) : list string :=
  match line with
  | [] => result ++ [Js.trim (string_of_list_ascii current)]
  | char :: rest =>
      if Ascii.eqb char quote then
        match rest with
        | nextChar :: rest' =>
            if inQuotes && Ascii.eqb nextChar quote
            then parseFrom rest' (current ++ [quote]) inQuotes result
            else parseFrom rest current (negb inQuotes) result
        | [] => parseFrom rest current (negb inQuotes) result
        end
      else if Ascii.eqb char comma && negb inQuotes then
        parseFrom rest [] inQuotes
          (result ++ [Js.trim (string_of_list_ascii current)])
      else parseFrom rest (current ++ [char]) inQuotes result
  end.

Definition parseCsvLine (line : string) : list string :=
  parseFrom (list_ascii_of_string line) [] false [].

(** [fields.join(',')] *)
Definition joinComma (fields : list string) : string :=
  String.concat (String comma EmptyString) fields.

(** A letter of either case, a digit, an underscore or a dash. *)
Definition isFileChar (c : ascii) : bool :=
  let n := nat_of_ascii c in
  ((97 <=? n)%nat && (n <=? 122)%nat) || ((65 <=? n)%nat && (n <=? 90)%nat)
  || ((48 <=? n)%nat && (n <=? 57)%nat) || (n =? 95)%nat || (n =? 45)%nat.

(** [.replace(/_+/g, '_')]: [inRun] tells that the previous character was
    an underscore. *)
Fixpoint underscoreRuns (inRun : bool) (l : list ascii) : list ascii :=
  match l with
  | c :: l' =>
      if (nat_of_ascii c =? 95)%nat
      then if inRun then underscoreRuns true l'
           else c :: underscoreRuns true l'
      else c :: underscoreRuns false l'
  | [] => []
  end.

(** [sanitizeFilename(name)] *)
Definition sanitizeFilename (name : string) : string :=
  let l := list_ascii_of_string (Js.strOr name "gut-list") in
  let replaced := map (fun c => if isFileChar c then c else "_"%char) l in
  string_of_list_ascii (map toLower (underscoreRuns false replaced)).

End Csv.

(** * Vocabulary of the further properties *)

Module Laws.
Import Utils Validate RateLimit Api Http Spec Csv.

(** Neither the first nor the last character is white space. *)
Definition trimmed (l : list ascii) : Prop :=
  (forall c, head l = Some c -> Js.isWhiteSpace c = false)
  /\ (forall c, last l = Some c -> Js.isWhiteSpace c = false).

(** [trim] on the list of characters. *)
Definition trimList (l : list ascii) : list ascii :=
  rev (Js.trimStartList (rev (Js.trimStartList l))).

(** A text as [normalizeItem] leaves it: at most [n] characters, no white
    space at either end. *)
Definition tidy (n : nat) (s : string) : Prop :=
  (String.length s <= n)%nat /\ trimmed (list_ascii_of_string s).

(** Notes that consist of white space only are stored as the empty text by
    one normalization and dropped by the next. *)
Definition settledNotes (n : option string) : option string :=
  match n with
  | Some s => if String.eqb s "" then None else Some s
  | None => None
  end.

(** A stored [Scale] sent back as the [scale] of a request. *)
Definition asPartialScale (s : Scale) : PartialScale :=
  {| ps_min := Some (min s); ps_max := Some (max s) |}.

Definition allHex (l : list ascii) : Prop :=
  Forall (fun c => isHexDigit c = true) l.

(** Five groups of 8, 4, 4, 4 and 12 hexadecimal digits, of either case,
    with a dash between them and nothing else. *)
Definition uuidShaped (l : list ascii) : Prop :=
  exists a b c d e,
    l = a ++ "-"%char :: b ++ "-"%char :: c ++ "-"%char :: d ++ "-"%char :: e
    /\ length a = 8%nat /\ length b = 4%nat /\ length c = 4%nat
    /\ length d = 4%nat /\ length e = 12%nat
    /\ allHex a /\ allHex b /\ allHex c /\ allHex d /\ allHex e.

(** A lower-case letter, a digit or a dash. *)
Definition urlSafe (c : ascii) : Prop := isSlugChar c = true \/ c = "-"%char.

(** The counter of [k] is what it was, or it had expired and one of the
    sweeps that [reads] names removed it. *)
Definition keptUnlessSwept (reads : Tick -> Prop)
    (store store' : gmap string Entry) (k : string) : Prop :=
  store' !! k = store !! k
  \/ (store' !! k = None
      /\ exists e tk, store !! k = Some e /\ reads tk /\ sweep tk = true
                      /\ resetAt e < sweepNow tk).

(** The key of the list's counter, as [checkListRateLimits] builds it. *)
Definition listCounter (slug : string) : string :=
  "list:" +:+ slug +:+ ":save:minute".

(** The same reading of the clocks on a call in which the sweep is not
    drawn. *)
Definition withoutSweep (tk : Tick) : Tick :=
  {| sweep := false; sweepNow := sweepNow tk; now := now tk |}.

(** A decimal digit, as [parseInt] reads it. *)
Definition decimal (c : ascii) : Prop := digitValue 10 c <> None.

(** The integers a JavaScript number holds exactly and prints in full. *)
Definition safeInteger (v : Z) : Prop := - 2 ^ 53 < v < 2 ^ 53.

(** A lower-case letter, a digit, an underscore or a dash. *)
Definition fileSafe (c : ascii) : Prop :=
  isSlugChar c = true \/ c = "_"%char \/ c = "-"%char.

(** No two underscores in a row. *)
Definition singleUnderscores (l : list ascii) : Prop :=
  forall i, l !! i = Some "_"%char -> l !! S i <> Some "_"%char.

(** A stored item that [normalizeItem] leaves as it is. *)
Definition settled (item : GutItem) : Prop :=
  id item <> "" /\ label item <> "" /\ tidy 200 (label item)
  /\ forall n, notes item = Some n -> n <> "" /\ tidy 1024 n.

(** The four columns of a score and of an average. *)
Inductive Column := ColG | ColU | ColT | ColScore.

Definition ofScore (c : Column) (s : UserScore) : Z :=
  match c with
  | ColG => us_g s | ColU => us_u s | ColT => us_t s | ColScore => us_score s
  end.

Definition ofAverage (c : Column) (a : AverageScore) : Q :=
  match c with
  | ColG => avg_g a | ColU => avg_u a | ColT => avg_t a
  | ColScore => avg_score a
  end.

(** A stored document in good order under the configuration [env]: a
    version from 1 on, a scale with [1 <= min < max], no more items than
    MAX_ITEMS allows and no item without an id. *)
Definition wellFormed (env : Env) (l : GutList) : Prop :=
  1 <= version l
  /\ 1 <= min (scale l) < max (scale l)
  /\ Z.of_nat (length (items l)) <= Z.max 0 (maxItemsOf env)
  /\ Forall (fun item => id item <> "") (items l).

Definition healthy (env : Env) (store : gmap string GutList) : Prop :=
  forall k l, store !! k = Some l -> wellFormed env l.

(** The size ceiling of [checkListSize], in bytes. *)
Definition ceilingBytes (env : Env) : Z :=
  envNumber (LIST_MAX_SIZE_KB env) 100 * 1024.

(** The document [onRequestPost] writes. *)
Definition created (h : Host) (env : Env) (body : CreateListRequest) : GutList :=
  {| title := sanitizeTitle (cr_title body);
     items := [];
     scale := normalizeScale (cr_scale body)
                (envNumber (MIN_SCALE env) 1) (envNumber (MAX_SCALE env) 5);
     updatedAt := toISOString h;
     version := 1 |}.

End Laws.


(** * Further sample data *)

Module Cases.
Import Utils Validate RateLimit Api Http Spec Samples Laws.

(** An item whose label has white space around it and whose notes are
    white space only. *)
Definition padded : IncomingItem :=
  {| in_id := None; in_label := Some "  Fix login  "; in_scores := None;
     in_avgScore := None; in_notes := Some "   ";
     in_g := None; in_u := None; in_t := None |}.

(** A scale that asks for more than the configuration allows. *)
Definition wide : option PartialScale :=
  Some {| ps_min := Some 0; ps_max := Some 10 |}.

(** A call that draws the sweep, the clock of the sweep read first. *)
Definition sweeping : Tick := {| sweep := true; sweepNow := 2000; now := 2001 |}.

(** Every limit set to zero. *)
Definition strict : Env :=
  {| MAX_ITEMS := None; MIN_SCALE := None; MAX_SCALE := None;
     ENABLE_RATE_LIMITING := "true";
     MAX_SAVES_PER_USER_PER_MINUTE := Some 0;
     MAX_SAVES_PER_USER_PER_HOUR := Some 0;
     MAX_LISTS_PER_USER_PER_DAY := Some 0;
     MAX_USERS_PER_LIST := None;
     MAX_SAVES_PER_LIST_PER_MINUTE := Some 0;
     LIST_MAX_SIZE_KB := None;
     LIST_TTL_DAYS := None |}.

(** Rate limiting switched off. *)
Definition unlimited : Env :=
  {| MAX_ITEMS := None; MIN_SCALE := None; MAX_SCALE := None;
     ENABLE_RATE_LIMITING := "false";
     MAX_SAVES_PER_USER_PER_MINUTE := None;
     MAX_SAVES_PER_USER_PER_HOUR := None;
     MAX_LISTS_PER_USER_PER_DAY := None;
     MAX_USERS_PER_LIST := None;
     MAX_SAVES_PER_LIST_PER_MINUTE := None;
     LIST_MAX_SIZE_KB := None;
     LIST_TTL_DAYS := None |}.

(** The list "backlog" has used up its ten saves of the minute. *)
Definition busy : State :=
  {| rateLimitStore :=
       {[ "list:backlog:save:minute" := {| count := 10; resetAt := 5000 |} ]};
     MATRIX_STORE := MATRIX_STORE serving;
     effects := [] |}.

(** The state Bob's save leaves, and the document it stores. *)
Definition saved : State := (onRequestPut host limited "backlog" bobSave serving).2.

Definition bobsUpdate : GutList := updatedList host limited stored bobSave.

Definition teamBacklog : CreateListRequest :=
  {| cr_title := Some "  Team Backlog "; cr_scale := None |}.

(** A change of the title only. *)
Definition retitle : UpdateListRequest :=
  {| up_title := Some "Roadmap"; up_items := None; up_scale := None;
     up_version := Some 3; up_userId := None |}.

(** Bob scores item "a" and sends a label of two spaces with it. *)
Definition blankLabel : IncomingItem :=
  {| in_id := Some "a"; in_label := Some "  "; in_scores := None;
     in_avgScore := None; in_notes := None;
     in_g := Some 4; in_u := Some 4; in_t := Some 4 |}.

Definition blankLabelSave : UpdateListRequest :=
  request (Some bob) (Some 3) (Some [blankLabel; naming "b"]).

End Cases.
(** * Properties *)

(** ** Scoring model *)

Module UtilsFacts.
Import Utils Spec Samples.

Lemma clamp_lower (v lo hi : Z) : lo <= clamp v lo hi.
Proof. unfold clamp. lia. Qed.

Lemma clamp_upper (v lo hi : Z) : lo <= hi -> clamp v lo hi <= hi.
Proof. unfold clamp. lia. Qed.

Lemma clamp_in_range (v lo hi : Z) : lo <= v <= hi -> clamp v lo hi = v.
Proof. unfold clamp. lia. Qed.

Lemma clamp_numOr (v lo hi : Z) :
  lo <= hi -> v <> 0 \/ 0 <= lo ->
  clamp (Js.numOr (Some v) lo) lo hi = clamp v lo hi.
Proof.
  intros Hle Hv. unfold Js.numOr, clamp.
  destruct (Z.eqb_spec v 0) as [-> | Hne]; lia.
Qed.

Lemma clamp_numOr_missing (lo hi : Z) :
  lo <= hi -> clamp (Js.numOr None lo) lo hi = lo.
Proof. intros Hle. unfold Js.numOr, clamp. lia. Qed.

Lemma factorNormalized_clamp (sc : Scale) (raw : option Z) :
  min sc <= max sc ->
  factorNormalized sc raw (clamp (Js.numOr raw (min sc)) (min sc) (max sc)).
Proof.
  intros Hsc. repeat split.
  - apply clamp_lower.
  - by apply clamp_upper.
  - intros ->. by apply clamp_numOr_missing.
  - intros v -> Hv. by apply clamp_numOr.
Qed.

Lemma normalizeUserScore_consistent
    (raw : PartialUserScore) (sc : Scale) :
  min sc <= max sc ->
  consistent sc (normalizeUserScore raw sc).
Proof.
  intros Hsc. unfold consistent, normalizeUserScore, calculateScore; simpl.
  split; [done|]. auto using clamp_lower, clamp_upper.
Qed.

(** C7. [normalizeUserScore] is defined on every input; on a scale with
    [min <= max] each returned factor lies in the scale, is the lower bound
    when the factor is missing and the clamped value when it is supplied,
    the returned score is the product of the three returned factors, and a
    supplied [score] plays no part. Three supplied factors within the scale
    come back as they are, with their product. For the scale 1..5 the input
    [{g:10, u:0, t:3}] gives [{g:5, u:1, t:3, score:15}]. *)
Theorem normalizeUserScore_clamps_and_multiplies
    (raw : PartialUserScore) (sc : Scale) :
  min sc <= max sc ->
  factorNormalized sc (pus_g raw) (us_g (normalizeUserScore raw sc))
  /\ factorNormalized sc (pus_u raw) (us_u (normalizeUserScore raw sc))
  /\ factorNormalized sc (pus_t raw) (us_t (normalizeUserScore raw sc))
  /\ us_score (normalizeUserScore raw sc)
     = us_g (normalizeUserScore raw sc) * us_u (normalizeUserScore raw sc)
       * us_t (normalizeUserScore raw sc)
  /\ (forall s, normalizeUserScore (withScore raw s) sc = normalizeUserScore raw sc)
  /\ (forall g u t,
        pus_g raw = Some g -> pus_u raw = Some u -> pus_t raw = Some t ->
        suppliedInRange sc g -> suppliedInRange sc u -> suppliedInRange sc t ->
        normalizeUserScore raw sc
        = {| us_g := g; us_u := u; us_t := t; us_score := g * u * t |})
  /\ normalizeUserScore
       {| pus_g := Some 10; pus_u := Some 0; pus_t := Some 3; pus_score := None |}
       {| min := 1; max := 5 |}
     = {| us_g := 5; us_u := 1; us_t := 3; us_score := 15 |}.
Proof.
  intros Hsc. unfold normalizeUserScore, calculateScore; simpl.
  split; [by apply factorNormalized_clamp|].
  split; [by apply factorNormalized_clamp|].
  split; [by apply factorNormalized_clamp|].
  split; [reflexivity|]. split; [reflexivity|]. split; [|reflexivity].
  intros g u t -> -> -> [Hg Hg'] [Hu Hu'] [Ht Ht'].
  rewrite !clamp_numOr, !clamp_in_range by done. reflexivity.
Qed.

Lemma normalizeUserScore_clamps_and_multiplies_witness :
  min oneToFive <= max oneToFive
  /\ us_score (normalizeUserScore rawSeven oneToFive)
     = us_g (normalizeUserScore rawSeven oneToFive)
       * us_u (normalizeUserScore rawSeven oneToFive)
       * us_t (normalizeUserScore rawSeven oneToFive).
Proof.
  assert (H : min oneToFive <= max oneToFive) by (simpl; lia).
  split; [exact H|].
  exact (proj1 (proj2 (proj2 (proj2
           (normalizeUserScore_clamps_and_multiplies rawSeven oneToFive H))))).
Defined.

Lemma fold_left_sums (l : list UserScore) (acc : UserScore) :
  fold_left
    (fun acc score =>
       {| us_g := us_g acc + us_g score;
          us_u := us_u acc + us_u score;
          us_t := us_t acc + us_t score;
          us_score := us_score acc + us_score score |})
    l acc
  = {| us_g := us_g acc + foldr (fun s a => us_g s + a) 0 l;
       us_u := us_u acc + foldr (fun s a => us_u s + a) 0 l;
       us_t := us_t acc + foldr (fun s a => us_t s + a) 0 l;
       us_score := us_score acc + foldr (fun s a => us_score s + a) 0 l |}.
Proof.
  revert acc. induction l as [|s l IH]; intros acc; simpl.
  - destruct acc; simpl. f_equal; lia.
  - rewrite IH; simpl. f_equal; lia.
Qed.


Lemma length_Object_values (m : gmap string UserScore) :
  length (Object_values m) = size m.
Proof. unfold Object_values. by rewrite length_fmap, length_map_to_list. Qed.






Lemma normalizeScale_ordered (s : option PartialScale) (envMin envMax : Z) :
  min (normalizeScale s envMin envMax) < max (normalizeScale s envMin envMax).
Proof.
  unfold normalizeScale.
  match goal with |- context [?a >=? ?b] => destruct (Z.geb_spec a b) end;
    simpl; lia.
Qed.

End UtilsFacts.

(** ** Rate governor *)

Module RateLimitFacts.
Import RateLimit Spec Samples.

Lemma cleanupExpired_lookup (t : Z) (store : gmap string Entry) (key : string) :
  cleanupExpired t store !! key
  = match store !! key with
    | Some e => if resetAt e <? t then None else Some e
    | None => None
    end.
Proof.
  unfold cleanupExpired. rewrite map_lookup_filter.
  destruct (store !! key) as [e|]; simpl; [|done].
  by destruct (resetAt e <? t).
Qed.

Lemma ceilSeconds_ceiling (ms : Z) : ceilingOfSeconds ms (ceilSeconds ms).
Proof.
  unfold ceilingOfSeconds, ceilSeconds.
  pose proof (Z.div_mod (- ms) 1000 ltac:(lia)).
  pose proof (Z.mod_pos_bound (- ms) 1000 ltac:(lia)). lia.
Qed.

Lemma ceilSeconds_sign (ms : Z) :
  0 <= ms -> 0 <= ceilSeconds ms /\ (0 < ms <-> 0 < ceilSeconds ms).
Proof. pose proof (ceilSeconds_ceiling ms) as H. unfold ceilingOfSeconds in H. lia. Qed.

Lemma rejects_in_window (tk : Tick) (key : string) (e : Entry)
    (store' : gmap string Entry) :
  now tk <= resetAt e -> store' !! key = Some e ->
  rejects tk key e
    {| allowed := false;
       retryAfter := Some (ceilSeconds (resetAt e - now tk));
       current := count e |}
    store'.
Proof.
  intros Hn Hs.
  pose proof (ceilSeconds_sign (resetAt e - now tk) ltac:(lia)) as [H0 H1].
  pose proof (ceilSeconds_ceiling (resetAt e - now tk)) as Hc.
  split; [done|]. split; [done|]. split; [done|].
  exists (ceilSeconds (resetAt e - now tk)).
  split; [done|]. split; [done|]. split; [done|].
  rewrite <- H1. lia.
Qed.

(** The three outcomes of a call that was made on the store [store]
    after the optional sweep left [swept]. *)
Lemma checkRateLimit_cases (tk : Tick) (key : string) (limit windowMs : Z)
    (store : gmap string Entry) :
  let swept := if sweep tk then cleanupExpired (sweepNow tk) store else store in
  let '(r, store') := checkRateLimit tk key limit windowMs store in
  match swept !! key with
  | None => opensWindow tk key windowMs r store'
  | Some e =>
      if resetAt e <? now tk then opensWindow tk key windowMs r store'
      else if count e <? limit then countsUp key e r store'
      else rejects tk key e r store'
  end.
Proof.
  unfold checkRateLimit.
  set (swept := if sweep tk then _ else _).
  simpl. destruct (swept !! key) as [e|] eqn:He.
  - destruct (Z.ltb_spec (resetAt e) (now tk)) as [Hn | Hn].
    { split; [done | by rewrite lookup_insert_eq]. }
    destruct (Z.leb_spec limit (count e)) as [Hc | Hc];
      destruct (Z.ltb_spec (count e) limit); try lia.
    + by apply rejects_in_window.
    + split; [done | by rewrite lookup_insert_eq].
  - split; [done | by rewrite lookup_insert_eq].
Qed.

Lemma swept_lookup (tk : Tick) (store : gmap string Entry) (key : string) :
  (if sweep tk then cleanupExpired (sweepNow tk) store else store) !! key
  = match store !! key with
    | Some e => if sweep tk && (resetAt e <? sweepNow tk) then None else Some e
    | None => None
    end.
Proof.
  destruct (sweep tk); simpl.
  - apply cleanupExpired_lookup.
  - by destruct (store !! key).
Qed.

Lemma checkRateLimit_oneCall (tk : Tick) (key : string) (limit windowMs : Z)
    (store : gmap string Entry) : oneCall tk key limit windowMs store.
Proof.
  unfold oneCall, clockAdvances. intros Hclock.
  pose proof (checkRateLimit_cases tk key limit windowMs store) as H.
  simpl in H. rewrite swept_lookup in H.
  destruct (checkRateLimit tk key limit windowMs store) as [r store'].
  destruct (store !! key) as [e|]; [|done].
  destruct (sweep tk); simpl in H; [|done].
  destruct (Z.ltb_spec (resetAt e) (sweepNow tk)) as [Hs | Hs]; [|done].
  specialize (Hclock eq_refl).
  by destruct (Z.ltb_spec (resetAt e) (now tk)); [|lia].
Qed.

Lemma checkRateLimit_opens (tk : Tick) (key : string) (limit windowMs : Z)
    (store : gmap string Entry) :
  (forall e, store !! key = Some e -> resetAt e < now tk) ->
  let '(r, store') := checkRateLimit tk key limit windowMs store in
  opensWindow tk key windowMs r store'.
Proof.
  intros Hexp.
  pose proof (checkRateLimit_cases tk key limit windowMs store) as H.
  simpl in H. rewrite swept_lookup in H.
  destruct (checkRateLimit tk key limit windowMs store) as [r store'].
  destruct (store !! key) as [e|]; [|done].
  specialize (Hexp e eq_refl).
  destruct (sweep tk && (resetAt e <? sweepNow tk)); [done|].
  by destruct (Z.ltb_spec (resetAt e) (now tk)); [|lia].
Qed.

Lemma checkRateLimit_within (tk : Tick) (key : string) (limit windowMs : Z)
    (store : gmap string Entry) (e : Entry) :
  store !! key = Some e -> withinWindow (resetAt e) tk ->
  let '(r, store') := checkRateLimit tk key limit windowMs store in
  if count e <? limit then countsUp key e r store'
  else rejects tk key e r store'.
Proof.
  intros He [Hnow Hsweep].
  pose proof (checkRateLimit_cases tk key limit windowMs store) as H.
  simpl in H. rewrite swept_lookup, He in H.
  destruct (checkRateLimit tk key limit windowMs store) as [r store'].
  assert (Hkeep : sweep tk && (resetAt e <? sweepNow tk) = false).
  { destruct (sweep tk); [|done]. simpl. specialize (Hsweep eq_refl).
    by destruct (Z.ltb_spec (resetAt e) (sweepNow tk)); [lia|]. }
  rewrite Hkeep in H.
  by destruct (Z.ltb_spec (resetAt e) (now tk)); [lia|].
Qed.

Lemma checkRateLimit_threeCalls (t1 t2 t3 : Tick) (key : string)
    (windowMs : Z) (store : gmap string Entry) :
  threeCalls t1 t2 t3 key windowMs store.
Proof.
  unfold threeCalls. intros Hexp Hw2 Hw3.
  pose proof (checkRateLimit_opens t1 key 2 windowMs store Hexp) as H1.
  destruct (checkRateLimit t1 key 2 windowMs store) as [r1 s1].
  destruct H1 as [-> Hs1].
  pose proof (checkRateLimit_within t2 key 2 windowMs s1 _ Hs1 Hw2) as H2.
  destruct (checkRateLimit t2 key 2 windowMs s1) as [r2 s2].
  simpl in H2. destruct H2 as [-> Hs2].
  pose proof (checkRateLimit_within t3 key 2 windowMs s2 _ Hs2 Hw3) as H3.
  destruct (checkRateLimit t3 key 2 windowMs s2) as [r3 s3].
  simpl in H3. destruct H3 as (Ha & Hc & _ & s & Hr & _ & Hs0 & Hpos).
  simpl in Hpos.
  split; [done|]. split; [done|]. split; [done|]. split; [done|].
  exists s. split; [done|]. split; [done|]. by apply Hpos.
Qed.

(** C9, as amended. A call of [checkRateLimit] that finds no entry or an
    expired one stores [{count: 1, resetAt: now + windowMs}] and allows
    with [current = 1]; within the window it increments and allows while
    the stored count is below the limit, and rejects once the limit is
    reached, reporting the stored count and the ceiling of the
    milliseconds to the reset divided by 1000, which is positive strictly
    before the reset instant and zero at it. With the limit 2, three
    consecutive calls within one window give allowed, allowed, rejected
    with [current = 2]. *)
Theorem checkRateLimit_fixed_window :
  (forall tk key limit windowMs store, oneCall tk key limit windowMs store)
  /\ (forall t1 t2 t3 key windowMs store,
         threeCalls t1 t2 t3 key windowMs store).
Proof.
  split.
  - apply checkRateLimit_oneCall.
  - apply checkRateLimit_threeCalls.
Qed.

(** C9 fails as stated: at the reset instant itself the entry is still
    within its window (it has not expired), the call is rejected and the
    seconds to wait are zero, not positive. *)
Lemma checkRateLimit_zero_wait_at_reset :
  spent !! "k" = Some {| count := 2; resetAt := 1000 |}
  /\ (1000 <? now atReset) = false
  /\ (checkRateLimit atReset "k" 2 60000 spent).1
     = {| allowed := false; retryAfter := Some 0; current := 2 |}
  /\ ~ (exists s, retryAfter (checkRateLimit atReset "k" 2 60000 spent).1 = Some s
                  /\ 0 < s).
Proof.
  split; [by vm_compute|]. split; [by vm_compute|]. split; [by vm_compute|].
  intros (s & Hs & Hpos). vm_compute in Hs. injection Hs as <-. lia.
Qed.

Lemma checkRateLimit_allowed_consumes (tk : Tick) (key : string)
    (limit windowMs : Z) (store : gmap string Entry) (r : Result)
    (store' : gmap string Entry) :
  checkRateLimit tk key limit windowMs store = (r, store') ->
  allowed r = true ->
  consumesUnit tk key limit windowMs store store'.
Proof.
  intros Hrun Hallowed.
  pose proof (checkRateLimit_cases tk key limit windowMs store) as H.
  simpl in H. rewrite swept_lookup, Hrun in H.
  assert (Hopen : (forall e, store !! key = Some e -> lapsed tk e) ->
                  opensWindow tk key windowMs r store' ->
                  consumesUnit tk key limit windowMs store store').
  { intros Hlapsed [-> Hs]. eexists _, _.
    split; [exact Hrun|]. split; [done|]. split; [exact Hs|].
    split; [done|]. left. by split. }
  destruct (store !! key) as [e|] eqn:He; [|by apply Hopen].
  destruct (sweep tk) eqn:Hsweep; simpl in H.
  - destruct (Z.ltb_spec (resetAt e) (sweepNow tk)) as [Hs | Hs].
    { apply Hopen; [|done]. intros e0 [= <-]. right. by split. }
    destruct (Z.ltb_spec (resetAt e) (now tk)) as [Hn | Hn].
    { apply Hopen; [|done]. intros e0 [= <-]. by left. }
    destruct (Z.ltb_spec (count e) limit) as [Hc | Hc].
    + destruct H as [-> Hst]. eexists _, _.
      split; [exact Hrun|]. split; [done|]. split; [exact Hst|].
      split; [done|]. right. exists e.
      split; [done|]. split; [|by split].
      intros [Hl | [_ Hl]]; lia.
    + destruct H as (Hrej & _). congruence.
  - destruct (Z.ltb_spec (resetAt e) (now tk)) as [Hn | Hn].
    { apply Hopen; [|done]. intros e0 [= <-]. by left. }
    destruct (Z.ltb_spec (count e) limit) as [Hc | Hc].
    + destruct H as [-> Hst]. eexists _, _.
      split; [exact Hrun|]. split; [done|]. split; [exact Hst|].
      split; [done|]. right. exists e.
      split; [done|]. split; [|by split].
      intros [Hl | [Hl _]]; [lia | congruence].
    + destruct H as (Hrej & _). congruence.
Qed.

Lemma checkRateLimit_fixed_window_witness :
  allowed firstCall.1 = true
  /\ allowed secondCall.1 = true
  /\ allowed thirdCall.1 = false
  /\ current thirdCall.1 = 2.
Proof.
  pose proof (proj2 checkRateLimit_fixed_window noon noon noon "k" 60000 ∅) as H.
  unfold threeCalls, withinWindow in H.
  unfold thirdCall, secondCall, firstCall.
  destruct (checkRateLimit noon "k" 2 60000 ∅) as [r1 s1]; simpl.
  destruct (checkRateLimit noon "k" 2 60000 s1) as [r2 s2]; simpl.
  destruct (checkRateLimit noon "k" 2 60000 s2) as [r3 s3]; simpl.
  destruct H as (H1 & H2 & H3 & H4 & _).
  - intros e He. rewrite lookup_empty in He. discriminate He.
  - simpl. split; [lia | intros _; lia].
  - simpl. split; [lia | intros _; lia].
  - done.
Defined.

End RateLimitFacts.

(** ** Arrays *)

Module JsFacts.

Lemma mapi_from_lookup {A B} (f : A -> nat -> B) (l : list A) (k i : nat) :
  Js.mapi_from k f l !! i = (fun x => f x (k + i)%nat) <$> l !! i.
Proof.
  revert k i. induction l as [|x l IH]; intros k i; simpl; [done|].
  destruct i as [|i]; simpl.
  - by rewrite Nat.add_0_r.
  - rewrite IH. by rewrite Nat.add_succ_r.
Qed.

Lemma mapi_lookup {A B} (f : A -> nat -> B) (l : list A) (i : nat) :
  Js.mapi f l !! i = (fun x => f x i) <$> l !! i.
Proof. unfold Js.mapi. by rewrite mapi_from_lookup. Qed.

Lemma length_mapi_from {A B} (f : A -> nat -> B) (l : list A) (k : nat) :
  length (Js.mapi_from k f l) = length l.
Proof. revert k. induction l as [|x l IH]; intros k; simpl; [done|]. by rewrite IH. Qed.

Lemma length_mapi {A B} (f : A -> nat -> B) (l : list A) :
  length (Js.mapi f l) = length l.
Proof. apply length_mapi_from. Qed.

Lemma sliceTo_all {A} (n : Z) (l : list A) :
  Z.of_nat (length l) <= n -> Js.sliceTo n l = l.
Proof.
  intros Hn. unfold Js.sliceTo.
  destruct (Z.ltb_spec n 0); [lia|]. apply take_ge. lia.
Qed.

Lemma find_some {A} (p : A -> bool) (l : list A) (x : A) :
  Js.find p l = Some x -> x ∈ l /\ p x = true.
Proof.
  induction l as [|y l IH]; simpl; [done|].
  destruct (p y) eqn:Hp.
  - intros [= ->]. split; [by left | done].
  - intros H. destruct (IH H). split; [by right | done].
Qed.

End JsFacts.

(** ** Merge engine *)

Module ApiFacts.
Import Utils Validate RateLimit Api Spec Samples JsFacts.

Lemma applyUpdate_exit (h : Host) (env : Env) (slug : string)
    (incoming : UpdateListRequest) (st : State) :
  UpdateExit h env slug incoming st
    (applyUpdate h env slug incoming st).1 (applyUpdate h env slug incoming st).2.
Proof.
  unfold applyUpdate. fold (maxItemsOf env).
  destruct (valid (validateList incoming (maxItemsOf env))) eqn:Hvalid; simpl.
  2: by apply exit_invalid.
  destruct (MATRIX_STORE st !! getListKey slug) as [existing|] eqn:Hget.
  2: by apply exit_not_found.
  destruct (versionConflict incoming existing) eqn:Hconflict; simpl.
  1: by apply exit_conflict.
  destruct (ok (checkListSize _ env)) eqn:Hsize; simpl.
  - by apply exit_stored.
  - by apply exit_too_large.
Qed.

Lemma userGate_store (h : Host) (env : Env) (incoming : UpdateListRequest)
    (st : State) :
  MATRIX_STORE (userGate h env incoming st).2 = MATRIX_STORE st.
Proof.
  unfold userGate. destruct (up_userId incoming) as [userId|]; [|done].
  destruct (negb (String.eqb userId "")); [|done].
  by destruct (checkUserRateLimits _ _ _ _ _).
Qed.

Lemma listGate_store (h : Host) (env : Env) (slug : string) (st : State) :
  MATRIX_STORE (listGate h env slug st).2 = MATRIX_STORE st.
Proof. unfold listGate. by destruct (checkListRateLimits _ _ _ _). Qed.

Lemma afterGates_store (h : Host) (env : Env) (slug : string)
    (incoming : UpdateListRequest) (st : State) :
  MATRIX_STORE (afterGates h env slug incoming st) = MATRIX_STORE st.
Proof. unfold afterGates. by rewrite listGate_store, userGate_store. Qed.

(** The part of [onRequestPut] that follows the identity check. *)
Ltac through_gates h env slug incoming st Hid :=
  pose proof (put_user_limited h env slug incoming st Hid) as Huser;
  pose proof (put_list_limited h env slug incoming st Hid) as Hlist;
  pose proof (put_applied h env slug incoming st) as Happ;
  unfold afterGates in *;
  destruct (userGate h env incoming st) as [o1 st1]; simpl in *;
  destruct (ok o1); simpl; [|by apply Huser];
  destruct (listGate h env slug st1) as [o2 st2]; simpl in *;
  destruct (ok o2); simpl; [|by apply Hlist];
  apply Happ; try done; apply applyUpdate_exit.

Lemma onRequestPut_exit (h : Host) (env : Env) (slug : string)
    (incoming : UpdateListRequest) (st : State) :
  PutExit h env slug incoming st
    (onRequestPut h env slug incoming st).1 (onRequestPut h env slug incoming st).2.
Proof.
  unfold onRequestPut.
  destruct (up_userId incoming) as [userId|] eqn:Hu.
  - destruct (validateUserId userId) eqn:Hv; simpl.
    2: by eapply put_invalid_user.
    assert (Hid : identityAccepted incoming).
    { intros u' Hu'. congruence. }
    through_gates h env slug incoming st Hid.
  - simpl.
    assert (Hid : identityAccepted incoming).
    { intros u' Hu'. congruence. }
    through_gates h env slug incoming st Hid.
Qed.

Lemma versionConflict_true (incoming : UpdateListRequest) (existing : GutList) :
  versionConflict incoming existing = true
  <-> exists v, up_version incoming = Some v /\ v <> version existing.
Proof.
  unfold versionConflict. destruct (up_version incoming) as [v|].
  - destruct (Z.eqb_spec v (version existing)); simpl; split.
    + done.
    + intros (v' & [= <-] & Hne). done.
    + intros _. by exists v.
    + done.
  - split; [done | by intros (v & ? & _)].
Qed.

Lemma PutExit_run (h : Host) (env : Env) (slug : string)
    (incoming : UpdateListRequest) (st : State) (resp : Response) (st' : State) :
  onRequestPut h env slug incoming st = (resp, st') ->
  PutExit h env slug incoming st resp st'.
Proof.
  intros Hrun. pose proof (onRequestPut_exit h env slug incoming st) as H.
  by rewrite Hrun in H.
Qed.

(** Case analysis on the exit a run took. *)
Ltac put_exits Hrun :=
  apply PutExit_run in Hrun;
  inversion Hrun as [u Hu' Hv | Hid Ho | Hid Ho1 Ho2
                     | resp' st'' Hid Ho1 Ho2 Hexit]; subst.

Ltac update_exits Hexit :=
  inversion Hexit as [Hval | Hval Hget | ex Hval Hget Hc | ex Hval Hget Hc Hs
                      | ex Hval Hget Hc Hs]; subst.

(** C1, as amended. A rejection with 409 always carries the stored
    document, happens only when a version was supplied that differs from
    the stored one, and leaves the storage as it was. For a request that
    passes the checks made before the versions are compared (identity,
    quota windows, shape of the body), the rejection happens exactly when
    a differing version is supplied, and without a version the update is
    computed against the stored document and written with its version plus
    one, unless the result is too large. *)
Theorem version_conflict_when_reached (h : Host) (env : Env) (slug : string)
    (incoming : UpdateListRequest) (st : State) (existing : GutList)
    (resp : Response) (st' : State) :
  MATRIX_STORE st !! getListKey slug = Some existing ->
  onRequestPut h env slug incoming st = (resp, st') ->
  (status resp = 409 ->
   resp = JsonConflict existing
   /\ (exists v, up_version incoming = Some v /\ v <> version existing)
   /\ MATRIX_STORE st' = MATRIX_STORE st)
  /\ (reachesVersionCheck h env slug incoming st ->
      (resp = JsonConflict existing
       <-> exists v, up_version incoming = Some v /\ v <> version existing)
      /\ (up_version incoming = None ->
          (resp = JsonList (updatedList h env existing incoming)
           /\ version (updatedList h env existing incoming) = version existing + 1
           /\ MATRIX_STORE st' !! getListKey slug
              = Some (updatedList h env existing incoming))
          \/ (status resp = 413 /\ MATRIX_STORE st' = MATRIX_STORE st))).
Proof.
  intros Hstored Hrun. split.
  - intros H409. put_exits Hrun; try discriminate H409.
    update_exits Hexit; try discriminate H409.
    rewrite afterGates_store, Hstored in Hget. injection Hget as <-.
    split; [done|]. split; [by apply versionConflict_true|].
    simpl. apply afterGates_store.
  - intros (Hacc & Hu & Hl & Hvalid). put_exits Hrun.
    + specialize (Hacc u Hu'). congruence.
    + congruence.
    + congruence.
    + update_exits Hexit; try congruence;
        rewrite afterGates_store, Hstored in Hget; try discriminate Hget;
        injection Hget as <-.
      * split.
        -- split; [intros _; by apply versionConflict_true | done].
        -- intros Hnone. apply versionConflict_true in Hc.
           destruct Hc as (v & Hv & _). congruence.
      * split.
        -- split; [done|]. intros Hv. apply versionConflict_true in Hv. congruence.
        -- intros _. right. split; [done|]. simpl. apply afterGates_store.
      * split.
        -- split; [done|]. intros Hv. apply versionConflict_true in Hv. congruence.
        -- intros _. left. split; [done|]. split; [done|].
           simpl. apply lookup_insert_eq.
Qed.

Lemma version_conflict_when_reached_witness :
  (onRequestPut host limited "backlog" staleSave serving).1 = JsonConflict stored
  /\ MATRIX_STORE (onRequestPut host limited "backlog" staleSave serving).2
     = MATRIX_STORE serving.
Proof.
  assert (Hstored : MATRIX_STORE serving !! getListKey "backlog" = Some stored)
    by (vm_compute; reflexivity).
  assert (Hrun : onRequestPut host limited "backlog" staleSave serving
                 = ((onRequestPut host limited "backlog" staleSave serving).1,
                    (onRequestPut host limited "backlog" staleSave serving).2))
    by (vm_compute; reflexivity).
  assert (Hreach : reachesVersionCheck host limited "backlog" staleSave serving).
  { split; [|by vm_compute]. intros userId [= <-]. vm_compute; reflexivity. }
  destruct (version_conflict_when_reached host limited "backlog" staleSave serving
              stored _ _ Hstored Hrun) as [H409 Hreached].
  destruct (Hreached Hreach) as [Hiff _].
  assert (Hresp : (onRequestPut host limited "backlog" staleSave serving).1
                  = JsonConflict stored).
  { apply Hiff. exists 2. split; [reflexivity | vm_compute; discriminate]. }
  split; [exact Hresp|].
  apply H409. rewrite Hresp. reflexivity.
Defined.

(** C1 fails as stated: a version is supplied and differs from the stored
    one, yet the answer is 400, because the user identifier is checked
    first. *)
Lemma stale_version_with_malformed_identity :
  MATRIX_STORE serving !! getListKey "backlog" = Some stored
  /\ up_version staleMalformed = Some 2
  /\ 2 <> version stored
  /\ onRequestPut host limited "backlog" staleMalformed serving
     = (ErrorResponse "Invalid user ID format" 400, serving)
  /\ status (onRequestPut host limited "backlog" staleMalformed serving).1 <> 409.
Proof.
  split; [by vm_compute|]. split; [done|]. split; [by vm_compute|].
  split; [by vm_compute|]. by vm_compute.
Qed.

Lemma validateUserId_nonempty (userId : string) :
  validateUserId userId = true -> String.eqb userId "" = false.
Proof. destruct userId; [discriminate | done]. Qed.

Lemma UpdateExit_governor (h : Host) (env : Env) (slug : string)
    (incoming : UpdateListRequest) (st : State) (resp : Response) (st' : State) :
  UpdateExit h env slug incoming st resp st' ->
  rateLimitStore st' = rateLimitStore st
  /\ exists rest, effects st' = effects st ++ rest
                  /\ Forall (onStorage (getListKey slug)) rest.
Proof.
  unfold onStorage.
  intros Hexit; inversion Hexit; subst; simpl; (split; [done|]).
  - exists []. by rewrite app_nil_r.
  - eexists [_]. split; [done|]. repeat constructor.
  - eexists [_]. split; [done|]. repeat constructor.
  - eexists [_]. split; [done|]. repeat constructor.
  - eexists [_; _]. rewrite <- app_assoc. split; [done|].
    constructor; [by left|]. constructor; [by right|]. constructor.
Qed.

(** C10. A PUT that carries a valid user identifier while rate limiting is
    enabled and that is not answered 429 has consumed one unit of the
    user's per-minute quota, of the user's per-hour quota and of the list's
    per-minute quota, in that order and before any access to the stored
    list: each of the three checks found a counter in force below its
    limit and stored it plus one in the same window, or found none in
    force (no entry, or a lapsed one) and opened a window with the count 1.
    The rate-limit store the request leaves is the one the three checks
    left, whatever the answer is (400, 404, 409, 413 or 200). *)
Theorem quota_consumed_before_read (h : Host) (env : Env) (slug : string)
    (incoming : UpdateListRequest) (st : State) (userId : string)
    (resp : Response) (st' : State) :
  up_userId incoming = Some userId ->
  validateUserId userId = true ->
  ENABLE_RATE_LIMITING env = "true" ->
  onRequestPut h env slug incoming st = (resp, st') ->
  status resp <> 429 ->
  exists s1 s2 rest,
    consumesUnit (userTicks h 0) ("user:" +:+ userId +:+ ":save:minute")
      (envNumber (MAX_SAVES_PER_USER_PER_MINUTE env) 2) (60 * 1000)
      (rateLimitStore st) s1
    /\ consumesUnit (userTicks h 1) ("user:" +:+ userId +:+ ":save:hour")
         (envNumber (MAX_SAVES_PER_USER_PER_HOUR env) 30) (60 * 60 * 1000)
         s1 s2
    /\ consumesUnit (listTick h) ("list:" +:+ slug +:+ ":save:minute")
         (envNumber (MAX_SAVES_PER_LIST_PER_MINUTE env) 10) (60 * 1000)
         s2 (rateLimitStore st')
    /\ effects st'
       = effects st ++ UserLimitsChecked userId :: ListLimitsChecked slug :: rest
    /\ Forall (onStorage (getListKey slug)) rest.
Proof.
  intros Hu Hvalid Hon Hrun Hstatus.
  put_exits Hrun; try (by contradiction Hstatus); try congruence.
  apply UpdateExit_governor in Hexit as (Hstore & rest & Heff & Hrest).
  rewrite Hstore, Heff. clear Hstore Heff Hrun Hstatus.
  unfold afterGates, listGate, userGate in *.
  rewrite Hu, (validateUserId_nonempty _ Hvalid) in *. simpl in *.
  unfold checkUserRateLimits, checkListRateLimits in *.
  rewrite Hon in *. simpl in *.
  destruct (checkRateLimit (userTicks h 0) _ _ _ (rateLimitStore st))
    as [r1 s1] eqn:H1.
  destruct (allowed r1) eqn:Ha1; simpl in *; [|discriminate].
  destruct (checkRateLimit (userTicks h 1) _ _ _ s1) as [r2 s2] eqn:H2.
  destruct (allowed r2) eqn:Ha2; simpl in *; [|discriminate].
  destruct (checkRateLimit (listTick h) _ _ _ s2) as [r3 s3] eqn:H3.
  destruct (allowed r3) eqn:Ha3; simpl in *; [|discriminate].
  exists s1, s2, rest.
  split; [by eapply RateLimitFacts.checkRateLimit_allowed_consumes|].
  split; [by eapply RateLimitFacts.checkRateLimit_allowed_consumes|].
  split; [by eapply RateLimitFacts.checkRateLimit_allowed_consumes|].
  split; [|done]. by rewrite <- !app_assoc.
Qed.

(** A request answered 429 made no access to the stored list at all. *)
Lemma rate_limited_no_storage_access (h : Host) (env : Env) (slug : string)
    (incoming : UpdateListRequest) (st : State) (resp : Response) (st' : State) :
  onRequestPut h env slug incoming st = (resp, st') ->
  status resp = 429 ->
  MATRIX_STORE st' = MATRIX_STORE st
  /\ exists rest, effects st' = effects st ++ rest
                  /\ Forall (fun e => ~ onStorage (getListKey slug) e) rest.
Proof.
  intros Hrun H429. put_exits Hrun; try discriminate H429.
  - split; [apply userGate_store|].
    unfold userGate. destruct (up_userId incoming) as [userId|].
    + destruct (negb (String.eqb userId "")).
      * destruct (checkUserRateLimits _ _ _ _ _) as [o s]; simpl.
        eexists [_]. split; [done|].
        constructor; [|constructor]. by intros [H | H].
      * exists []. by rewrite app_nil_r.
    + exists []. by rewrite app_nil_r.
  - split; [apply afterGates_store|].
    unfold afterGates, listGate.
    destruct (checkListRateLimits _ _ _ _) as [o s]; simpl.
    unfold userGate. destruct (up_userId incoming) as [userId|].
    + destruct (negb (String.eqb userId "")).
      * destruct (checkUserRateLimits _ _ _ _ _) as [o' s']; simpl.
        eexists [_; _]. rewrite <- app_assoc. split; [done|].
        constructor; [by intros [H | H]|].
        constructor; [by intros [H | H]|]. constructor.
      * eexists [_]. split; [done|].
        constructor; [by intros [H | H]|]. constructor.
    + eexists [_]. split; [done|].
      constructor; [by intros [H | H]|]. constructor.
  - update_exits Hexit; discriminate H429.
Qed.

Lemma quota_consumed_before_read_witness :
  status (onRequestPut host limited "backlog" bobSave Cases.saved).1 = 409
  /\ rateLimitStore Cases.saved !! ("user:" +:+ bob +:+ ":save:minute")
     = Some {| count := 1; resetAt := 61000 |}
  /\ rateLimitStore (onRequestPut host limited "backlog" bobSave Cases.saved).2
       !! ("user:" +:+ bob +:+ ":save:minute")
     = Some {| count := 2; resetAt := 61000 |}
  /\ exists s1 s2 rest,
       consumesUnit noon ("user:" +:+ bob +:+ ":save:minute") 2 (60 * 1000)
         (rateLimitStore Cases.saved) s1
       /\ consumesUnit noon ("user:" +:+ bob +:+ ":save:hour") 30
            (60 * 60 * 1000) s1 s2
       /\ consumesUnit noon ("list:" +:+ "backlog" +:+ ":save:minute") 10
            (60 * 1000) s2
            (rateLimitStore
               (onRequestPut host limited "backlog" bobSave Cases.saved).2)
       /\ effects (onRequestPut host limited "backlog" bobSave Cases.saved).2
          = effects Cases.saved
            ++ UserLimitsChecked bob :: ListLimitsChecked "backlog" :: rest
       /\ Forall (onStorage (getListKey "backlog")) rest.
Proof.
  split; [vm_compute; reflexivity|].
  split; [vm_compute; reflexivity|].
  split; [vm_compute; reflexivity|].
  apply (quota_consumed_before_read host limited "backlog" bobSave Cases.saved
           bob
           (onRequestPut host limited "backlog" bobSave Cases.saved).1
           (onRequestPut host limited "backlog" bobSave Cases.saved).2).
  - reflexivity.
  - vm_compute; reflexivity.
  - reflexivity.
  - vm_compute; reflexivity.
  - vm_compute; discriminate.
Defined.


Lemma validateList_items (incoming : UpdateListRequest) (maxItems : Z)
    (incs : list IncomingItem) :
  valid (validateList incoming maxItems) = true ->
  up_items incoming = Some incs ->
  Z.of_nat (length incs) <= maxItems.
Proof.
  unfold validateList. intros Hvalid Hitems. rewrite Hitems in Hvalid.
  by destruct (Z.ltb_spec maxItems (Z.of_nat (length incs))); [|lia].
Qed.

Lemma normalizeItem_stored_id (uuid : string) (e : GutItem) (sc : Scale)
    (maxItems : Z) :
  id e <> "" -> id (normalizeItem uuid (ofGutItem e) sc maxItems) = id e.
Proof.
  intros Hne. simpl. unfold Js.strOr.
  by destruct (String.eqb_spec (id e) "").
Qed.

(** The stored item an incoming item matches is a stored item with the
    incoming id. *)
Lemma matched_by_id (inc : IncomingItem) (existing : GutList) (e : GutItem) :
  Js.find (sameId inc) (items existing) = Some e ->
  e ∈ items existing /\ in_id inc = Some (id e).
Proof.
  intros Hfind. apply find_some in Hfind as [Hin Hsame].
  split; [done|]. unfold sameId in Hsame.
  destruct (in_id inc) as [i|]; [|done].
  by apply String.eqb_eq in Hsame as ->.
Qed.

Lemma rebuildItem_matched (h : Host) (existing : GutList) (sc : Scale)
    (maxItems : Z) (inc : IncomingItem) (i : nat) (e : GutItem) :
  Js.find (sameId inc) (items existing) = Some e ->
  scores (rebuildItem h existing sc maxItems inc i) = scores e
  /\ (id e <> "" -> id (rebuildItem h existing sc maxItems inc i) = id e).
Proof.
  intros Hfind. unfold rebuildItem. rewrite Hfind. split; [done|].
  apply normalizeItem_stored_id.
Qed.

Lemma mergeItem_id (inc : option IncomingItem) (userId : string) (sc : Scale)
    (item : GutItem) :
  id (mergeItem inc userId sc item) = id item.
Proof.
  unfold mergeItem. destruct inc as [inc|]; [|done].
  destruct (isUserItemUpdate inc); [|done].
  by destruct (in_label inc), (in_notes inc), (in_g inc), (in_u inc), (in_t inc).
Qed.

(** Merging the acting user's fields changes no other user's entry. *)
Lemma mergeItem_frame (inc : option IncomingItem) (userId : string) (sc : Scale)
    (item : GutItem) (other : string) :
  other <> userId ->
  scores (mergeItem inc userId sc item) !! other = scores item !! other.
Proof.
  intros Hne. unfold mergeItem. destruct inc as [inc|]; [|done].
  destruct (isUserItemUpdate inc); [|done].
  destruct (in_label inc), (in_notes inc), (in_g inc), (in_u inc), (in_t inc);
    simpl; try done; by rewrite lookup_insert_ne.
Qed.

(** A complete triple is stored normalized under the acting user. *)
Lemma mergeItem_upsert (inc : IncomingItem) (userId : string) (sc : Scale)
    (item : GutItem) (g u t : Z) :
  in_g inc = Some g -> in_u inc = Some u -> in_t inc = Some t ->
  scores (mergeItem (Some inc) userId sc item) !! userId
  = Some (normalizeUserScore
            {| pus_g := Some g; pus_u := Some u; pus_t := Some t;
               pus_score := Some (g * u * t) |} sc)
  /\ avgScore (mergeItem (Some inc) userId sc item)
     = calculateAverageScore (scores (mergeItem (Some inc) userId sc item)).
Proof.
  intros Hg Hu Ht. unfold mergeItem, isUserItemUpdate.
  rewrite Hg, Hu, Ht. simpl.
  destruct (in_label inc), (in_notes inc); simpl;
    (split; [by rewrite lookup_insert_eq | done]).
Qed.

(** The items of an update that carries a user identifier, by index. *)
Lemma updatedItems_user_lookup (h : Host) (existing : GutList)
    (incoming : UpdateListRequest) (sc : Scale) (maxItems : Z)
    (userId : string) (incs : list IncomingItem) (i : nat) :
  up_userId incoming = Some userId -> userId <> "" ->
  up_items incoming = Some incs ->
  Z.of_nat (length incs) <= maxItems ->
  updatedItems h existing incoming sc maxItems !! i
  = mergeItem (incs !! i) userId sc
      <$> (if decide (length incs = length (items existing))
           then (fun e => normalizeItem (randomUUID h 0 i) (ofGutItem e) sc maxItems)
                  <$> items existing !! i
           else (fun inc => rebuildItem h existing sc maxItems inc i)
                  <$> incs !! i).
Proof.
  intros Hu Hne Hitems Hlen. unfold updatedItems, truthy, mergeItems, rebuildItems.
  rewrite Hitems, Hu. simpl.
  destruct (String.eqb_spec userId "") as [|_]; [done|]. simpl.
  rewrite mapi_lookup.
  destruct (Nat.eqb_spec (length incs) (length (items existing))) as [Heq | Hneq];
    simpl.
  - rewrite decide_True by done. by rewrite mapi_lookup.
  - rewrite decide_False by done.
    by rewrite mapi_lookup, sliceTo_all.
Qed.

Lemma put_success (h : Host) (env : Env) (slug : string)
    (incoming : UpdateListRequest) (st : State) (updated : GutList) (st' : State) :
  onRequestPut h env slug incoming st = (JsonList updated, st') ->
  exists existing,
    MATRIX_STORE st !! getListKey slug = Some existing
    /\ updated = updatedList h env existing incoming
    /\ valid (validateList incoming (maxItemsOf env)) = true
    /\ identityAccepted incoming
    /\ MATRIX_STORE st' = <[getListKey slug := updated]> (MATRIX_STORE st).
Proof.
  intros Hrun. put_exits Hrun. update_exits Hexit.
  rewrite afterGates_store in Hget. exists ex.
  repeat split; try done. simpl. by rewrite afterGates_store.
Qed.

Lemma updatedList_scale_ordered (h : Host) (env : Env) (existing : GutList)
    (incoming : UpdateListRequest) :
  min (scale existing) < max (scale existing) ->
  min (scale (updatedList h env existing incoming))
  < max (scale (updatedList h env existing incoming)).
Proof.
  intros Hordered. unfold updatedList; simpl.
  destruct (up_scale incoming); [apply UtilsFacts.normalizeScale_ordered | done].
Qed.

(** C2. After a successful update from user [userB] that carries items,
    every entry of another user is what it was: when the incoming count
    equals the stored count, in every stored item, which stays at its
    index; when the counts differ, in the stored item that an incoming item
    matches by id, which moves to the index of that incoming item. Only the
    entry of [userB] can be added or overwritten. *)
Theorem other_users_scores_untouched (h : Host) (env : Env) (slug : string)
    (incoming : UpdateListRequest) (st : State) (updated : GutList)
    (st' : State) (existing : GutList) (userB : string)
    (incs : list IncomingItem) :
  onRequestPut h env slug incoming st = (JsonList updated, st') ->
  MATRIX_STORE st !! getListKey slug = Some existing ->
  up_userId incoming = Some userB ->
  up_items incoming = Some incs ->
  MATRIX_STORE st' !! getListKey slug = Some updated
  /\ forall userA, userA <> userB ->
       (length incs = length (items existing) ->
        forall i e, items existing !! i = Some e ->
          exists r, items updated !! i = Some r
                    /\ scores r !! userA = scores e !! userA
                    /\ (id e <> "" -> id r = id e))
       /\ (length incs <> length (items existing) ->
           forall j inc e,
             incs !! j = Some inc ->
             Js.find (sameId inc) (items existing) = Some e ->
             exists r, items updated !! j = Some r
                       /\ scores r !! userA = scores e !! userA
                       /\ (id e <> "" -> id r = id e)).
Proof.
  intros Hrun Hstored Hu Hitems.
  apply put_success in Hrun as (ex & Hget & -> & Hvalid & Hid & Hstore').
  rewrite Hstored in Hget. injection Hget as <-.
  split; [rewrite Hstore'; apply lookup_insert_eq|].
  intros userA Hne.
  pose proof (validateList_items _ _ _ Hvalid Hitems) as Hlen.
  pose proof (validateUserId_nonempty _ (Hid _ Hu)) as Hnonempty.
  assert (HuserB : userB <> "").
  { intros ->. discriminate Hnonempty. }
  set (sc := scale (updatedList h env existing incoming)).
  assert (Hupd : items (updatedList h env existing incoming)
                 = updatedItems h existing incoming sc (maxItemsOf env))
    by reflexivity.
  rewrite Hupd. split.
  - intros Heq i e He.
    rewrite (updatedItems_user_lookup _ _ _ _ _ userB incs) by done.
    rewrite decide_True by done. rewrite He.
    exists (mergeItem (incs !! i) userB sc
              (normalizeItem (randomUUID h 0 i) (ofGutItem e) sc (maxItemsOf env))).
    split; [reflexivity|]. split.
    + by rewrite mergeItem_frame.
    + intros Hide. rewrite mergeItem_id. by apply normalizeItem_stored_id.
  - intros Hneq j inc e Hj Hfind.
    rewrite (updatedItems_user_lookup _ _ _ _ _ userB incs) by done.
    rewrite decide_False by done. rewrite Hj.
    exists (mergeItem (Some inc) userB sc
              (rebuildItem h existing sc (maxItemsOf env) inc j)).
    split; [reflexivity|].
    destruct (rebuildItem_matched h existing sc (maxItemsOf env) inc j e Hfind)
      as [Hsc Hid'].
    split.
    + rewrite mergeItem_frame by done. by rewrite Hsc.
    + intros Hide. rewrite mergeItem_id. by apply Hid'.
Qed.

Lemma other_users_scores_untouched_witness :
  exists updated r,
    (onRequestPut host limited "backlog" bobSave serving).1 = JsonList updated
    /\ items updated !! 0%nat = Some r
    /\ scores r !! alice = scores itemA !! alice
    /\ scores itemA !! alice
       = Some {| us_g := 5; us_u := 4; us_t := 3; us_score := 60 |}.
Proof.
  assert (Hrun : onRequestPut host limited "backlog" bobSave serving
                 = (JsonList (updatedList host limited stored bobSave),
                    (onRequestPut host limited "backlog" bobSave serving).2))
    by (vm_compute; reflexivity).
  assert (Hstored : MATRIX_STORE serving !! getListKey "backlog" = Some stored)
    by (vm_compute; reflexivity).
  destruct (other_users_scores_untouched host limited "backlog" bobSave serving
              _ _ stored bob [scoring "a" 9 0 4; scoring "b" 2 2 2]
              Hrun Hstored eq_refl eq_refl) as [_ Hframe].
  assert (Hne : alice <> bob) by (vm_compute; discriminate).
  destruct (Hframe alice Hne) as [Hsame _].
  destruct (Hsame eq_refl 0%nat itemA eq_refl) as (r & Hr & Hscores & _).
  exists (updatedList host limited stored bobSave), r.
  split; [by rewrite Hrun|]. split; [exact Hr|]. split; [exact Hscores|].
  vm_compute; reflexivity.
Defined.

(** C4, as amended. In a successful update that carries a user
    identifier, every incoming item with a complete triple gives, at its
    index, an item whose entry for the acting user is the triple normalized
    by the server for the scale of the document it stores: its score is the
    product of its factors and each factor lies within that scale, provided
    the scale found in storage had [min < max]. Scores maps that arrive
    inside items are outside this statement. *)
Theorem merged_score_recomputed (h : Host) (env : Env) (slug : string)
    (incoming : UpdateListRequest) (st : State) (updated : GutList)
    (st' : State) (existing : GutList) (userId : string)
    (incs : list IncomingItem) (j : nat) (inc : IncomingItem) (g u t : Z) :
  onRequestPut h env slug incoming st = (JsonList updated, st') ->
  MATRIX_STORE st !! getListKey slug = Some existing ->
  min (scale existing) < max (scale existing) ->
  up_userId incoming = Some userId ->
  up_items incoming = Some incs ->
  incs !! j = Some inc ->
  in_g inc = Some g -> in_u inc = Some u -> in_t inc = Some t ->
  MATRIX_STORE st' !! getListKey slug = Some updated
  /\ exists r s,
       items updated !! j = Some r
       /\ scores r !! userId = Some s
       /\ s = normalizeUserScore
                {| pus_g := Some g; pus_u := Some u; pus_t := Some t;
                   pus_score := Some (g * u * t) |} (scale updated)
       /\ consistent (scale updated) s.
Proof.
  intros Hrun Hstored Hordered Hu Hitems Hj Hg Hu' Ht.
  apply put_success in Hrun as (ex & Hget & -> & Hvalid & Hid & Hstore').
  rewrite Hstored in Hget. injection Hget as <-.
  split; [rewrite Hstore'; apply lookup_insert_eq|].
  pose proof (validateList_items _ _ _ Hvalid Hitems) as Hlen.
  pose proof (validateUserId_nonempty _ (Hid _ Hu)) as Hnonempty.
  assert (HuserId : userId <> "").
  { intros ->. discriminate Hnonempty. }
  pose proof (updatedList_scale_ordered h env existing incoming Hordered) as Hsc.
  set (sc := scale (updatedList h env existing incoming)) in *.
  assert (Hupd : items (updatedList h env existing incoming)
                 = updatedItems h existing incoming sc (maxItemsOf env))
    by reflexivity.
  rewrite Hupd.
  rewrite (updatedItems_user_lookup _ _ _ _ _ userId incs) by done.
  rewrite Hj.
  assert (Hbase : exists base,
             (if decide (length incs = length (items existing))
              then (fun e => normalizeItem (randomUUID h 0 j) (ofGutItem e) sc
                               (maxItemsOf env)) <$> items existing !! j
              else (fun inc => rebuildItem h existing sc (maxItemsOf env) inc j)
                     <$> Some inc) = Some base).
  { case_decide as Heq.
    - destruct (lookup_lt_is_Some_2 (items existing) j) as [e He].
      { rewrite <- Heq. by eapply lookup_lt_Some. }
      rewrite He. by eexists.
    - by eexists. }
  destruct Hbase as [base ->].
  destruct (mergeItem_upsert inc userId sc base g u t Hg Hu' Ht) as [Hup _].
  eexists _, _. split; [reflexivity|]. split; [exact Hup|]. split; [reflexivity|].
  destruct (UtilsFacts.normalizeUserScore_consistent
              {| pus_g := Some g; pus_u := Some u; pus_t := Some t;
                 pus_score := Some (g * u * t) |} sc ltac:(lia))
    as (Hg' & Hu'' & Ht' & Hprod).
  done.
Qed.

Lemma merged_score_recomputed_witness :
  exists updated r,
    (onRequestPut host limited "backlog" bobSave serving).1 = JsonList updated
    /\ items updated !! 0%nat = Some r
    /\ scores r !! bob = Some {| us_g := 5; us_u := 1; us_t := 4; us_score := 20 |}.
Proof.
  assert (Hrun : onRequestPut host limited "backlog" bobSave serving
                 = (JsonList (updatedList host limited stored bobSave),
                    (onRequestPut host limited "backlog" bobSave serving).2))
    by (vm_compute; reflexivity).
  assert (Hstored : MATRIX_STORE serving !! getListKey "backlog" = Some stored)
    by (vm_compute; reflexivity).
  assert (Hordered : min (scale stored) < max (scale stored))
    by (vm_compute; reflexivity).
  destruct (merged_score_recomputed host limited "backlog" bobSave serving
              _ _ stored bob [scoring "a" 9 0 4; scoring "b" 2 2 2]
              0%nat (scoring "a" 9 0 4) 9 0 4
              Hrun Hstored Hordered eq_refl eq_refl eq_refl eq_refl eq_refl eq_refl)
    as (_ & r & s & Hr & Hs & Hnorm & _).
  exists (updatedList host limited stored bobSave), r.
  split; [by rewrite Hrun|]. split; [exact Hr|].
  rewrite Hs, Hnorm. vm_compute; reflexivity.
Defined.

(** C4 fails as stated: a full replacement without a user identifier
    stores the scores map an item arrives with as it is; the stored entry
    has a score that is not the product of its factors, and factors above
    the scale. *)
Lemma replacement_stores_client_scores :
  exists updated st' r s,
    onRequestPut host limited "backlog" replacement serving = (JsonList updated, st')
    /\ MATRIX_STORE st' !! getListKey "backlog" = Some updated
    /\ items updated !! 0%nat = Some r
    /\ scores r !! alice = Some s
    /\ s = {| us_g := 9; us_u := 9; us_t := 9; us_score := 1 |}
    /\ scale updated = {| min := 1; max := 5 |}
    /\ us_score s <> us_g s * us_u s * us_t s
    /\ ~ us_g s <= max (scale updated).
Proof.
  eexists _, _, _, _.
  split; [vm_compute; reflexivity|].
  split; [vm_compute; reflexivity|].
  split; [vm_compute; reflexivity|].
  split; [vm_compute; reflexivity|].
  split; [reflexivity|].
  split; [vm_compute; reflexivity|].
  split; [vm_compute; discriminate | simpl; lia].
Qed.

(** C5, at the failing input: Bob's update names one item, "c", that is
    not stored, while two items are stored; the counts differ, so the items
    are rebuilt from the incoming array. The stored items are dropped and
    "c" is added, but with the scores map it arrived with, which holds an
    entry under Alice's identifier, and not with an empty one. *)
Lemma new_item_keeps_incoming_scores :
  exists updated st' r,
    onRequestPut host limited "backlog" structuralSave serving
    = (JsonList updated, st')
    /\ length (items stored) = 2%nat
    /\ Js.find (sameId itemWithScores) (items stored) = None
    /\ items updated = [r]
    /\ id r = "c"
    /\ scores r !! alice
       = Some {| us_g := 9; us_u := 9; us_t := 9; us_score := 1 |}
    /\ scores r <> ∅.
Proof.
  eexists _, _, _.
  split; [vm_compute; reflexivity|].
  split; [reflexivity|].
  split; [vm_compute; reflexivity|].
  split; [vm_compute; reflexivity|].
  split; [vm_compute; reflexivity|].
  split; [vm_compute; reflexivity|].
  intros Hempty.
  apply (f_equal (fun m : gmap string UserScore => m !! alice)) in Hempty.
  vm_compute in Hempty. discriminate Hempty.
Qed.

(** C6, at the failing input: Bob sends the two stored items in the other
    order, with a complete triple for the item "b" only. The counts are
    equal, so his triple is merged by index: it lands on the stored item
    "a", and the item "b" gets no entry of his. *)
Lemma score_lands_on_index_not_id :
  exists updated st' a b,
    onRequestPut host limited "backlog" swappedSave serving
    = (JsonList updated, st')
    /\ up_items swappedSave = Some [scoring "b" 4 4 4; naming "a"]
    /\ items updated = [a; b]
    /\ id a = "a"
    /\ scores a !! bob = Some {| us_g := 4; us_u := 4; us_t := 4; us_score := 64 |}
    /\ id b = "b"
    /\ scores b !! bob = None.
Proof.
  eexists _, _, _, _.
  split; [vm_compute; reflexivity|].
  split; [reflexivity|].
  split; [vm_compute; reflexivity|].
  repeat split; vm_compute; reflexivity.
Qed.

Lemma mergeItem_text (inc : IncomingItem) (userId : string) (sc : Scale)
    (item : GutItem) :
  label (mergeItem (Some inc) userId sc item)
  = (if isUserItemUpdate inc then default (label item) (in_label inc)
     else label item)
  /\ notes (mergeItem (Some inc) userId sc item)
     = (if isUserItemUpdate inc
        then match in_notes inc with Some n => Some n | None => notes item end
        else notes item).
Proof.
  unfold mergeItem. destruct (isUserItemUpdate inc); [|done].
  by destruct (in_label inc), (in_notes inc), (in_g inc), (in_u inc), (in_t inc).
Qed.

Lemma length_updatedItems_user (h : Host) (existing : GutList)
    (incoming : UpdateListRequest) (sc : Scale) (maxItems : Z)
    (userId : string) (incs : list IncomingItem) :
  up_userId incoming = Some userId -> userId <> "" ->
  up_items incoming = Some incs ->
  Z.of_nat (length incs) <= maxItems ->
  length (updatedItems h existing incoming sc maxItems) = length incs.
Proof.
  intros Hu Hne Hitems Hlen. unfold updatedItems, truthy, mergeItems, rebuildItems.
  rewrite Hitems, Hu. simpl.
  destruct (String.eqb_spec userId "") as [|_]; [done|]. simpl.
  rewrite length_mapi.
  destruct (Nat.eqb_spec (length incs) (length (items existing))) as [Heq | Hneq];
    simpl; rewrite length_mapi; [done|]. by rewrite sliceTo_all.
Qed.

(** What holds of the reconciliation by id: after a successful update that
    carries a user identifier and whose incoming count differs from the
    stored count, the stored items are one per incoming item, in the
    incoming order; an incoming item that matches a stored one by id gives
    that item with its scores map (but for the acting user's entry), the
    incoming label and notes when supplied and the stored ones otherwise; an
    incoming item that matches none gives an item with the scores map it
    arrived with, empty when it arrived with none; a stored item that no
    incoming item matches has no place in the result. *)
Lemma structural_change_reconciles_by_id (h : Host) (env : Env) (slug : string)
    (incoming : UpdateListRequest) (st : State) (updated : GutList)
    (st' : State) (existing : GutList) (userId : string)
    (incs : list IncomingItem) :
  onRequestPut h env slug incoming st = (JsonList updated, st') ->
  MATRIX_STORE st !! getListKey slug = Some existing ->
  up_userId incoming = Some userId ->
  up_items incoming = Some incs ->
  length incs <> length (items existing) ->
  length (items updated) = length incs
  /\ forall j inc, incs !! j = Some inc ->
       exists r, items updated !! j = Some r /\ reconciled existing userId inc r.
Proof.
  intros Hrun Hstored Hu Hitems Hneq.
  apply put_success in Hrun as (ex & Hget & -> & Hvalid & Hid & Hstore').
  rewrite Hstored in Hget. injection Hget as <-.
  pose proof (validateList_items _ _ _ Hvalid Hitems) as Hlen.
  pose proof (validateUserId_nonempty _ (Hid _ Hu)) as Hnonempty.
  assert (HuserId : userId <> "").
  { intros ->. discriminate Hnonempty. }
  set (sc := scale (updatedList h env existing incoming)).
  assert (Hupd : items (updatedList h env existing incoming)
                 = updatedItems h existing incoming sc (maxItemsOf env))
    by reflexivity.
  rewrite Hupd. split; [by eapply length_updatedItems_user|].
  intros j inc Hj.
  rewrite (updatedItems_user_lookup _ _ _ _ _ userId incs) by done.
  rewrite decide_False by done. rewrite Hj.
  exists (mergeItem (Some inc) userId sc
            (rebuildItem h existing sc (maxItemsOf env) inc j)).
  split; [reflexivity|]. unfold reconciled.
  destruct (mergeItem_text inc userId sc
              (rebuildItem h existing sc (maxItemsOf env) inc j)) as [Hlabel Hnotes].
  destruct (Js.find (sameId inc) (items existing)) as [e|] eqn:Hfind.
  - destruct (rebuildItem_matched h existing sc (maxItemsOf env) inc j e Hfind)
      as [Hsc Hid'].
    split; [|split; [|split]].
    + intros k Hk. rewrite mergeItem_frame by done. by rewrite Hsc.
    + rewrite Hlabel. unfold rebuildItem, adoptedLabel. rewrite Hfind. simpl.
      destruct (isUserItemUpdate inc), (in_label inc); done.
    + rewrite Hnotes. unfold rebuildItem, adoptedNotes. rewrite Hfind. simpl.
      destruct (isUserItemUpdate inc), (in_notes inc); done.
    + intros Hide. rewrite mergeItem_id. by apply Hid'.
  - intros k Hk. rewrite mergeItem_frame by done.
    unfold rebuildItem. rewrite Hfind. simpl. by destruct (in_scores inc).
Qed.


End ApiFacts.

(** * Further properties *)

(** ** Strings *)

Module StringFacts.
Import Laws.

Lemma list_of_slice0 (n : nat) (s : string) :
  list_ascii_of_string (Js.slice0 n s) = take n (list_ascii_of_string s).
Proof.
  unfold Js.slice0. revert n. induction s as [|c s IH]; intros [|n]; simpl; try done.
  by rewrite IH.
Qed.

Lemma length_list_of_string (s : string) :
  length (list_ascii_of_string s) = String.length s.
Proof. induction s as [|c s IH]; simpl; [done | by rewrite IH]. Qed.

Lemma string_of_list_inj (l1 l2 : list ascii) :
  string_of_list_ascii l1 = string_of_list_ascii l2 -> l1 = l2.
Proof.
  intros H. apply (f_equal list_ascii_of_string) in H.
  by rewrite !list_ascii_of_string_of_list_ascii in H.
Qed.

Lemma list_of_string_inj (s1 s2 : string) :
  list_ascii_of_string s1 = list_ascii_of_string s2 -> s1 = s2.
Proof.
  intros H. apply (f_equal string_of_list_ascii) in H.
  by rewrite !string_of_list_ascii_of_string in H.
Qed.

Lemma list_of_append (s1 s2 : string) :
  list_ascii_of_string (s1 +:+ s2)
  = list_ascii_of_string s1 ++ list_ascii_of_string s2.
Proof. induction s1 as [|c s1 IH]; simpl; [done | by rewrite IH]. Qed.

Lemma length_slice0 (n : nat) (s : string) :
  (String.length (Js.slice0 n s) <= n)%nat
  /\ (String.length (Js.slice0 n s) <= String.length s)%nat.
Proof.
  rewrite <- !length_list_of_string, list_of_slice0, length_take. lia.
Qed.

Lemma slice0_short (n : nat) (s : string) :
  (String.length s <= n)%nat -> Js.slice0 n s = s.
Proof.
  intros Hn. apply list_of_string_inj. rewrite list_of_slice0.
  apply take_ge. by rewrite length_list_of_string.
Qed.

(** *** Trimming *)

Lemma list_of_trim (s : string) :
  list_ascii_of_string (Js.trim s) = trimList (list_ascii_of_string s).
Proof. unfold Js.trim, trimList. by rewrite list_ascii_of_string_of_list_ascii. Qed.

Lemma trimStartList_suffix (l : list ascii) : Js.trimStartList l `suffix_of` l.
Proof.
  induction l as [|c l IH]; simpl; [done|].
  destruct (Js.isWhiteSpace c); [by apply suffix_cons_r | done].
Qed.

Lemma trimStartList_head (l : list ascii) (c : ascii) :
  head (Js.trimStartList l) = Some c -> Js.isWhiteSpace c = false.
Proof.
  induction l as [|d l IH]; simpl; [done|].
  destruct (Js.isWhiteSpace d) eqn:Hd; [done|]. simpl. by intros [= <-].
Qed.

Lemma trimStartList_fixed (l : list ascii) :
  (forall c, head l = Some c -> Js.isWhiteSpace c = false) ->
  Js.trimStartList l = l.
Proof.
  destruct l as [|d l]; simpl; [done|]. intros H. by rewrite (H d eq_refl).
Qed.

Lemma head_rev {A} (l : list A) : head (rev l) = last l.
Proof.
  induction l as [|x l IH]; simpl; [done|].
  rewrite last_cons, <- IH. destruct (rev l); done.
Qed.

Lemma last_rev {A} (l : list A) : last (rev l) = head l.
Proof. by rewrite <- head_rev, rev_involutive. Qed.

Lemma trimList_prefix (l : list ascii) :
  trimList l `prefix_of` Js.trimStartList l.
Proof.
  unfold trimList.
  destruct (trimStartList_suffix (rev (Js.trimStartList l))) as [k Hk].
  exists (rev k). apply (f_equal (@rev ascii)) in Hk.
  rewrite rev_involutive, rev_app_distr in Hk. done.
Qed.

Lemma trimList_trimmed (l : list ascii) : trimmed (trimList l).
Proof.
  split.
  - intros c Hc. destruct (trimList_prefix l) as [k Hk].
    apply (trimStartList_head l). rewrite Hk.
    destruct (trimList l); [done | exact Hc].
  - intros c Hc. unfold trimList in Hc. rewrite last_rev in Hc.
    by eapply trimStartList_head.
Qed.

Lemma trimList_fixed (l : list ascii) : trimmed l -> trimList l = l.
Proof.
  intros [Hh Hl]. unfold trimList.
  rewrite (trimStartList_fixed l Hh).
  rewrite trimStartList_fixed; [apply rev_involutive|].
  intros c. rewrite head_rev. apply Hl.
Qed.

Lemma length_trimList (l : list ascii) : (length (trimList l) <= length l)%nat.
Proof.
  unfold trimList. rewrite length_rev.
  etrans; [apply suffix_length, trimStartList_suffix|].
  rewrite length_rev. apply suffix_length, trimStartList_suffix.
Qed.

Lemma length_trim (s : string) :
  (String.length (Js.trim s) <= String.length s)%nat.
Proof.
  rewrite <- !length_list_of_string, list_of_trim. apply length_trimList.
Qed.

Lemma trim_trimmed (s : string) : trimmed (list_ascii_of_string (Js.trim s)).
Proof. rewrite list_of_trim. apply trimList_trimmed. Qed.

Lemma trim_fixed (s : string) :
  trimmed (list_ascii_of_string s) -> Js.trim s = s.
Proof.
  intros H. apply list_of_string_inj. rewrite list_of_trim. by apply trimList_fixed.
Qed.

End StringFacts.

(** ** Items and scales *)

Module ItemFacts.
Import Utils Validate RateLimit Api Spec Laws StringFacts.

Lemma tidy_trim_slice (n : nat) (s : string) : tidy n (Js.trim (Js.slice0 n s)).
Proof.
  split; [|apply trim_trimmed].
  etrans; [apply length_trim|]. apply length_slice0.
Qed.

Lemma tidy_fixed (n : nat) (s : string) :
  tidy n s -> Js.trim (Js.slice0 n s) = s.
Proof. intros [Hlen Htrim]. rewrite slice0_short by done. by apply trim_fixed. Qed.

Lemma strOr_nonempty (s d : string) : d <> "" -> Js.strOr s d <> "".
Proof. unfold Js.strOr. by destruct (String.eqb_spec s ""). Qed.

Lemma normalizeItem_id_nonempty (uuid : string) (item : IncomingItem)
    (sc : Scale) (maxItems : Z) :
  uuid <> "" -> id (normalizeItem uuid item sc maxItems) <> "".
Proof.
  intros Hu. simpl. unfold Js.optStrOr. destruct (in_id item); [|done].
  by apply strOr_nonempty.
Qed.

Lemma normalizeItem_label_tidy (uuid : string) (item : IncomingItem)
    (sc : Scale) (maxItems : Z) :
  label (normalizeItem uuid item sc maxItems) <> ""
  /\ tidy 200 (label (normalizeItem uuid item sc maxItems)).
Proof.
  simpl. split; [by apply strOr_nonempty|].
  unfold Js.strOr.
  match goal with
  | |- context [String.eqb ?s ""] => destruct (String.eqb_spec s "")
  end.
  - split; [simpl; lia|]. split; intros c; vm_compute; by intros [= <-].
  - apply tidy_trim_slice.
Qed.

Lemma normalizeItem_notes_tidy (uuid : string) (item : IncomingItem)
    (sc : Scale) (maxItems : Z) (n : string) :
  notes (normalizeItem uuid item sc maxItems) = Some n -> tidy 1024 n.
Proof.
  simpl. destruct (in_notes item) as [m|]; [|done].
  destruct (String.eqb m ""); [done|]. intros [= <-]. apply tidy_trim_slice.
Qed.

(** X1. What [normalizeItem] makes of any item: the id is not empty as long as
    the platform's UUID is not, the label is not empty, has at most 200
    characters and no white space at either end, the notes have at most
    1024 characters and no white space at either end, and the scores map
    and the average are the ones that came in. *)
Theorem normalizeItem_shape (uuid : string) (item : IncomingItem) (sc : Scale)
    (maxItems : Z) :
  (uuid <> "" -> id (normalizeItem uuid item sc maxItems) <> "")
  /\ label (normalizeItem uuid item sc maxItems) <> ""
  /\ tidy 200 (label (normalizeItem uuid item sc maxItems))
  /\ (forall n, notes (normalizeItem uuid item sc maxItems) = Some n -> tidy 1024 n)
  /\ scores (normalizeItem uuid item sc maxItems) = default ∅ (in_scores item)
  /\ avgScore (normalizeItem uuid item sc maxItems) = in_avgScore item.
Proof.
  split; [apply normalizeItem_id_nonempty|].
  split; [apply normalizeItem_label_tidy|].
  split; [apply normalizeItem_label_tidy|].
  split; [apply normalizeItem_notes_tidy|].
  split; [by simpl; destruct (in_scores item) | done].
Qed.

Lemma normalizeItem_settled (uuid : string) (e : GutItem) (sc : Scale)
    (maxItems : Z) :
  id e <> "" -> label e <> "" -> tidy 200 (label e) ->
  (forall n, notes e = Some n -> tidy 1024 n) ->
  normalizeItem uuid (ofGutItem e) sc maxItems
  = withNotes e (settledNotes (notes e)).
Proof.
  intros Hid Hlabel Htidy Hnotes.
  unfold normalizeItem, withNotes, ofGutItem; simpl. f_equal.
  - unfold Js.strOr. by destruct (String.eqb_spec (id e) "").
  - assert (Hl : Js.strOr (label e) "" = label e).
    { unfold Js.strOr. by destruct (String.eqb_spec (label e) ""). }
    rewrite Hl, (tidy_fixed 200 (label e)) by done.
    unfold Js.strOr. by destruct (String.eqb_spec (label e) "").
  - unfold settledNotes. destruct (notes e) as [n|] eqn:Hn; [|done].
    destruct (String.eqb_spec n ""); [done|].
    by rewrite (tidy_fixed 1024 n) by (by apply Hnotes).
Qed.

(** X2. Normalizing a normalized item again, as every update does with the
    stored items, changes nothing but notes of white space only, which the
    first pass stores as the empty text and the second drops. *)
Theorem normalizeItem_again (uuid uuid' : string) (item : IncomingItem)
    (sc sc' : Scale) (maxItems maxItems' : Z) :
  uuid <> "" ->
  normalizeItem uuid' (ofGutItem (normalizeItem uuid item sc maxItems)) sc' maxItems'
  = withNotes (normalizeItem uuid item sc maxItems)
      (settledNotes (notes (normalizeItem uuid item sc maxItems))).
Proof.
  intros Hu. apply normalizeItem_settled.
  - by apply normalizeItem_id_nonempty.
  - apply normalizeItem_label_tidy.
  - apply normalizeItem_label_tidy.
  - apply normalizeItem_notes_tidy.
Qed.

(** X3. The title [sanitizeTitle] returns has at most 200 characters and does
    not start with white space; a title that is already within 200
    characters and free of white space at both ends comes back as it is,
    and a missing title gives the empty one. (The cut to 200 characters is
    made after the trimming, so the result may end with white space.) *)
Theorem sanitizeTitle_bounds (title : option string) :
  (String.length (sanitizeTitle title) <= 200)%nat
  /\ (forall c, head (list_ascii_of_string (sanitizeTitle title)) = Some c ->
                Js.isWhiteSpace c = false)
  /\ (forall s, title = Some s -> tidy 200 s -> sanitizeTitle title = s)
  /\ (title = None -> sanitizeTitle title = "").
Proof.
  split; [|split; [|split]].
  - destruct title as [t|]; simpl; [apply length_slice0 | lia].
  - intros c. destruct title as [t|]; simpl; [|done].
    rewrite list_of_slice0, list_of_trim.
    destruct (trimList_trimmed (list_ascii_of_string t)) as [Hh _].
    destruct (trimList (list_ascii_of_string t)) as [|d l]; [done|].
    simpl. intros [= <-]. by apply Hh.
  - intros s -> [Hlen Htrim]. simpl. rewrite trim_fixed by done.
    by apply slice0_short.
  - by intros ->.
Qed.

Lemma normalizeScale_bounds (s : option PartialScale) (envMin envMax : Z) :
  1 <= min (normalizeScale s envMin envMax)
       < max (normalizeScale s envMin envMax).
Proof.
  unfold normalizeScale, clamp.
  match goal with |- context [?a >=? ?b] => destruct (Z.geb_spec a b) end;
    simpl; lia.
Qed.

(** X4. The scale [normalizeScale] returns always has [1 <= min < max] and
    [2 <= max]; it is the default 1..5 or lies within [max 1 envMin] and
    [max 2 envMax]; and as long as [envMin] is at most 1, as by default, the
    lower bound is 1 whatever was asked for. *)
Theorem normalizeScale_range (s : option PartialScale) (envMin envMax : Z) :
  1 <= min (normalizeScale s envMin envMax)
  /\ min (normalizeScale s envMin envMax) < max (normalizeScale s envMin envMax)
  /\ 2 <= max (normalizeScale s envMin envMax)
  /\ (normalizeScale s envMin envMax = {| min := 1; max := 5 |}
      \/ (min (normalizeScale s envMin envMax) <= Z.max 1 envMin
          /\ max (normalizeScale s envMin envMax) <= Z.max 2 envMax))
  /\ (envMin <= 1 -> min (normalizeScale s envMin envMax) = 1).
Proof.
  unfold normalizeScale, clamp.
  match goal with |- context [?a >=? ?b] => destruct (Z.geb_spec a b) end;
    simpl; repeat split; try lia; try (by left); right; lia.
Qed.

Lemma normalizeScale_in_range (mn mx envMin envMax : Z) :
  1 <= mn < mx -> mn <= envMin -> 2 <= mx <= envMax ->
  normalizeScale (Some {| ps_min := Some mn; ps_max := Some mx |}) envMin envMax
  = {| min := mn; max := mx |}.
Proof.
  intros Hmn Hmin Hmx. unfold normalizeScale, clamp.
  match goal with |- context [?a >=? ?b] => destruct (Z.geb_spec a b) end;
    [lia|]. f_equal; lia.
Qed.

(** X5. Sending a scale that [normalizeScale] returned back through
    [normalizeScale], as the client does on every save, returns it
    unchanged, provided the configured upper bound admits the default
    scale ([5 <= envMax]). *)
Theorem normalizeScale_stable (s : option PartialScale) (envMin envMax : Z) :
  5 <= envMax ->
  normalizeScale (Some (asPartialScale (normalizeScale s envMin envMax)))
    envMin envMax
  = normalizeScale s envMin envMax.
Proof.
  intros Henv. unfold asPartialScale.
  set (r := normalizeScale s envMin envMax).
  assert (Hr : r = normalizeScale s envMin envMax) by done.
  unfold normalizeScale, clamp in Hr.
  match type of Hr with context [?a >=? ?b] => destruct (Z.geb_spec a b) end;
    rewrite Hr; unfold normalizeScale, clamp; simpl;
    match goal with |- context [?a >=? ?b] => destruct (Z.geb_spec a b) end;
    try lia; f_equal; lia.
Qed.

Lemma normalizeItem_again_witness :
  "6f1c2a9e" <> ""
  /\ normalizeItem "0b7d4c11" (ofGutItem (normalizeItem "6f1c2a9e" Cases.padded
                                            Samples.oneToFive 500))
       Samples.oneToFive 500
     = withNotes (normalizeItem "6f1c2a9e" Cases.padded Samples.oneToFive 500)
         (settledNotes
            (notes (normalizeItem "6f1c2a9e" Cases.padded Samples.oneToFive 500))).
Proof.
  assert (H : "6f1c2a9e" <> "") by discriminate.
  split; [exact H|].
  exact (normalizeItem_again "6f1c2a9e" "0b7d4c11" Cases.padded
           Samples.oneToFive Samples.oneToFive 500 500 H).
Defined.

Lemma normalizeScale_stable_witness :
  5 <= 5
  /\ normalizeScale (Some (asPartialScale (normalizeScale Cases.wide 1 5))) 1 5
     = normalizeScale Cases.wide 1 5.
Proof.
  assert (H : 5 <= 5) by lia.
  split; [exact H|]. exact (normalizeScale_stable Cases.wide 1 5 H).
Defined.

End ItemFacts.

(** ** Identifiers, keys and slugs *)

Module KeyFacts.
Import Utils Validate RateLimit Api Spec Laws StringFacts.

Lemma hexRun_Some (n : nat) (l r : list ascii) :
  hexRun n l = Some r
  <-> exists p, l = p ++ r /\ length p = n /\ allHex p.
Proof.
  revert l. induction n as [|n IH]; intros l; simpl.
  - split.
    + intros [= ->]. exists []. repeat split. constructor.
    + intros (p & -> & Hlen & _). by destruct p.
  - destruct l as [|c l].
    + split; [done|]. intros (p & Hp & Hlen & _). by destruct p.
    + destruct (isHexDigit c) eqn:Hc.
      * rewrite IH. split.
        -- intros (p & -> & Hlen & Hhex). exists (c :: p).
           split; [done|]. split; [simpl; by rewrite Hlen | by constructor].
        -- intros (p & Hp & Hlen & Hhex). destruct p as [|c' p]; [done|].
           injection Hp as <- ->. inversion Hhex; subst.
           exists p. split; [done|]. split; [by injection Hlen | done].
      * split; [done|]. intros (p & Hp & Hlen & Hhex).
        destruct p as [|c' p]; [done|]. injection Hp as <- ->.
        inversion Hhex; subst. congruence.
Qed.

Lemma dash_code (c : ascii) : (nat_of_ascii c =? 45)%nat = true <-> c = "-"%char.
Proof.
  rewrite Nat.eqb_eq. split; [|by intros ->].
  intros H. rewrite <- (ascii_nat_embedding c), H. done.
Qed.

Lemma hexRun_dash (n : nat) (l : list ascii) (P : list ascii -> Prop) :
  (match hexRun n l with
   | Some (c :: l') => (nat_of_ascii c =? 45)%nat = true /\ P l'
   | _ => False
   end)
  <-> exists p l', l = p ++ "-"%char :: l' /\ length p = n /\ allHex p /\ P l'.
Proof.
  destruct (hexRun n l) as [[|c l']|] eqn:Hrun.
  - split; [done|]. intros (p & l' & Hl & Hlen & Hhex & _).
    assert (Hrun' : hexRun n l = Some ("-"%char :: l'))
      by (apply hexRun_Some; by exists p).
    congruence.
  - apply hexRun_Some in Hrun as (p & -> & Hlen & Hhex). split.
    + intros [Hc HP]. apply dash_code in Hc as ->. by exists p, l'.
    + intros (p' & l'' & Hl & Hlen' & Hhex' & HP).
      assert (Hrun' : hexRun n (p ++ c :: l') = Some ("-"%char :: l''))
        by (apply hexRun_Some; by exists p').
      assert (Hrun'' : hexRun n (p ++ c :: l') = Some (c :: l'))
        by (apply hexRun_Some; by exists p).
      rewrite Hrun' in Hrun''. injection Hrun'' as <- <-.
      split; [by apply dash_code | done].
  - split; [done|]. intros (p & l' & Hl & Hlen & Hhex & _).
    assert (Hrun' : hexRun n l = Some ("-"%char :: l'))
      by (apply hexRun_Some; by exists p).
    congruence.
Qed.

Lemma hexGroups_cons (n m : nat) (rest : list nat) (l : list ascii) :
  hexGroups (n :: m :: rest) l = true
  <-> exists p l', l = p ++ "-"%char :: l' /\ length p = n /\ allHex p
                   /\ hexGroups (m :: rest) l' = true.
Proof.
  rewrite <- (hexRun_dash n l (fun l' => hexGroups (m :: rest) l' = true)).
  change (hexGroups (n :: m :: rest) l)
    with (match hexRun n l with
          | Some (c :: l') => (nat_of_ascii c =? 45)%nat && hexGroups (m :: rest) l'
          | _ => false
          end).
  destruct (hexRun n l) as [[|c l']|]; [done| |done].
  by rewrite andb_true_iff.
Qed.

Lemma hexGroups_last (n : nat) (l : list ascii) :
  hexGroups [n] l = true <-> length l = n /\ allHex l.
Proof.
  simpl. destruct (hexRun n l) as [[|c r]|] eqn:Hrun.
  - apply hexRun_Some in Hrun as (p & -> & Hlen & Hhex).
    rewrite app_nil_r. by split.
  - split; [done|]. intros [Hlen Hhex].
    assert (Hrun' : hexRun n l = Some []).
    { apply hexRun_Some. exists l. by rewrite app_nil_r. }
    congruence.
  - split; [done|]. intros [Hlen Hhex].
    assert (Hrun' : hexRun n l = Some []).
    { apply hexRun_Some. exists l. by rewrite app_nil_r. }
    congruence.
Qed.

(** X6. [validateUserId] accepts exactly the texts made of five groups of 8,
    4, 4, 4 and 12 hexadecimal digits (of either case) joined by dashes:
    nothing may precede or follow them, so an accepted identifier has 36
    characters and is never empty. *)
Theorem validateUserId_iff (userId : string) :
  (validateUserId userId = true <-> uuidShaped (list_ascii_of_string userId))
  /\ (validateUserId userId = true -> String.length userId = 36%nat).
Proof.
  assert (Hiff : validateUserId userId = true
                 <-> uuidShaped (list_ascii_of_string userId)).
  { unfold validateUserId, uuidShaped. split.
    - intros H.
      apply hexGroups_cons in H as (a & l1 & -> & Ha & Hha & H).
      apply hexGroups_cons in H as (b & l2 & -> & Hb & Hhb & H).
      apply hexGroups_cons in H as (c & l3 & -> & Hc & Hhc & H).
      apply hexGroups_cons in H as (d & l4 & -> & Hd & Hhd & H).
      apply hexGroups_last in H as [He Hhe].
      by exists a, b, c, d, l4.
    - intros (a & b & c & d & e & -> & Ha & Hb & Hc & Hd & He
              & Hha & Hhb & Hhc & Hhd & Hhe).
      apply hexGroups_cons. exists a, (b ++ "-"%char :: c ++ "-"%char :: d ++ "-"%char :: e).
      repeat split; try done.
      apply hexGroups_cons. exists b, (c ++ "-"%char :: d ++ "-"%char :: e).
      repeat split; try done.
      apply hexGroups_cons. exists c, (d ++ "-"%char :: e).
      repeat split; try done.
      apply hexGroups_cons. exists d, e.
      repeat split; try done.
      by apply hexGroups_last. }
  split; [exact Hiff|].
  intros H. apply Hiff in H
    as (a & b & c & d & e & Hl & Ha & Hb & Hc & Hd & He & _).
  rewrite <- length_list_of_string, Hl.
  rewrite !length_app; simpl. rewrite !length_app; simpl.
  rewrite !length_app; simpl. rewrite !length_app; simpl. lia.
Qed.

Lemma dashRuns_urlSafe (inRun : bool) (l : list ascii) :
  Forall urlSafe (dashRuns inRun l).
Proof.
  revert inRun. induction l as [|c l IH]; intros inRun; simpl; [constructor|].
  destruct (isSlugChar c) eqn:Hc.
  - constructor; [by left | apply IH].
  - destruct inRun; [apply IH|]. constructor; [by right | apply IH].
Qed.

Lemma dropDashes_suffix (l : list ascii) : dropDashes l `suffix_of` l.
Proof.
  induction l as [|c l IH]; simpl; [done|].
  destruct (nat_of_ascii c =? 45)%nat; [by apply suffix_cons_r | done].
Qed.

Lemma dropDashes_head (l : list ascii) :
  head (dropDashes l) <> Some "-"%char.
Proof.
  induction l as [|c l IH]; simpl; [done|].
  destruct (nat_of_ascii c =? 45)%nat eqn:Hc; [done|]. simpl.
  intros [= ->]. discriminate Hc.
Qed.

Lemma Forall_suffix {A} (P : A -> Prop) (l k : list A) :
  l `suffix_of` k -> Forall P k -> Forall P l.
Proof. intros [p ->] H. by apply Forall_app in H as [_ H]. Qed.

(** The characters [generateSlug] keeps of the title, before the cut to 50:
    a prefix of the title's dashed form without its leading dashes. *)
Lemma stripped_prefix (dashed : list ascii) :
  rev (dropDashes (rev (dropDashes dashed))) `prefix_of` dropDashes dashed.
Proof.
  destruct (dropDashes_suffix (rev (dropDashes dashed))) as [k Hk].
  exists (rev k). apply (f_equal (@rev ascii)) in Hk.
  by rewrite rev_involutive, rev_app_distr in Hk.
Qed.

(** X7. The slug [generateSlug] returns is the random suffix alone, or a
    non-empty base of at most 50 characters followed by a dash and the
    suffix; the base is made of lower-case letters, digits and dashes only
    and does not start with a dash. An empty title gives the suffix alone. *)
Theorem generateSlug_shape (suffix title : string) :
  (generateSlug suffix title = suffix
   \/ exists base,
        generateSlug suffix title = base +:+ "-" +:+ suffix
        /\ base <> ""
        /\ (String.length base <= 50)%nat
        /\ Forall urlSafe (list_ascii_of_string base)
        /\ head (list_ascii_of_string base) <> Some "-"%char)
  /\ (title = "" -> generateSlug suffix title = suffix).
Proof.
  unfold generateSlug. split.
  - destruct (String.eqb title ""); [by left|].
    set (dashed := dashRuns false (map toLower (list_ascii_of_string (Js.trim title)))).
    set (stripped := rev (dropDashes (rev (dropDashes dashed)))).
    set (base := Js.slice0 50 (string_of_list_ascii stripped)).
    destruct (String.eqb_spec base ""); [by left|]. right.
    exists base. split; [done|]. split; [done|].
    split; [apply length_slice0|].
    assert (Hbase : list_ascii_of_string base = take 50 stripped).
    { unfold base. by rewrite list_of_slice0, list_ascii_of_string_of_list_ascii. }
    rewrite Hbase.
    destruct (stripped_prefix dashed) as [k Hk]. fold stripped in Hk.
    split.
    + apply Forall_take.
      assert (Hall : Forall urlSafe (dropDashes dashed)).
      { eapply Forall_suffix; [apply dropDashes_suffix | apply dashRuns_urlSafe]. }
      rewrite Hk in Hall. by apply Forall_app in Hall as [Hall _].
    + pose proof (dropDashes_head dashed) as Hhead. rewrite Hk in Hhead.
      destruct stripped as [|c l]; [done | exact Hhead].
  - intros ->. done.
Qed.

End KeyFacts.

(** ** Rate governor, continued *)

Module GovernorFacts.
Import Utils Validate RateLimit Api Http Spec Laws StringFacts.

Lemma append_tail_inj (u1 u2 s : string) : u1 +:+ s = u2 +:+ s -> u1 = u2.
Proof.
  intros H. apply list_of_string_inj.
  apply (f_equal list_ascii_of_string) in H. rewrite !list_of_append in H.
  by apply app_inv_tail in H.
Qed.

Lemma append_last (u s : string) (c : ascii) :
  last (list_ascii_of_string s) = Some c ->
  last (list_ascii_of_string (u +:+ s)) = Some c.
Proof.
  intros H. rewrite list_of_append.
  destruct (list_ascii_of_string s) as [|d l] eqn:Hs; [done|].
  rewrite last_app. by rewrite H.
Qed.

Lemma append_tails_differ (u1 u2 s1 s2 : string) (c1 c2 : ascii) :
  last (list_ascii_of_string s1) = Some c1 ->
  last (list_ascii_of_string s2) = Some c2 ->
  c1 <> c2 -> u1 +:+ s1 <> u2 +:+ s2.
Proof.
  intros H1 H2 Hne Heq.
  pose proof (append_last u1 s1 c1 H1) as Hl1.
  pose proof (append_last u2 s2 c2 H2) as Hl2.
  rewrite Heq in Hl1. congruence.
Qed.

Lemma append_head_inj (p a b : string) : p +:+ a = p +:+ b -> a = b.
Proof.
  intros H. apply list_of_string_inj.
  apply (f_equal list_ascii_of_string) in H. rewrite !list_of_append in H.
  by apply app_inv_head in H.
Qed.

(** No two counters share a key: the key of a user's window determines the
    user, the action and the window, and is never the key of a list's
    counter; the key of a list's counter determines the list. *)
Lemma counter_keys_distinct (env : Env) :
  (forall u1 a1 i c1 u2 a2 j c2,
      limits u1 a1 env !! i = Some c1 -> limits u2 a2 env !! j = Some c2 ->
      ckey c1 = ckey c2 -> u1 = u2 /\ a1 = a2 /\ i = j)
  /\ (forall u a i c slug,
        limits u a env !! i = Some c -> ckey c <> listCounter slug)
  /\ (forall slug1 slug2, listCounter slug1 = listCounter slug2 -> slug1 = slug2).
Proof.
  split; [|split].
  - intros u1 a1 i c1 u2 a2 j c2 H1 H2 Hkey.
    destruct a1, a2; simpl in H1, H2;
      destruct i as [|[|i]]; simpl in H1; try discriminate H1;
      destruct j as [|[|j]]; simpl in H2; try discriminate H2;
      injection H1 as <-; injection H2 as <-; cbn [ckey] in Hkey;
      apply append_head_inj in Hkey;
      first [ apply append_tail_inj in Hkey as ->; done
            | exfalso; revert Hkey;
              eapply append_tails_differ; [reflexivity | reflexivity | done] ].
  - intros u a i c slug H Hkey.
    destruct a; simpl in H;
      destruct i as [|[|i]]; simpl in H; try discriminate H;
      injection H as <-; discriminate Hkey.
  - intros slug1 slug2 H. unfold listCounter in H.
    apply append_head_inj in H. by apply append_tail_inj in H.
Qed.

Lemma cleanupExpired_lookup_kept (t : Z) (store : gmap string Entry)
    (key : string) (e : Entry) :
  store !! key = Some e -> t <= resetAt e ->
  cleanupExpired t store !! key = store !! key.
Proof.
  intros He Ht. rewrite RateLimitFacts.cleanupExpired_lookup, He.
  by destruct (Z.ltb_spec (resetAt e) t); [lia|].
Qed.

Lemma checkRateLimit_frame (tk : Tick) (key : string) (limit windowMs : Z)
    (store : gmap string Entry) (r : Result) (store' : gmap string Entry)
    (k : string) :
  checkRateLimit tk key limit windowMs store = (r, store') ->
  k <> key ->
  keptUnlessSwept (eq tk) store store' k.
Proof.
  intros Hrun Hne.
  assert (Hswept : store' !! k
                   = (if sweep tk then cleanupExpired (sweepNow tk) store
                      else store) !! k).
  { unfold checkRateLimit in Hrun.
    set (swept := if sweep tk then _ else _) in *.
    destruct (swept !! key) as [e|].
    - destruct (resetAt e <? now tk).
      + injection Hrun as _ <-. by rewrite lookup_insert_ne.
      + destruct (limit <=? count e); injection Hrun as _ <-; [done|].
        by rewrite lookup_insert_ne.
    - injection Hrun as _ <-. by rewrite lookup_insert_ne. }
  rewrite RateLimitFacts.swept_lookup in Hswept. unfold keptUnlessSwept.
  destruct (store !! k) as [e|] eqn:He; [|by left].
  destruct (sweep tk) eqn:Hsweep; simpl in Hswept; [|by left].
  destruct (Z.ltb_spec (resetAt e) (sweepNow tk)); [|by left].
  right. split; [done|]. by exists e, tk.
Qed.

Lemma keptUnlessSwept_trans (P Q R : Tick -> Prop)
    (s0 s1 s2 : gmap string Entry) (k : string) :
  (forall tk, P tk -> R tk) -> (forall tk, Q tk -> R tk) ->
  keptUnlessSwept P s0 s1 k -> keptUnlessSwept Q s1 s2 k ->
  keptUnlessSwept R s0 s2 k.
Proof.
  intros HP HQ [H01 | (H01 & e & tk & He & Htk & Hs & Hr)]
               [H12 | (H12 & e' & tk' & He' & Htk' & Hs' & Hr')].
  - left. congruence.
  - right. split; [done|]. exists e', tk'. rewrite <- H01. auto.
  - right. split; [congruence|]. exists e, tk. auto.
  - right. split; [done|]. exists e, tk. auto.
Qed.

Lemma runChecks_frame (ticks : nat -> Tick) (i : nat) (checks : list Check)
    (store : gmap string Entry) (o : Outcome) (store' : gmap string Entry)
    (k : string) :
  Forall (fun c => ckey c <> k) checks ->
  runChecks ticks i checks store = (o, store') ->
  keptUnlessSwept (fun tk => exists j, tk = ticks j) store store' k.
Proof.
  revert i store. induction checks as [|c checks IH]; intros i store Hkeys Hrun.
  - injection Hrun as _ <-. by left.
  - inversion Hkeys as [|? ? Hc Hrest]; subst. simpl in Hrun.
    destruct (checkRateLimit (ticks i) (ckey c) (climit c) (cwindow c) store)
      as [r s1] eqn:Hcall.
    assert (Hfirst : keptUnlessSwept (eq (ticks i)) store s1 k)
      by (eapply checkRateLimit_frame; [exact Hcall | congruence]).
    destruct (allowed r).
    + eapply (keptUnlessSwept_trans (eq (ticks i))); [| |exact Hfirst|].
      * intros tk <-. by exists i.
      * intros tk Htk. exact Htk.
      * by eapply IH.
    + injection Hrun as _ <-.
      eapply (keptUnlessSwept_trans (eq (ticks i)) (fun _ => False));
        [| |exact Hfirst|by left]; [intros tk <-; by exists i | done].
Qed.

Lemma limits_keys (userId : string) (action : Action) (env : Env) (k : string) :
  (forall i c, limits userId action env !! i = Some c -> ckey c <> k) ->
  Forall (fun c => ckey c <> k) (limits userId action env).
Proof.
  intros H. apply Forall_lookup. intros i c Hc. by eapply H.
Qed.

Lemma user_checks_frame (env : Env) (ticks : nat -> Tick) (u : string)
    (a : Action) (store : gmap string Entry) (k : string) :
  (forall i c, limits u a env !! i = Some c -> ckey c <> k) ->
  keptUnlessSwept (fun tk => exists i, tk = ticks i) store
    (checkUserRateLimits ticks u a env store).2 k.
Proof.
  intros Hkeys. unfold checkUserRateLimits.
  destruct (negb _); [by left|].
  eapply runChecks_frame; [by apply limits_keys | apply surjective_pairing].
Qed.

Lemma list_check_frame (env : Env) (tk : Tick) (slug : string)
    (store : gmap string Entry) (k : string) :
  k <> listCounter slug ->
  keptUnlessSwept (eq tk) store (checkListRateLimits tk slug env store).2 k.
Proof.
  intros Hne. unfold checkListRateLimits.
  destruct (negb _); [by left|].
  fold (listCounter slug).
  destruct (checkRateLimit tk (listCounter slug) _ _ store) as [r s1] eqn:Hcall.
  assert ((if allowed r then (allow, s1)
           else ({| ok := false;
                    message := Some ("This list is being updated too frequently. Try again in "
                                     +:+ showOpt (retryAfter r) +:+ "s. ("
                                     +:+ pretty (current r) +:+ "/"
                                     +:+ pretty (envNumber (MAX_SAVES_PER_LIST_PER_MINUTE env) 10)
                                     +:+ ")");
                    retry := retryAfter r |}, s1)).2 = s1) as ->
    by (by destruct (allowed r)).
  by eapply checkRateLimit_frame.
Qed.

(** X8. The counters are isolated from each other: the checks made for one
    user leave the counters of every other user and of every list as they
    were, and the check made for one list leaves every other counter as it
    was; the only change a foreign counter can undergo is its removal once
    it has expired, by the occasional sweep. *)
Theorem counters_isolated (env : Env) :
  (forall ticks u1 a1 store u2 a2 j c2,
      u1 <> u2 ->
      limits u2 a2 env !! j = Some c2 ->
      keptUnlessSwept (fun tk => exists i, tk = ticks i) store
        (checkUserRateLimits ticks u1 a1 env store).2 (ckey c2))
  /\ (forall ticks u a store slug,
        keptUnlessSwept (fun tk => exists i, tk = ticks i) store
          (checkUserRateLimits ticks u a env store).2 (listCounter slug))
  /\ (forall tk slug store k,
        k <> listCounter slug ->
        keptUnlessSwept (eq tk) store (checkListRateLimits tk slug env store).2 k).
Proof.
  destruct (counter_keys_distinct env) as (Husers & Hlist & _).
  split; [|split].
  - intros ticks u1 a1 store u2 a2 j c2 Hne Hc2.
    apply user_checks_frame. intros i c Hc Hkey.
    by destruct (Husers u1 a1 i c u2 a2 j c2 Hc Hc2 Hkey) as [? _].
  - intros ticks u a store slug.
    apply user_checks_frame. intros i c Hc. by eapply Hlist.
  - intros tk slug store k Hne. by apply list_check_frame.
Qed.

Lemma kept_absent (reads : Tick -> Prop) (store store' : gmap string Entry)
    (k : string) :
  keptUnlessSwept reads store store' k -> store !! k = None -> store' !! k = None.
Proof. intros [H | [H _]] Hk; congruence. Qed.

Lemma runChecks_fresh (ticks : nat -> Tick) (checks : list Check) (i : nat)
    (store : gmap string Entry) :
  NoDup (ckey <$> checks) ->
  Forall (fun c => store !! ckey c = None) checks ->
  ok (runChecks ticks i checks store).1 = true.
Proof.
  revert i store. induction checks as [|c checks IH]; intros i store Hnd Hfresh.
  { done. }
  simpl in *. apply NoDup_cons in Hnd as [Hc Hnd].
  inversion Hfresh as [|? ? Hkey Hrest]; subst.
  pose proof (RateLimitFacts.checkRateLimit_opens (ticks i) (ckey c) (climit c)
                (cwindow c) store) as Hopen.
  destruct (checkRateLimit (ticks i) (ckey c) (climit c) (cwindow c) store)
    as [r s1] eqn:Hcall.
  destruct Hopen as [-> _]; [intros e He; congruence|]. simpl.
  apply IH; [done|].
  apply Forall_forall. intros c' Hc'.
  eapply kept_absent.
  - eapply checkRateLimit_frame; [exact Hcall|].
    intros Heq. apply Hc. rewrite <- Heq. apply list_elem_of_fmap. by exists c'.
  - by eapply (proj1 (Forall_forall _ _) Hrest).
Qed.

Lemma limits_NoDup (u : string) (a : Action) (env : Env) :
  NoDup (ckey <$> limits u a env).
Proof.
  destruct (counter_keys_distinct env) as (Husers & _).
  apply NoDup_alt. intros i j k Hi Hj.
  apply list_lookup_fmap_Some in Hi as (ci & -> & Hi).
  apply list_lookup_fmap_Some in Hj as (cj & Hk & Hj).
  by destruct (Husers u a i ci u a j cj Hi Hj Hk) as (_ & _ & ?).
Qed.

Lemma checkUserRateLimits_fresh (ticks : nat -> Tick) (u : string) (a : Action)
    (env : Env) (store : gmap string Entry) :
  Forall (fun c => store !! ckey c = None) (limits u a env) ->
  ok (checkUserRateLimits ticks u a env store).1 = true.
Proof.
  intros Hfresh. unfold checkUserRateLimits. destruct (negb _); [done|].
  apply runChecks_fresh; [apply limits_NoDup | done].
Qed.

Lemma checkListRateLimits_fresh (tk : Tick) (slug : string) (env : Env)
    (store : gmap string Entry) :
  store !! listCounter slug = None ->
  ok (checkListRateLimits tk slug env store).1 = true.
Proof.
  intros Hfresh. unfold checkListRateLimits. destruct (negb _); [done|].
  fold (listCounter slug).
  pose proof (RateLimitFacts.checkRateLimit_opens tk (listCounter slug)
                (envNumber (MAX_SAVES_PER_LIST_PER_MINUTE env) 10) (60 * 1000)
                store) as Hopen.
  destruct (checkRateLimit tk (listCounter slug) _ _ store) as [r s1].
  by destruct Hopen as [-> _]; [intros e He; congruence|].
Qed.

Lemma userGate_rateLimitStore (h : Host) (env : Env)
    (incoming : UpdateListRequest) (st : State) :
  rateLimitStore (userGate h env incoming st).2
  = match up_userId incoming with
    | Some u => if String.eqb u "" then rateLimitStore st
                else (checkUserRateLimits (userTicks h) u save env
                        (rateLimitStore st)).2
    | None => rateLimitStore st
    end.
Proof.
  unfold userGate. destruct (up_userId incoming) as [u|]; [|done].
  destruct (String.eqb u ""); simpl; [done|].
  by destruct (checkUserRateLimits _ _ _ _ _).
Qed.

Lemma userGate_ok (h : Host) (env : Env) (incoming : UpdateListRequest)
    (st : State) :
  ok (userGate h env incoming st).1
  = match up_userId incoming with
    | Some u => if String.eqb u "" then true
                else ok (checkUserRateLimits (userTicks h) u save env
                           (rateLimitStore st)).1
    | None => true
    end.
Proof.
  unfold userGate. destruct (up_userId incoming) as [u|]; [|done].
  destruct (String.eqb u ""); simpl; [done|].
  by destruct (checkUserRateLimits _ _ _ _ _).
Qed.

Lemma listGate_run (h : Host) (env : Env) (slug : string) (st : State) :
  ok (listGate h env slug st).1
  = ok (checkListRateLimits (listTick h) slug env (rateLimitStore st)).1
  /\ rateLimitStore (listGate h env slug st).2
     = (checkListRateLimits (listTick h) slug env (rateLimitStore st)).2.
Proof. unfold listGate. by destruct (checkListRateLimits _ _ _ _). Qed.

Lemma UpdateExit_status (h : Host) (env : Env) (slug : string)
    (incoming : UpdateListRequest) (st : State) (resp : Response) (st' : State) :
  UpdateExit h env slug incoming st resp st' -> status resp <> 429.
Proof. intros Hexit; inversion Hexit; subst; simpl; lia. Qed.

(** X9. A caller that has no counter yet is never turned away, whatever the
    configured limits are, zero included: a PUT from a user without
    counters on a list without a counter is not answered 429. The first
    call for a key opens its window without looking at the limit. *)
Theorem unseen_caller_never_limited (h : Host) (env : Env) (slug : string)
    (incoming : UpdateListRequest) (st : State) :
  (forall u, up_userId incoming = Some u ->
             Forall (fun c => rateLimitStore st !! ckey c = None)
                    (limits u save env)) ->
  rateLimitStore st !! listCounter slug = None ->
  status (onRequestPut h env slug incoming st).1 <> 429.
Proof.
  intros Huser Hlist.
  destruct (onRequestPut h env slug incoming st) as [resp st'] eqn:Hrun. simpl.
  assert (Hok1 : ok (userGate h env incoming st).1 = true).
  { rewrite userGate_ok. destruct (up_userId incoming) as [u|]; [|done].
    destruct (String.eqb u ""); [done|].
    by apply checkUserRateLimits_fresh, Huser. }
  assert (Hok2 : ok (listGate h env slug (userGate h env incoming st).2).1 = true).
  { rewrite (proj1 (listGate_run _ _ _ _)). apply checkListRateLimits_fresh.
    rewrite userGate_rateLimitStore.
    destruct (up_userId incoming) as [u|]; [|done].
    destruct (String.eqb u ""); [done|].
    eapply kept_absent; [|exact Hlist].
    apply user_checks_frame. intros i c Hc.
    by eapply (proj1 (proj2 (counter_keys_distinct env))). }
  ApiFacts.put_exits Hrun; try congruence.
  - simpl. lia.
  - by eapply UpdateExit_status.
Qed.

(** X10. With rate limiting switched off (any value of ENABLE_RATE_LIMITING
    other than the text true), neither a PUT nor a POST is ever answered
    429, and neither touches the counters. *)
Theorem governor_off (h : Host) (env : Env) (st : State) :
  ENABLE_RATE_LIMITING env <> "true" ->
  (forall slug incoming,
      status (onRequestPut h env slug incoming st).1 <> 429
      /\ rateLimitStore (onRequestPut h env slug incoming st).2
         = rateLimitStore st)
  /\ (forall headerUserId body,
        status (onRequestPost h env headerUserId body st).1 <> 429
        /\ rateLimitStore (onRequestPost h env headerUserId body st).2
           = rateLimitStore st).
Proof.
  intros Hoff.
  assert (Hneg : negb (String.eqb (ENABLE_RATE_LIMITING env) "true") = true).
  { by destruct (String.eqb_spec (ENABLE_RATE_LIMITING env) "true"). }
  assert (Huser : forall ticks u a s,
             checkUserRateLimits ticks u a env s = (allow, s)).
  { intros. unfold checkUserRateLimits. by rewrite Hneg. }
  assert (Hlist : forall tk slug s, checkListRateLimits tk slug env s = (allow, s)).
  { intros. unfold checkListRateLimits. by rewrite Hneg. }
  split.
  - intros slug incoming.
    destruct (onRequestPut h env slug incoming st) as [resp st'] eqn:Hrun. simpl.
    assert (Hs1 : rateLimitStore (userGate h env incoming st).2 = rateLimitStore st).
    { rewrite userGate_rateLimitStore. destruct (up_userId incoming) as [u|]; [|done].
      rewrite Huser. simpl. by destruct (String.eqb u ""). }
    assert (Hs2 : rateLimitStore (afterGates h env slug incoming st)
                  = rateLimitStore st).
    { unfold afterGates. rewrite (proj2 (listGate_run _ _ _ _)), Hlist. done. }
    assert (Hok1 : ok (userGate h env incoming st).1 = true).
    { rewrite userGate_ok. destruct (up_userId incoming) as [u|]; [|done].
      rewrite Huser. simpl. by destruct (String.eqb u ""). }
    assert (Hok2 : ok (listGate h env slug (userGate h env incoming st).2).1 = true).
    { by rewrite (proj1 (listGate_run _ _ _ _)), Hlist. }
    ApiFacts.put_exits Hrun; try congruence.
    + split; [simpl; lia | done].
    + split; [by eapply UpdateExit_status|].
      apply ApiFacts.UpdateExit_governor in Hexit as [-> _]. done.
  - intros headerUserId body. unfold onRequestPost. rewrite Huser. simpl.
    by destruct (negb (ok (checkListSize _ env))); simpl; (split; [lia|]).
Qed.


(** X11. The occasional sweep never changes what a call answers, nor the
    counter it leaves for its key: an entry the sweep removes had expired,
    and the call would have opened a new window over it anyway. (The sweep
    reads the clock before the call does.) *)
Theorem sweep_is_transparent (tk : Tick) (key : string) (limit windowMs : Z)
    (store : gmap string Entry) :
  clockAdvances tk ->
  (checkRateLimit tk key limit windowMs store).1
  = (checkRateLimit (withoutSweep tk) key limit windowMs store).1
  /\ (checkRateLimit tk key limit windowMs store).2 !! key
     = (checkRateLimit (withoutSweep tk) key limit windowMs store).2 !! key.
Proof.
  intros Hclock. unfold checkRateLimit, withoutSweep; simpl.
  set (swept := if sweep tk then _ else _).
  assert (Hsw : swept !! key
                = match store !! key with
                  | Some e => if sweep tk && (resetAt e <? sweepNow tk)
                              then None else Some e
                  | None => None
                  end) by apply RateLimitFacts.swept_lookup.
  destruct (store !! key) as [e|] eqn:He; rewrite Hsw.
  2: { simpl. by rewrite !lookup_insert_eq. }
  destruct (sweep tk && (resetAt e <? sweepNow tk)) eqn:Hgone.
  - apply andb_prop in Hgone as [Hsweep Hs]. specialize (Hclock Hsweep).
    apply Z.ltb_lt in Hs.
    destruct (Z.ltb_spec (resetAt e) (now tk)); [|lia].
    simpl. by rewrite !lookup_insert_eq.
  - destruct (resetAt e <? now tk); simpl; [by rewrite !lookup_insert_eq|].
    destruct (limit <=? count e); simpl; [|by rewrite !lookup_insert_eq].
    split; [done|]. rewrite Hsw. by rewrite ?Hgone.
Qed.

Lemma rejected_entry (tk : Tick) (key : string) (limit windowMs : Z)
    (store : gmap string Entry) (r : Result) (store' : gmap string Entry) :
  checkRateLimit tk key limit windowMs store = (r, store') ->
  allowed r = false ->
  exists e, store !! key = Some e /\ now tk <= resetAt e /\ limit <= count e
            /\ retryAfter r = Some (ceilSeconds (resetAt e - now tk))
            /\ current r = count e.
Proof.
  intros Hrun Hrej. unfold checkRateLimit in Hrun.
  set (swept := if sweep tk then _ else _) in *.
  assert (Hsw : swept !! key
                = match store !! key with
                  | Some e => if sweep tk && (resetAt e <? sweepNow tk)
                              then None else Some e
                  | None => None
                  end) by apply RateLimitFacts.swept_lookup.
  destruct (swept !! key) as [e|] eqn:He.
  2: { injection Hrun as <- _. discriminate. }
  destruct (Z.ltb_spec (resetAt e) (now tk)).
  { injection Hrun as <- _. discriminate. }
  destruct (Z.leb_spec limit (count e)).
  2: { injection Hrun as <- _. discriminate. }
  injection Hrun as <- _. exists e.
  destruct (store !! key) as [e'|]; [|done].
  destruct (sweep tk && (resetAt e' <? sweepNow tk)); [done|].
  by injection Hsw as ->.
Qed.

(** X12. The Retry-After header of a rejection never says zero: a call rejected
    strictly before the reset instant is told the ceiling of the seconds
    left, and one rejected at the reset instant itself, whose body carries
    zero seconds, is told to wait 60 seconds. *)
Theorem retry_header_after_rejection (tk : Tick) (key : string)
    (limit windowMs : Z) (store : gmap string Entry) (r : Result)
    (store' : gmap string Entry) :
  checkRateLimit tk key limit windowMs store = (r, store') ->
  allowed r = false ->
  retryAfterHeader (retryAfter r) <> "0"
  /\ exists e, store !! key = Some e
               /\ now tk <= resetAt e
               /\ retryAfterHeader (retryAfter r)
                  = if now tk =? resetAt e then "60"
                    else pretty (ceilSeconds (resetAt e - now tk)).
Proof.
  intros Hrun Hrej.
  destruct (rejected_entry _ _ _ _ _ _ _ Hrun Hrej)
    as (e & He & Hnow & _ & Hretry & _).
  split.
  - unfold retryAfterHeader. intros Hzero.
    change "0" with (pretty 0%Z) in Hzero.
    apply (inj pretty) in Hzero. revert Hzero.
    unfold Js.numOr. destruct (retryAfter r) as [v|]; [|done].
    by destruct (Z.eqb_spec v 0).
  - exists e. split; [done|]. split; [done|].
    rewrite Hretry. unfold retryAfterHeader, Js.numOr.
    pose proof (RateLimitFacts.ceilSeconds_sign (resetAt e - now tk) ltac:(lia))
      as [_ Hpos].
    destruct (Z.eqb_spec (now tk) (resetAt e)) as [Heq | Hne].
    + rewrite Heq, Z.sub_diag. reflexivity.
    + destruct (Z.eqb_spec (ceilSeconds (resetAt e - now tk)) 0); [lia | done].
Qed.

(** X13. A PUT answered 429 has still been charged for every window checked
    before the one that rejected it: a rejection by the user's hourly
    window has spent a unit of the per-minute one, and a rejection by the
    list's window has spent a unit of both of the user's. In each case the
    stored documents are as they were. *)
Theorem rejection_charges_earlier_windows (h : Host) (env : Env)
    (slug : string) (incoming : UpdateListRequest) (st : State)
    (userId : string) (resp : Response) (st' : State) :
  up_userId incoming = Some userId ->
  ENABLE_RATE_LIMITING env = "true" ->
  onRequestPut h env slug incoming st = (resp, st') ->
  status resp = 429 ->
  let minute := ("user:" +:+ userId +:+ ":save:minute",
                 envNumber (MAX_SAVES_PER_USER_PER_MINUTE env) 2, 60 * 1000) in
  let hour := ("user:" +:+ userId +:+ ":save:hour",
               envNumber (MAX_SAVES_PER_USER_PER_HOUR env) 30, 60 * 60 * 1000) in
  let list := (listCounter slug,
               envNumber (MAX_SAVES_PER_LIST_PER_MINUTE env) 10, 60 * 1000) in
  MATRIX_STORE st' = MATRIX_STORE st
  /\ exists r, allowed r = false
     /\ (checkRateLimit (userTicks h 0) minute.1.1 minute.1.2 minute.2
           (rateLimitStore st) = (r, rateLimitStore st')
         \/ (exists s1,
               consumesUnit (userTicks h 0) minute.1.1 minute.1.2 minute.2
                 (rateLimitStore st) s1
               /\ checkRateLimit (userTicks h 1) hour.1.1 hour.1.2 hour.2 s1
                  = (r, rateLimitStore st'))
         \/ (exists s1 s2,
               consumesUnit (userTicks h 0) minute.1.1 minute.1.2 minute.2
                 (rateLimitStore st) s1
               /\ consumesUnit (userTicks h 1) hour.1.1 hour.1.2 hour.2 s1 s2
               /\ checkRateLimit (listTick h) list.1.1 list.1.2 list.2 s2
                  = (r, rateLimitStore st'))).
Proof.
  intros Hu Hon Hrun H429. simpl.
  assert (Hvalid : validateUserId userId = true).
  { ApiFacts.put_exits Hrun; try discriminate H429; by apply Hid. }
  ApiFacts.put_exits Hrun; try congruence.
  - split; [apply ApiFacts.userGate_store|].
    revert Ho. rewrite userGate_ok, userGate_rateLimitStore, Hu.
    rewrite (ApiFacts.validateUserId_nonempty _ Hvalid).
    unfold checkUserRateLimits. rewrite Hon. simpl.
    destruct (checkRateLimit (userTicks h 0) _ _ _ (rateLimitStore st))
      as [r1 s1] eqn:H1.
    destruct (allowed r1) eqn:Ha1; simpl.
    + destruct (checkRateLimit (userTicks h 1) _ _ _ s1) as [r2 s2] eqn:H2.
      destruct (allowed r2) eqn:Ha2; simpl; [done|]. intros _.
      exists r2. split; [done|]. right. left. exists s1.
      split; [by eapply RateLimitFacts.checkRateLimit_allowed_consumes | done].
    + intros _. exists r1. split; [done|]. by left.
  - split; [apply ApiFacts.afterGates_store|].
    revert Ho1 Ho2. unfold afterGates.
    rewrite !(proj1 (listGate_run _ _ _ _)), !(proj2 (listGate_run _ _ _ _)).
    rewrite userGate_ok, userGate_rateLimitStore, Hu.
    rewrite (ApiFacts.validateUserId_nonempty _ Hvalid).
    unfold checkUserRateLimits, checkListRateLimits. rewrite Hon. simpl.
    destruct (checkRateLimit (userTicks h 0) _ _ _ (rateLimitStore st))
      as [r1 s1] eqn:H1.
    destruct (allowed r1) eqn:Ha1; simpl; [|done].
    destruct (checkRateLimit (userTicks h 1) _ _ _ s1) as [r2 s2] eqn:H2.
    destruct (allowed r2) eqn:Ha2; simpl; [|done]. intros _.
    fold (listCounter slug).
    destruct (checkRateLimit (listTick h) _ _ _ s2) as [r3 s3] eqn:H3.
    destruct (allowed r3) eqn:Ha3; simpl; [done|]. intros _.
    exists r3. split; [done|]. right. right. exists s1, s2.
    split; [by eapply RateLimitFacts.checkRateLimit_allowed_consumes|].
    split; [by eapply RateLimitFacts.checkRateLimit_allowed_consumes | done].
  - exfalso. by eapply UpdateExit_status.
Qed.

Lemma sweep_is_transparent_witness :
  clockAdvances Cases.sweeping
  /\ (checkRateLimit Cases.sweeping "k" 2 60000 Samples.spent).1
     = (checkRateLimit (withoutSweep Cases.sweeping) "k" 2 60000 Samples.spent).1.
Proof.
  assert (H : clockAdvances Cases.sweeping) by (intros _; simpl; lia).
  split; [exact H|].
  exact (proj1 (sweep_is_transparent Cases.sweeping "k" 2 60000 Samples.spent H)).
Defined.

Lemma unseen_caller_never_limited_witness :
  rateLimitStore Samples.serving !! listCounter "backlog" = None
  /\ status (onRequestPut Samples.host Cases.strict "backlog" Samples.bobSave
               Samples.serving).1 <> 429.
Proof.
  assert (H : rateLimitStore Samples.serving !! listCounter "backlog" = None)
    by reflexivity.
  split; [exact H|].
  apply (unseen_caller_never_limited Samples.host Cases.strict "backlog"
           Samples.bobSave Samples.serving); [|exact H].
  intros u _. apply Forall_forall. intros c _. reflexivity.
Defined.

Lemma governor_off_witness :
  ENABLE_RATE_LIMITING Cases.unlimited <> "true"
  /\ status (onRequestPut Samples.host Cases.unlimited "backlog" Samples.bobSave
               Samples.serving).1 <> 429
  /\ rateLimitStore (onRequestPut Samples.host Cases.unlimited "backlog"
                       Samples.bobSave Samples.serving).2
     = rateLimitStore Samples.serving.
Proof.
  assert (H : ENABLE_RATE_LIMITING Cases.unlimited <> "true") by discriminate.
  split; [exact H|].
  exact (proj1 (governor_off Samples.host Cases.unlimited Samples.serving H)
           "backlog" Samples.bobSave).
Defined.

Lemma retry_header_after_rejection_witness :
  allowed (checkRateLimit Samples.atReset "k" 2 60000 Samples.spent).1 = false
  /\ retryAfterHeader
       (retryAfter (checkRateLimit Samples.atReset "k" 2 60000 Samples.spent).1)
     <> "0".
Proof.
  assert (H : allowed (checkRateLimit Samples.atReset "k" 2 60000 Samples.spent).1
              = false) by (vm_compute; reflexivity).
  split; [exact H|].
  refine (proj1 (retry_header_after_rejection Samples.atReset "k" 2 60000
                   Samples.spent
                   (checkRateLimit Samples.atReset "k" 2 60000 Samples.spent).1
                   (checkRateLimit Samples.atReset "k" 2 60000 Samples.spent).2
                   _ H)).
  vm_compute; reflexivity.
Defined.

Lemma rejection_charges_earlier_windows_witness :
  status (onRequestPut Samples.host Samples.limited "backlog" Samples.bobSave
            Cases.busy).1 = 429
  /\ MATRIX_STORE (onRequestPut Samples.host Samples.limited "backlog"
                     Samples.bobSave Cases.busy).2
     = MATRIX_STORE Cases.busy.
Proof.
  assert (H : status (onRequestPut Samples.host Samples.limited "backlog"
                        Samples.bobSave Cases.busy).1 = 429)
    by (vm_compute; reflexivity).
  split; [exact H|].
  refine (proj1 (rejection_charges_earlier_windows Samples.host Samples.limited
                   "backlog" Samples.bobSave Cases.busy Samples.bob
                   (onRequestPut Samples.host Samples.limited "backlog"
                      Samples.bobSave Cases.busy).1
                   (onRequestPut Samples.host Samples.limited "backlog"
                      Samples.bobSave Cases.busy).2
                   _ _ _ H)).
  - reflexivity.
  - reflexivity.
  - vm_compute; reflexivity.
Defined.

End GovernorFacts.

(** ** Reading, deleting and the round trips through the handlers *)

Module HttpFacts.
Import Utils Validate RateLimit Api Http Spec Laws StringFacts.

Lemma decimal_plain (c : ascii) :
  decimal c ->
  Js.isWhiteSpace c = false
  /\ (nat_of_ascii c =? 45)%nat = false
  /\ (nat_of_ascii c =? 43)%nat = false
  /\ (nat_of_ascii c =? 120)%nat = false
  /\ (nat_of_ascii c =? 88)%nat = false.
Proof.
  unfold decimal.
  destruct c as [[] [] [] [] [] [] [] []]; vm_compute; intros H;
    try (by exfalso); done.
Qed.

Lemma pretty_N_char_value (x : N) :
  (x < 10)%N -> digitValue 10 (pretty_N_char x) = Some (Z.of_N x).
Proof.
  intros Hx.
  assert (x = 0 \/ x = 1 \/ x = 2 \/ x = 3 \/ x = 4 \/ x = 5 \/ x = 6
          \/ x = 7 \/ x = 8 \/ x = 9)%N as H by lia.
  repeat (destruct H as [-> | H]; [reflexivity|]). by rewrite H.
Qed.

(** The numeral [pretty_N_go] puts before [s] consists of decimal digits,
    and reading them recovers the number. *)
Lemma pretty_N_go_digits (x : N) (s : string) :
  exists ds,
    list_ascii_of_string (pretty_N_go x s) = ds ++ list_ascii_of_string s
    /\ Forall decimal ds
    /\ ((0 < x)%N -> ds <> [])
    /\ forall acc l,
         readDigits 10 acc (ds ++ l)
         = readDigits 10 (acc * 10 ^ Z.of_nat (length ds) + Z.of_N x) l.
Proof.
  revert s. induction (N.lt_wf_0 x) as [x _ IH]; intros s.
  assert (x = 0 \/ 0 < x)%N as [-> | Hpos] by lia.
  - exists []. rewrite pretty_N_go_0. split; [done|]. split; [constructor|].
    split; [lia|]. intros acc l. simpl. f_equal. lia.
  - rewrite pretty_N_go_step by done.
    destruct (IH (x `div` 10)%N ltac:(by apply N.div_lt)
                 (String (pretty_N_char (x `mod` 10)) s))
      as (ds & Hl & Hds & _ & Hval).
    assert (Hmod : (x `mod` 10 < 10)%N) by (by apply N.mod_lt).
    exists (ds ++ [pretty_N_char (x `mod` 10)]).
    split; [by rewrite Hl, <- app_assoc|].
    split.
    { apply Forall_app. split; [done|]. constructor; [|constructor].
      unfold decimal. by rewrite pretty_N_char_value. }
    split; [by destruct ds|].
    intros acc l. rewrite <- app_assoc, Hval. simpl.
    rewrite pretty_N_char_value by done. f_equal.
    rewrite length_app, Nat.add_1_r, Nat2Z.inj_succ, Z.pow_succ_r by lia.
    pose proof (N.div_mod x 10 ltac:(done)) as Hx.
    assert (Z.of_N x = 10 * Z.of_N (x `div` 10) + Z.of_N (x `mod` 10)) by lia.
    ring_simplify. lia.
Qed.

Lemma parseInt_unsigned (d : ascii) (ds : list ascii) :
  decimal d -> Forall decimal ds ->
  parseInt (string_of_list_ascii (d :: ds)) = Some (readDigits 10 0 (d :: ds)).
Proof.
  intros Hd Hds. unfold parseInt.
  rewrite list_ascii_of_string_of_list_ascii.
  destruct (decimal_plain d Hd) as (Hws & H45 & H43 & _).
  cbn [Js.trimStartList]. rewrite Hws, H45, H43.
  assert (Hradix : match d :: ds with
                   | z :: x :: l' =>
                       if (nat_of_ascii z =? 48)%nat
                          && ((nat_of_ascii x =? 120)%nat
                              || (nat_of_ascii x =? 88)%nat)
                       then (16, l') else (10, d :: ds)
                   | _ => (10, d :: ds)
                   end = (10, d :: ds)).
  { destruct ds as [|x l']; [done|].
    inversion Hds as [|? ? Hx _]; subst.
    destruct (decimal_plain x Hx) as (_ & _ & _ & -> & ->).
    by rewrite andb_false_r. }
  rewrite Hradix. unfold decimal in Hd.
  destruct (digitValue 10 d) as [v|] eqn:Hv; [|done].
  by rewrite Z.mul_1_l.
Qed.

Lemma parseInt_negative (d : ascii) (ds : list ascii) :
  decimal d -> Forall decimal ds ->
  parseInt (string_of_list_ascii ("-"%char :: d :: ds))
  = Some (- readDigits 10 0 (d :: ds)).
Proof.
  intros Hd Hds. unfold parseInt.
  rewrite list_ascii_of_string_of_list_ascii.
  cbn [Js.trimStartList].
  assert (Hws : Js.isWhiteSpace "-"%char = false) by reflexivity.
  assert (Hdash : (nat_of_ascii "-"%char =? 45)%nat = true) by reflexivity.
  rewrite Hws, Hdash.
  assert (Hradix : match d :: ds with
                   | z :: x :: l' =>
                       if (nat_of_ascii z =? 48)%nat
                          && ((nat_of_ascii x =? 120)%nat
                              || (nat_of_ascii x =? 88)%nat)
                       then (16, l') else (10, d :: ds)
                   | _ => (10, d :: ds)
                   end = (10, d :: ds)).
  { destruct ds as [|x l']; [done|].
    inversion Hds as [|? ? Hx _]; subst.
    destruct (decimal_plain x Hx) as (_ & _ & _ & -> & ->).
    by rewrite andb_false_r. }
  rewrite Hradix. unfold decimal in Hd.
  destruct (digitValue 10 d) as [v|] eqn:Hv; [|done].
  f_equal; lia.
Qed.

Lemma pretty_positive_digits (p : positive) :
  exists d ds,
    pretty (Z.pos p) = string_of_list_ascii (d :: ds)
    /\ decimal d /\ Forall decimal ds
    /\ readDigits 10 0 (d :: ds) = Z.pos p.
Proof.
  destruct (pretty_N_go_digits (N.pos p) "") as (l & Hl & Hds & Hne & Hval).
  destruct l as [|d ds]; [by destruct Hne|].
  inversion Hds; subst. exists d, ds.
  split.
  { apply list_of_string_inj. rewrite list_ascii_of_string_of_list_ascii.
    rewrite app_nil_r in Hl. exact Hl. }
  split; [done|]. split; [done|].
  specialize (Hval 0 []). rewrite app_nil_r in Hval. rewrite Hval. simpl. lia.
Qed.

Lemma parseInt_pretty (v : Z) : parseInt (pretty v) = Some v.
Proof.
  destruct v as [|p|p].
  - reflexivity.
  - destruct (pretty_positive_digits p) as (d & ds & -> & Hd & Hds & <-).
    by apply parseInt_unsigned.
  - destruct (pretty_positive_digits p) as (d & ds & Hp & Hd & Hds & Hv).
    change (pretty (Z.neg p)) with ("-" +:+ pretty (Z.pos p)).
    rewrite Hp. change (Z.neg p) with (- Z.pos p). rewrite <- Hv.
    by apply (parseInt_negative d ds).
Qed.

Lemma pretty_nonempty (v : Z) : pretty v <> "".
Proof. intros H. pose proof (parseInt_pretty v) as Hp. by rewrite H in Hp. Qed.

Lemma getListKey_inj (slug1 slug2 : string) :
  getListKey slug1 = getListKey slug2 -> slug1 = slug2.
Proof. apply GovernorFacts.append_head_inj. Qed.

Lemma checkListSize_ok (bytes : Z) (env : Env) :
  ok (checkListSize bytes env) = true <-> bytes <= ceilingBytes env.
Proof.
  unfold checkListSize, ceilingBytes.
  destruct (Z.ltb_spec (envNumber (LIST_MAX_SIZE_KB env) 100 * 1024) bytes);
    simpl; split; try done; lia.
Qed.

(** What a PUT leaves in storage: what was there, or the updated document
    under the key of its list and the answer 200. *)
Lemma put_store (h : Host) (env : Env) (slug : string)
    (incoming : UpdateListRequest) (st : State) :
  (MATRIX_STORE (onRequestPut h env slug incoming st).2 = MATRIX_STORE st
   /\ status (onRequestPut h env slug incoming st).1 <> 200)
  \/ exists existing,
       MATRIX_STORE st !! getListKey slug = Some existing
       /\ identityAccepted incoming
       /\ valid (validateList incoming (maxItemsOf env)) = true
       /\ versionConflict incoming existing = false
       /\ ok (checkListSize (encodedLength h (updatedList h env existing incoming))
                env) = true
       /\ (onRequestPut h env slug incoming st).1
          = JsonList (updatedList h env existing incoming)
       /\ MATRIX_STORE (onRequestPut h env slug incoming st).2
          = <[getListKey slug := updatedList h env existing incoming]>
              (MATRIX_STORE st).
Proof.
  destruct (onRequestPut h env slug incoming st) as [resp st'] eqn:Hrun. simpl.
  ApiFacts.put_exits Hrun.
  - left. split; [done | simpl; lia].
  - left. split; [apply ApiFacts.userGate_store | simpl; lia].
  - left. split; [apply ApiFacts.afterGates_store | simpl; lia].
  - ApiFacts.update_exits Hexit; simpl;
      rewrite ?ApiFacts.afterGates_store in *;
      try (left; split; [done | simpl; lia]).
    right. exists ex. by repeat split.
Qed.

(** What a POST leaves in storage. *)
Lemma post_store (h : Host) (env : Env) (headerUserId : option string)
    (body : CreateListRequest) (st : State) :
  let slug := generateSlug (randomSuffix h) (sanitizeTitle (cr_title body)) in
  (MATRIX_STORE (onRequestPost h env headerUserId body st).2 = MATRIX_STORE st
   /\ status (onRequestPost h env headerUserId body st).1 <> 201)
  \/ (ok (checkListSize (encodedLength h (created h env body)) env) = true
      /\ (onRequestPost h env headerUserId body st).1 = JsonCreated slug
      /\ MATRIX_STORE (onRequestPost h env headerUserId body st).2
         = <[getListKey slug := created h env body]> (MATRIX_STORE st)).
Proof.
  unfold onRequestPost. fold (created h env body).
  destruct (checkUserRateLimits _ _ _ _ _) as [o s]. simpl.
  destruct (ok o); simpl; [|left; split; [done | lia]].
  destruct (ok (checkListSize (encodedLength h (created h env body)) env));
    simpl; [by right | left; split; [done | lia]].
Qed.

(** X14. Whatever a PUT or a POST leaves in storage was there before or was
    written by it under the key of its own list and is within the size
    ceiling: no request touches another list, and none stores a document
    whose JSON text exceeds LIST_MAX_SIZE_KB kilobytes. *)
Theorem written_documents_within_ceiling (h : Host) (env : Env) (st : State) :
  (forall slug incoming k l,
      MATRIX_STORE (onRequestPut h env slug incoming st).2 !! k = Some l ->
      MATRIX_STORE st !! k = Some l
      \/ (k = getListKey slug /\ encodedLength h l <= ceilingBytes env
          /\ (onRequestPut h env slug incoming st).1 = JsonList l))
  /\ (forall headerUserId body k l,
        MATRIX_STORE (onRequestPost h env headerUserId body st).2 !! k = Some l ->
        MATRIX_STORE st !! k = Some l
        \/ (exists slug,
               k = getListKey slug /\ encodedLength h l <= ceilingBytes env
               /\ (onRequestPost h env headerUserId body st).1 = JsonCreated slug)).
Proof.
  split.
  - intros slug incoming k l.
    destruct (put_store h env slug incoming st)
      as [[-> _] | (ex & _ & _ & _ & _ & Hsize & -> & ->)]; [by left|].
    destruct (decide (k = getListKey slug)) as [-> | Hne].
    + rewrite lookup_insert_eq. intros [= <-]. right.
      split; [done|]. split; [by apply checkListSize_ok | done].
    + rewrite lookup_insert_ne by done. by left.
  - intros headerUserId body k l.
    destruct (post_store h env headerUserId body st)
      as [[-> _] | (Hsize & -> & ->)]; [by left|].
    set (slug := generateSlug _ _).
    destruct (decide (k = getListKey slug)) as [-> | Hne].
    + rewrite lookup_insert_eq. intros [= <-]. right. exists slug.
      split; [done|]. split; [by apply checkListSize_ok | done].
    + rewrite lookup_insert_ne by done. by left.
Qed.

Lemma get_with_version (slug : string) (st : State) (l : GutList) (v : Z) :
  MATRIX_STORE st !! getListKey slug = Some l ->
  (onRequestGet slug (Some (pretty v)) st).1
  = if v =? version l then NotModified else Answer (JsonList l).
Proof.
  intros Hl. unfold onRequestGet. simpl. rewrite Hl, parseInt_pretty.
  destruct (String.eqb_spec (pretty v) "") as [He | _].
  { by destruct (pretty_nonempty v). }
  simpl. by destruct (v =? version l).
Qed.

Lemma get_without_version (slug : string) (st : State) (l : GutList) :
  MATRIX_STORE st !! getListKey slug = Some l ->
  (onRequestGet slug None st).1 = Answer (JsonList l).
Proof. intros Hl. unfold onRequestGet. simpl. by rewrite Hl. Qed.

(** X15. A GET of a stored list answers 304 or the stored document, never
    anything else; without the X-Current-Version header, or with an empty
    one, it answers the document; with the decimal numeral of an integer
    it answers 304 exactly when that integer is the stored version. It
    changes neither the stored documents nor the counters. *)
Theorem conditional_get (slug : string) (clientVersion : option string)
    (st : State) (l : GutList) :
  MATRIX_STORE st !! getListKey slug = Some l ->
  ((onRequestGet slug clientVersion st).1 = NotModified
   \/ (onRequestGet slug clientVersion st).1 = Answer (JsonList l))
  /\ (clientVersion = None \/ clientVersion = Some "" ->
      (onRequestGet slug clientVersion st).1 = Answer (JsonList l))
  /\ (forall v, safeInteger v -> clientVersion = Some (pretty v) ->
                ((onRequestGet slug clientVersion st).1 = NotModified
                 <-> v = version l))
  /\ MATRIX_STORE (onRequestGet slug clientVersion st).2 = MATRIX_STORE st
  /\ rateLimitStore (onRequestGet slug clientVersion st).2 = rateLimitStore st.
Proof.
  intros Hl. unfold onRequestGet. simpl. rewrite Hl.
  split; [|split; [|split]].
  - by match goal with |- context [if ?b then _ else _] => destruct b end;
      [left | right].
  - by intros [-> | ->].
  - intros v _ ->.
    pose proof (get_with_version slug st l v Hl) as Hget.
    unfold onRequestGet in Hget. simpl in Hget. rewrite Hl in Hget.
    rewrite Hget. destruct (Z.eqb_spec v (version l)); by split.
  - by match goal with |- context [if ?b then _ else _] => destruct b end.
Qed.

(** X16. A GET that follows a successful PUT on the same list answers the
    document the PUT returned; a client that presents the new version is
    answered 304, and one that presents the version it had before is sent
    the new document. *)
Theorem read_your_writes (h : Host) (env : Env) (slug : string)
    (incoming : UpdateListRequest) (st : State) (updated : GutList)
    (st1 : State) :
  onRequestPut h env slug incoming st = (JsonList updated, st1) ->
  safeInteger (version updated) ->
  (onRequestGet slug None st1).1 = Answer (JsonList updated)
  /\ (onRequestGet slug (Some (pretty (version updated))) st1).1 = NotModified
  /\ (forall existing,
        MATRIX_STORE st !! getListKey slug = Some existing ->
        version updated = version existing + 1
        /\ (onRequestGet slug (Some (pretty (version existing))) st1).1
           = Answer (JsonList updated)).
Proof.
  intros Hrun Hsafe.
  destruct (ApiFacts.put_success _ _ _ _ _ _ _ Hrun)
    as (ex & Hex & Hup & _ & _ & Hstore).
  assert (Hl : MATRIX_STORE st1 !! getListKey slug = Some updated).
  { by rewrite Hstore, lookup_insert_eq. }
  assert (Hver : version updated = version ex + 1) by (by rewrite Hup).
  split; [by apply get_without_version|].
  split; [by rewrite (get_with_version _ _ _ _ Hl), Z.eqb_refl|].
  intros existing Hexisting. assert (existing = ex) as -> by congruence.
  split; [done|]. rewrite (get_with_version _ _ _ _ Hl).
  by destruct (Z.eqb_spec (version ex) (version updated)); [lia|].
Qed.

(** X17. After a DELETE the list is gone: a GET of it answers 404 whatever the
    header, a PUT on it is never answered 200 and writes nothing, and a
    second DELETE changes nothing. Every other key of the storage and the
    counters are as they were: deleting is not rate limited. *)
Theorem delete_then (slug : string) (st : State) :
  let st1 := (onRequestDelete slug st).2 in
  (forall clientVersion,
      (onRequestGet slug clientVersion st1).1
      = Answer (ErrorResponse "List not found" 404))
  /\ (forall h env incoming,
        status (onRequestPut h env slug incoming st1).1 <> 200
        /\ MATRIX_STORE (onRequestPut h env slug incoming st1).2
           = MATRIX_STORE st1)
  /\ onRequestDelete slug st1 = (NoContent, st1)
  /\ (forall k, k <> getListKey slug ->
                MATRIX_STORE st1 !! k = MATRIX_STORE st !! k)
  /\ (forall slug', slug' <> slug ->
                    MATRIX_STORE st1 !! getListKey slug'
                    = MATRIX_STORE st !! getListKey slug')
  /\ rateLimitStore st1 = rateLimitStore st.
Proof.
  simpl. split; [|split; [|split; [|split; [|split]]]].
  - intros clientVersion. unfold onRequestGet. simpl.
    by rewrite lookup_delete_eq.
  - intros h env incoming.
    match goal with
    | |- context [onRequestPut h env slug incoming ?s] =>
        destruct (put_store h env slug incoming s)
          as [[Hsame Hstatus] | (ex & Hex & _)]
    end.
    + by split.
    + simpl in Hex. by rewrite lookup_delete_eq in Hex.
  - unfold onRequestDelete. simpl. by rewrite delete_delete_eq.
  - intros k Hne. by rewrite lookup_delete_ne.
  - intros slug' Hne. rewrite lookup_delete_ne; [done|].
    intros Heq. by apply getListKey_inj in Heq.
  - done.
Qed.

(** X18. A successful POST followed by a GET of the slug it returned answers
    the document the POST built: the sanitized title, no items, the
    normalized scale and version 1. The slug is made from the sanitized
    title; whatever was stored under its key before is replaced, the
    handler never reads the storage; every other key is as it was. *)
Theorem create_then_read (h : Host) (env : Env) (headerUserId : option string)
    (body : CreateListRequest) (st : State) (slug : string) (st1 : State) :
  onRequestPost h env headerUserId body st = (JsonCreated slug, st1) ->
  slug = generateSlug (randomSuffix h) (sanitizeTitle (cr_title body))
  /\ (onRequestGet slug None st1).1 = Answer (JsonList (created h env body))
  /\ version (created h env body) = 1
  /\ items (created h env body) = []
  /\ (forall k, k <> getListKey slug ->
                MATRIX_STORE st1 !! k = MATRIX_STORE st !! k)
  /\ effects st1
     = effects st
       ++ [UserLimitsChecked (Js.optStrOr headerUserId "anonymous");
           StorePut (getListKey slug)].
Proof.
  intros Hrun.
  assert (Hslug : slug = generateSlug (randomSuffix h)
                           (sanitizeTitle (cr_title body))
                  /\ st1 = storePut (getListKey slug) (created h env body)
                             (logEffect
                                (UserLimitsChecked
                                   (Js.optStrOr headerUserId "anonymous"))
                                (setRateLimitStore
                                   (checkUserRateLimits (userTicks h)
                                      (Js.optStrOr headerUserId "anonymous")
                                      create env (rateLimitStore st)).2 st))).
  { revert Hrun. unfold onRequestPost. fold (created h env body).
    destruct (checkUserRateLimits _ _ _ _ _) as [o s]. simpl.
    destruct (ok o); simpl; [|done].
    destruct (ok (checkListSize _ env)); simpl; [|done].
    by intros [= <- <-]. }
  destruct Hslug as [Hslug ->].
  split; [done|].
  split; [apply get_without_version; simpl; by rewrite lookup_insert_eq|].
  split; [done|]. split; [done|].
  split; [intros k Hne; simpl; by rewrite lookup_insert_ne|].
  simpl. by rewrite <- app_assoc.
Qed.

(** X19. A successful save that carried a version cannot be applied twice: the
    same request sent again, once the quota windows let it through, is
    answered 409 with the document the first one stored, and the storage
    stays as the first one left it. The version is taken within the range
    in which a JavaScript number counts exactly, so that the stored
    version, one more, differs from it. *)
Theorem replayed_save_conflicts (h h2 : Host) (env : Env) (slug : string)
    (incoming : UpdateListRequest) (st : State) (updated : GutList)
    (st1 : State) (v : Z) :
  onRequestPut h env slug incoming st = (JsonList updated, st1) ->
  up_version incoming = Some v ->
  safeInteger v ->
  ok (userGate h2 env incoming st1).1 = true ->
  ok (listGate h2 env slug (userGate h2 env incoming st1).2).1 = true ->
  (onRequestPut h2 env slug incoming st1).1 = JsonConflict updated
  /\ MATRIX_STORE (onRequestPut h2 env slug incoming st1).2 = MATRIX_STORE st1.
Proof.
  intros Hrun Hver Hsafe Hg1 Hg2.
  destruct (put_store h env slug incoming st)
    as [[_ Hstatus] | (old & Hex & Hident & Hvalid & Hnc & _ & Hresp & Hstore)];
    rewrite Hrun in *; simpl in *; [done|].
  injection Hresp as ->.
  assert (Hl : MATRIX_STORE st1 !! getListKey slug
               = Some (updatedList h env old incoming)).
  { by rewrite Hstore, lookup_insert_eq. }
  assert (Hconflict : versionConflict incoming (updatedList h env old incoming)
                      = true).
  { revert Hnc. unfold versionConflict. rewrite Hver. simpl.
    destruct (Z.eqb_spec v (version old)); [|done]. intros _.
    by destruct (Z.eqb_spec v (version old + 1)); [lia|]. }
  destruct (put_store h2 env slug incoming st1)
    as [[Hsame _] | (ex2 & Hex2 & _ & _ & Hnc2 & _)].
  2: { rewrite Hl in Hex2. injection Hex2 as <-. congruence. }
  split; [|done].
  destruct (onRequestPut h2 env slug incoming st1) as [resp2 st2] eqn:Hrun2.
  simpl. clear Hrun.
  ApiFacts.put_exits Hrun2; try congruence.
  - by rewrite (Hident _ Hu') in Hv.
  - ApiFacts.update_exits Hexit; rewrite ?ApiFacts.afterGates_store in *;
      try congruence.
Qed.

Lemma Forall_mapi {A B} (P : A -> Prop) (Q : B -> Prop) (f : A -> nat -> B)
    (l : list A) :
  Forall P l -> (forall x i, P x -> Q (f x i)) -> Forall Q (Js.mapi f l).
Proof.
  intros Hl Hf. apply Forall_lookup. intros i y.
  rewrite JsFacts.mapi_lookup. intros Hy.
  apply fmap_Some in Hy as (x & Hx & ->).
  apply Hf. by eapply (proj1 (Forall_lookup _ _) Hl).
Qed.

Lemma Forall_any {A} (l : list A) : Forall (fun _ => True) l.
Proof. by apply Forall_forall. Qed.

Lemma length_sliceTo_le {A} (n : Z) (l : list A) :
  (length (Js.sliceTo n l) <= length l)%nat.
Proof. unfold Js.sliceTo. destruct (n <? 0); rewrite length_take; lia. Qed.

Lemma rebuildItem_id_nonempty (h : Host) (existing : GutList) (sc : Scale)
    (maxItems : Z) (inc : IncomingItem) (i : nat) :
  (forall site j, randomUUID h site j <> "") ->
  id (rebuildItem h existing sc maxItems inc i) <> "".
Proof.
  intros Huuid. unfold rebuildItem.
  destruct (Js.find (sameId inc) (items existing)) as [e|].
  - apply (ItemFacts.normalizeItem_id_nonempty (randomUUID h 1 i)
             (ofGutItem e) sc maxItems), Huuid.
  - apply ItemFacts.normalizeItem_id_nonempty, Huuid.
Qed.

Lemma updatedItems_ids (h : Host) (existing : GutList)
    (incoming : UpdateListRequest) (sc : Scale) (maxItems : Z) :
  (forall site j, randomUUID h site j <> "") ->
  Forall (fun item => id item <> "")
         (updatedItems h existing incoming sc maxItems).
Proof.
  intros Huuid. unfold updatedItems.
  assert (Hnormal : forall site (l : list IncomingItem),
             Forall (fun item => id item <> "")
               (Js.mapi (fun item i => normalizeItem (randomUUID h site i) item
                                         sc maxItems) l)).
  { intros site l. eapply Forall_mapi; [apply Forall_any|].
    intros x i _. apply ItemFacts.normalizeItem_id_nonempty, Huuid. }
  assert (Hstored : Forall (fun item => id item <> "")
             (Js.mapi (fun item i => normalizeItem (randomUUID h 0 i)
                                       (ofGutItem item) sc maxItems)
                      (items existing))).
  { eapply Forall_mapi; [apply Forall_any|].
    intros x i _. apply ItemFacts.normalizeItem_id_nonempty, Huuid. }
  destruct (up_items incoming) as [incs|]; [|done].
  destruct (truthy (up_userId incoming)); [|apply Hnormal].
  unfold mergeItems.
  apply (Forall_mapi (fun item => id item <> ""));
    [|intros x i Hx; by rewrite ApiFacts.mergeItem_id].
  destruct (negb _); [|done].
  unfold rebuildItems. eapply Forall_mapi; [apply Forall_any|].
  intros x i _. by apply rebuildItem_id_nonempty.
Qed.

Lemma updatedItems_count (h : Host) (existing : GutList)
    (incoming : UpdateListRequest) (sc : Scale) (maxItems : Z) :
  valid (validateList incoming maxItems) = true ->
  length (updatedItems h existing incoming sc maxItems) = length (items existing)
  \/ Z.of_nat (length (updatedItems h existing incoming sc maxItems)) <= maxItems.
Proof.
  intros Hvalid. unfold updatedItems.
  destruct (up_items incoming) as [incs|] eqn:Hincs.
  2: { left. apply JsFacts.length_mapi. }
  pose proof (ApiFacts.validateList_items _ _ _ Hvalid Hincs) as Hlen.
  pose proof (length_sliceTo_le maxItems incs) as Hslice.
  destruct (truthy (up_userId incoming)).
  - unfold mergeItems, rebuildItems. rewrite JsFacts.length_mapi.
    destruct (negb _); rewrite JsFacts.length_mapi; [right; lia | by left].
  - right. rewrite JsFacts.length_mapi. lia.
Qed.

Lemma updatedList_wellFormed (h : Host) (env : Env) (existing : GutList)
    (incoming : UpdateListRequest) :
  (forall site j, randomUUID h site j <> "") ->
  valid (validateList incoming (maxItemsOf env)) = true ->
  wellFormed env existing ->
  wellFormed env (updatedList h env existing incoming).
Proof.
  intros Huuid Hvalid (Hver & Hscale & Hcount & _).
  unfold wellFormed, updatedList. simpl. fold (maxItemsOf env).
  split; [lia|]. split.
  { destruct (up_scale incoming); [apply ItemFacts.normalizeScale_bounds | done]. }
  split; [|by apply updatedItems_ids].
  match goal with
  | |- context [updatedItems h existing incoming ?sc (maxItemsOf env)] =>
      destruct (updatedItems_count h existing incoming sc (maxItemsOf env) Hvalid)
        as [-> | Hle]
  end; lia.
Qed.

(** X20. The handlers keep the stored documents in good order: if every stored
    document has a version from 1 on, a scale with [1 <= min < max], at
    most MAX_ITEMS items and no item without an id, the same holds after
    any PUT, POST, DELETE or GET, provided the platform's UUIDs are not
    empty. *)
Theorem handlers_keep_store_well_formed (h : Host) (env : Env) (st : State) :
  (forall site j, randomUUID h site j <> "") ->
  healthy env (MATRIX_STORE st) ->
  (forall slug incoming,
      healthy env (MATRIX_STORE (onRequestPut h env slug incoming st).2))
  /\ (forall headerUserId body,
        healthy env (MATRIX_STORE (onRequestPost h env headerUserId body st).2))
  /\ (forall slug, healthy env (MATRIX_STORE (onRequestDelete slug st).2))
  /\ (forall slug clientVersion,
        healthy env (MATRIX_STORE (onRequestGet slug clientVersion st).2)).
Proof.
  intros Huuid Hst. split; [|split; [|split]].
  - intros slug incoming.
    destruct (put_store h env slug incoming st)
      as [[-> _] | (old & Hold & _ & Hvalid & _ & _ & _ & ->)]; [done|].
    intros k l. destruct (decide (k = getListKey slug)) as [-> | Hne].
    + rewrite lookup_insert_eq. intros [= <-].
      apply updatedList_wellFormed; [done | done | by eapply Hst].
    + rewrite lookup_insert_ne by done. apply Hst.
  - intros headerUserId body.
    destruct (post_store h env headerUserId body st)
      as [[-> _] | (_ & _ & ->)]; [done|].
    intros k l.
    match goal with
    | |- <[?key := _]> _ !! _ = _ -> _ =>
        destruct (decide (k = key)) as [-> | Hne]
    end.
    + rewrite lookup_insert_eq. intros [= <-].
      split; [simpl; lia|].
      split; [apply ItemFacts.normalizeScale_bounds|].
      split; [simpl; lia | constructor].
    + rewrite lookup_insert_ne by done. apply Hst.
  - intros slug k l. simpl. intros Hl.
    apply lookup_delete_Some in Hl as [_ Hl]. by eapply Hst.
  - intros slug clientVersion. unfold onRequestGet. simpl.
    destruct (MATRIX_STORE st !! getListKey slug) as [l|]; [|done].
    by match goal with |- context [if ?b then _ else _] => destruct b end.
Qed.

Lemma conditional_get_witness :
  MATRIX_STORE Samples.serving !! getListKey "backlog" = Some Samples.stored
  /\ (onRequestGet "backlog" (Some "3") Samples.serving).1 = NotModified.
Proof.
  assert (H : MATRIX_STORE Samples.serving !! getListKey "backlog"
              = Some Samples.stored) by (vm_compute; reflexivity).
  split; [exact H|].
  destruct (conditional_get "backlog" (Some "3") Samples.serving Samples.stored H)
    as (_ & _ & Hversion & _).
  apply (Hversion 3); [vm_compute; split; reflexivity | reflexivity | reflexivity].
Defined.

Lemma read_your_writes_witness :
  onRequestPut Samples.host Samples.limited "backlog" Samples.bobSave
    Samples.serving
  = (JsonList Cases.bobsUpdate, Cases.saved)
  /\ (onRequestGet "backlog" None Cases.saved).1
     = Answer (JsonList Cases.bobsUpdate)
  /\ (onRequestGet "backlog" (Some "4") Cases.saved).1 = NotModified.
Proof.
  assert (H : onRequestPut Samples.host Samples.limited "backlog" Samples.bobSave
                Samples.serving
              = (JsonList Cases.bobsUpdate, Cases.saved))
    by (vm_compute; reflexivity).
  split; [exact H|].
  destruct (read_your_writes Samples.host Samples.limited "backlog"
              Samples.bobSave Samples.serving Cases.bobsUpdate Cases.saved H)
    as (Hnone & Hsame & _).
  - vm_compute; split; reflexivity.
  - split; [exact Hnone | exact Hsame].
Defined.

Lemma create_then_read_witness :
  (onRequestPost Samples.host Samples.limited None Cases.teamBacklog
     Samples.serving).1
  = JsonCreated "team-backlog-deadbeef"
  /\ (onRequestGet "team-backlog-deadbeef" None
        (onRequestPost Samples.host Samples.limited None Cases.teamBacklog
           Samples.serving).2).1
     = Answer (JsonList (created Samples.host Samples.limited Cases.teamBacklog)).
Proof.
  assert (H : onRequestPost Samples.host Samples.limited None Cases.teamBacklog
                Samples.serving
              = (JsonCreated "team-backlog-deadbeef",
                 (onRequestPost Samples.host Samples.limited None
                    Cases.teamBacklog Samples.serving).2))
    by (vm_compute; reflexivity).
  split; [by rewrite H|].
  exact (proj1 (proj2 (create_then_read Samples.host Samples.limited None
                         Cases.teamBacklog Samples.serving
                         "team-backlog-deadbeef" _ H))).
Defined.

Lemma replayed_save_conflicts_witness :
  up_version Samples.bobSave = Some 3
  /\ safeInteger 3
  /\ (onRequestPut Samples.host Samples.limited "backlog" Samples.bobSave
        Cases.saved).1
     = JsonConflict Cases.bobsUpdate.
Proof.
  assert (H : up_version Samples.bobSave = Some 3) by reflexivity.
  assert (Hsafe : safeInteger 3) by (vm_compute; split; reflexivity).
  split; [exact H|]. split; [exact Hsafe|].
  refine (proj1 (replayed_save_conflicts Samples.host Samples.host
                   Samples.limited "backlog" Samples.bobSave Samples.serving
                   Cases.bobsUpdate Cases.saved 3 _ H Hsafe _ _));
    vm_compute; reflexivity.
Defined.

Lemma handlers_keep_store_well_formed_witness :
  healthy Samples.limited (MATRIX_STORE Samples.serving)
  /\ healthy Samples.limited
       (MATRIX_STORE (onRequestPut Samples.host Samples.limited "backlog"
                        Samples.bobSave Samples.serving).2).
Proof.
  assert (H : healthy Samples.limited (MATRIX_STORE Samples.serving)).
  { intros k l Hl. cbn [Samples.serving MATRIX_STORE] in Hl.
    apply lookup_singleton_Some in Hl as [_ <-].
    unfold wellFormed, Samples.stored, maxItemsOf. simpl.
    split; [lia|]. split; [lia|]. split; [lia|].
    repeat constructor; discriminate. }
  split; [exact H|].
  refine (proj1 (handlers_keep_store_well_formed Samples.host Samples.limited
                   Samples.serving _ H) "backlog" Samples.bobSave).
  intros site j. discriminate.
Defined.

End HttpFacts.

(** ** Scores and averages *)

Module ScoreFacts.
Import Utils Validate RateLimit Api Spec Laws.

Lemma foldr_bounds (f : UserScore -> Z) (l : list UserScore) (lo hi : Z) :
  Forall (fun s => lo <= f s <= hi) l ->
  lo * Z.of_nat (length l) <= foldr (fun s a => f s + a) 0 l
  <= hi * Z.of_nat (length l).
Proof.
  induction 1 as [|s l Hs _ IH]; simpl length; simpl foldr; [lia|].
  rewrite Nat2Z.inj_succ. lia.
Qed.

Lemma Object_values_bounds (f : UserScore -> Z) (m : gmap string UserScore)
    (lo hi : Z) :
  (forall k s, m !! k = Some s -> lo <= f s <= hi) ->
  Forall (fun s => lo <= f s <= hi) (Object_values m).
Proof.
  intros Hm. unfold Object_values. apply Forall_forall. intros s Hs.
  apply list_elem_of_fmap in Hs as ([k s'] & -> & Hks).
  apply elem_of_map_to_list in Hks. by eapply Hm.
Qed.

(** One averaged column: the tenth nearest to [total / count] lies between
    the integer bounds of the values that were averaged. *)
Lemma tenth_bounds (total count lo hi : Z) :
  0 < count -> lo * count <= total <= hi * count ->
  (inject_Z lo
   <= inject_Z (Js.Math_round (inject_Z total / inject_Z count * inject_Z 10))
      / inject_Z 10
   <= inject_Z hi)%Q.
Proof.
  intros Hcount Htotal.
  set (x := (inject_Z total / inject_Z count * inject_Z 10)%Q).
  assert (Hx : (inject_Z (10 * lo) <= x)%Q /\ (x <= inject_Z (10 * hi))%Q).
  { unfold x. destruct count as [|p|p]; try lia.
    unfold Qle, Qdiv, Qmult, Qinv, inject_Z; simpl. nia. }
  destruct Hx as [Hlo Hhi].
  assert (Hdown : 10 * lo <= Js.Math_round x).
  { unfold Js.Math_round. rewrite <- (Qfloor_Z (10 * lo)).
    apply Qfloor_resp_le.
    eapply Qle_trans; [exact Hlo|].
    rewrite <- (Qplus_0_r x) at 1. apply Qplus_le_r. discriminate. }
  assert (Hup : Js.Math_round x <= 10 * hi).
  { unfold Js.Math_round.
    assert (Hq : (inject_Z (Qfloor (x + (1 # 2))) <= inject_Z (10 * hi) + (1 # 2))%Q).
    { eapply Qle_trans; [apply Qfloor_le|]. by apply Qplus_le_l. }
    revert Hq. unfold Qle, Qplus, inject_Z; simpl. lia. }
  unfold Qle, Qdiv, Qmult, Qinv, inject_Z; simpl. lia.
Qed.

(** X21. Every column of an average lies between the bounds of the values that
    were averaged: rounding to the tenth never takes the average of
    integers in [lo, hi] out of [lo, hi]. In particular a column on which
    all users agree is averaged to their common value. *)
Theorem average_within_bounds (m : gmap string UserScore) (a : AverageScore)
    (c : Column) (lo hi : Z) :
  calculateAverageScore m = Some a ->
  (forall k s, m !! k = Some s -> lo <= ofScore c s <= hi) ->
  (inject_Z lo <= ofAverage c a <= inject_Z hi)%Q.
Proof.
  intros Ha Hm. revert Ha. unfold calculateAverageScore.
  rewrite UtilsFacts.length_Object_values.
  destruct (Nat.eqb_spec (size m) 0) as [|Hsize]; [done|].
  rewrite UtilsFacts.fold_left_sums. simpl. intros [= <-].
  pose proof (foldr_bounds (ofScore c) (Object_values m) lo hi
                (Object_values_bounds _ _ _ _ Hm)) as Hsum.
  rewrite UtilsFacts.length_Object_values in Hsum.
  destruct c; simpl in *; apply tenth_bounds; lia.
Qed.


(** X23. Normalizing a normalized score again changes nothing, as long as the
    scale does not start below zero: what [mergeUserScore] stores is a
    fixed point of the normalization it applies. *)
Theorem normalizeUserScore_idempotent (raw : PartialUserScore) (sc : Scale) :
  0 <= min sc <= max sc ->
  normalizeUserScore (asPartial (normalizeUserScore raw sc)) sc
  = normalizeUserScore raw sc.
Proof.
  intros Hsc.
  assert (Hfix : forall v, min sc <= v <= max sc ->
             clamp (Js.numOr (Some v) (min sc)) (min sc) (max sc) = v).
  { intros v Hv. unfold Js.numOr, clamp.
    destruct (Z.eqb_spec v 0); lia. }
  unfold normalizeUserScore at 1. unfold asPartial. cbn [pus_g pus_u pus_t].
  unfold normalizeUserScore at 1 3 5. cbn [us_g us_u us_t].
  by rewrite !Hfix
    by (split; [apply UtilsFacts.clamp_lower | apply UtilsFacts.clamp_upper; lia]).
Qed.

Lemma average_within_bounds_witness :
  exists a,
    calculateAverageScore Samples.belowZero = Some a
    /\ (inject_Z (-1) <= avg_g a <= inject_Z 0)%Q.
Proof.
  eexists. split; [vm_compute; reflexivity|].
  apply (average_within_bounds Samples.belowZero _ ColG (-1) 0).
  - vm_compute; reflexivity.
  - intros k s Hs. unfold Samples.belowZero in Hs.
    repeat (apply lookup_insert_Some in Hs as [[_ <-] | [_ Hs]]; [simpl; lia|]).
    rewrite lookup_empty in Hs. discriminate Hs.
Defined.

Lemma normalizeUserScore_idempotent_witness :
  0 <= min Samples.oneToFive <= max Samples.oneToFive
  /\ normalizeUserScore
       (asPartial (normalizeUserScore Samples.rawSeven Samples.oneToFive))
       Samples.oneToFive
     = normalizeUserScore Samples.rawSeven Samples.oneToFive.
Proof.
  assert (H : 0 <= min Samples.oneToFive <= max Samples.oneToFive)
    by (simpl; lia).
  split; [exact H|].
  exact (normalizeUserScore_idempotent Samples.rawSeven Samples.oneToFive H).
Defined.

End ScoreFacts.

(** ** The items of an update *)

Module UpdateFacts.
Import Utils Validate RateLimit Api Spec Laws.

Lemma normalizeItem_fixed (uuid : string) (e : GutItem) (sc : Scale)
    (maxItems : Z) :
  settled e -> normalizeItem uuid (ofGutItem e) sc maxItems = e.
Proof.
  intros (Hid & Hlabel & Htidy & Hnotes).
  rewrite ItemFacts.normalizeItem_settled; try done.
  2: { intros n Hn. by apply Hnotes. }
  destruct e as [i l s a n]. unfold withNotes, settledNotes; simpl in *.
  f_equal. destruct n as [n|]; [|done].
  destruct (Hnotes n eq_refl) as [Hne _].
  by destruct (String.eqb_spec n "").
Qed.

(** X24. An update that carries no items (a change of the title or of the
    scale) stores the items as they were, provided they are in the form
    [normalizeItem] gives them: an id, a label of 1 to 200 characters and
    notes of 1 to 1024 characters, both without white space at the ends. *)
Theorem update_without_items_keeps_items (h : Host) (env : Env)
    (existing : GutList) (incoming : UpdateListRequest) :
  up_items incoming = None ->
  Forall settled (items existing) ->
  items (updatedList h env existing incoming) = items existing.
Proof.
  intros Hnone Hsettled. unfold updatedList, updatedItems; simpl.
  rewrite Hnone. apply list_eq. intros i.
  rewrite JsFacts.mapi_lookup.
  destruct (items existing !! i) as [e|] eqn:He; simpl; [|done].
  f_equal. apply normalizeItem_fixed.
  by eapply (proj1 (Forall_lookup _ _) Hsettled).
Qed.

(** X25. The label and the notes that arrive with a user's scores are stored as
    they arrive: after a successful update that carries a user identifier,
    the item at the index of an incoming item with a score field has that
    item's label and notes, whatever their length or their white space.
    (The limits of [normalizeItem] apply to the other paths only.) *)
Theorem scored_item_text_stored_verbatim (h : Host) (env : Env) (slug : string)
    (incoming : UpdateListRequest) (st : State) (updated : GutList)
    (st' : State) (userId : string) (incs : list IncomingItem) (i : nat)
    (inc : IncomingItem) :
  onRequestPut h env slug incoming st = (JsonList updated, st') ->
  up_userId incoming = Some userId ->
  up_items incoming = Some incs ->
  incs !! i = Some inc ->
  isUserItemUpdate inc = true ->
  exists r,
    items updated !! i = Some r
    /\ (forall l, in_label inc = Some l -> label r = l)
    /\ (forall n, in_notes inc = Some n -> notes r = Some n).
Proof.
  intros Hrun Huser Hincs Hinc Hscored.
  destruct (ApiFacts.put_success _ _ _ _ _ _ _ Hrun)
    as (old & Hold & -> & Hvalid & Hident & _).
  pose proof (ApiFacts.validateList_items _ _ _ Hvalid Hincs) as Hlen.
  assert (Hne : userId <> "").
  { intros ->. by specialize (Hident _ Huser). }
  unfold updatedList; simpl. fold (maxItemsOf env).
  set (sc := match up_scale incoming with Some s => _ | None => _ end).
  pose proof (ApiFacts.updatedItems_user_lookup h old incoming sc
                (maxItemsOf env) userId incs i Huser Hne Hincs Hlen) as Hlook.
  rewrite Hinc in Hlook.
  assert (Hsome : exists before,
             updatedItems h old incoming sc (maxItemsOf env) !! i
             = Some (mergeItem (Some inc) userId sc before)).
  { destruct (decide (length incs = length (items old))) as [Heq | _].
    - destruct (lookup_lt_is_Some_2 (items old) i) as [e He].
      { rewrite <- Heq. by eapply lookup_lt_Some. }
      rewrite He in Hlook. simpl in Hlook. by eexists.
    - simpl in Hlook. by eexists. }
  destruct Hsome as (before & Hresult).
  eexists. split; [exact Hresult|].
  destruct (ApiFacts.mergeItem_text inc userId sc before) as [Hlabel Hnotes].
  rewrite Hscored in Hlabel, Hnotes.
  split.
  - intros l Hl. by rewrite Hlabel, Hl.
  - intros n Hn. by rewrite Hnotes, Hn.
Qed.

Lemma update_without_items_keeps_items_witness :
  up_items Cases.retitle = None
  /\ items (updatedList Samples.host Samples.limited Samples.stored Cases.retitle)
     = items Samples.stored.
Proof.
  assert (H : up_items Cases.retitle = None) by reflexivity.
  split; [exact H|].
  apply (update_without_items_keeps_items Samples.host Samples.limited
           Samples.stored Cases.retitle H).
  repeat constructor; try discriminate; simpl; try lia;
    intros c; vm_compute; intros [= <-]; reflexivity.
Defined.

Lemma scored_item_text_stored_verbatim_witness :
  isUserItemUpdate Cases.blankLabel = true
  /\ exists r,
       items (updatedList Samples.host Samples.limited Samples.stored
                Cases.blankLabelSave) !! 0%nat = Some r
       /\ label r = "  ".
Proof.
  assert (H : isUserItemUpdate Cases.blankLabel = true) by reflexivity.
  split; [exact H|].
  destruct (scored_item_text_stored_verbatim Samples.host Samples.limited
              "backlog" Cases.blankLabelSave Samples.serving
              (updatedList Samples.host Samples.limited Samples.stored
                 Cases.blankLabelSave)
              (onRequestPut Samples.host Samples.limited "backlog"
                 Cases.blankLabelSave Samples.serving).2
              Samples.bob [Cases.blankLabel; Samples.naming "b"] 0
              Cases.blankLabel)
    as (r & Hr & Hlabel & _).
  - vm_compute; reflexivity.
  - reflexivity.
  - reflexivity.
  - reflexivity.
  - exact H.
  - exists r. split; [exact Hr | by apply Hlabel].
Defined.

End UpdateFacts.

(** ** The CSV export and import of the client *)

Module CsvFacts.
Import Validate Csv Laws StringFacts.

Lemma includes_false (c : ascii) (l : list ascii) :
  includes c l = false -> Forall (fun d => Ascii.eqb d c = false) l.
Proof.
  unfold includes. induction l as [|d l IH]; simpl; [constructor|].
  intros H. apply orb_false_elim in H as [Hd Hl].
  constructor; [by rewrite Ascii.eqb_sym | by apply IH].
Qed.

(** Characters without a quote, and outside quotes without a comma, are
    added to the field being read. *)
Lemma parseFrom_plain (f rest current : list ascii) (inQuotes : bool)
    (result : list string) :
  Forall (fun d => Ascii.eqb d quote = false) f ->
  (inQuotes = false -> Forall (fun d => Ascii.eqb d comma = false) f) ->
  parseFrom (f ++ rest) current inQuotes result
  = parseFrom rest (current ++ f) inQuotes result.
Proof.
  revert current. induction f as [|c f IH]; intros current Hq Hc.
  { by rewrite app_nil_r. }
  inversion Hq as [|? ? Hcq Hfq]; subst. simpl. rewrite Hcq.
  assert (Hcomma : Ascii.eqb c comma && negb inQuotes = false).
  { destruct inQuotes; [by rewrite andb_false_r|].
    specialize (Hc eq_refl). inversion Hc as [|? ? Hcc _]; subst.
    by rewrite Hcc. }
  rewrite Hcomma, IH, <- app_assoc; [done | done |].
  intros Hin. specialize (Hc Hin). by inversion Hc.
Qed.

(** The body of a quoted field, up to the closing quote. *)
Lemma parseFrom_quoted (f rest current : list ascii) (result : list string) :
  (forall c, head rest = Some c -> Ascii.eqb c quote = false) ->
  parseFrom (doubleQuotes f ++ quote :: rest) current true result
  = parseFrom rest (current ++ f) false result.
Proof.
  intros Hrest. revert current. induction f as [|c f IH]; intros current.
  - rewrite app_nil_r. simpl. destruct rest as [|d rest']; [done|].
    by rewrite (Hrest d eq_refl).
  - simpl. destruct (Ascii.eqb_spec c quote) as [-> | Hne].
    + simpl. rewrite IH, <- app_assoc. done.
    + simpl. apply Ascii.eqb_neq in Hne. rewrite Hne. simpl.
      rewrite andb_false_r, IH, <- app_assoc. done.
Qed.

(** One escaped field, read from outside quotes. *)
Lemma parseFrom_field (v : string) (rest current : list ascii)
    (result : list string) :
  (forall c, head rest = Some c -> Ascii.eqb c quote = false) ->
  parseFrom (list_ascii_of_string (escapeCsv (Some v)) ++ rest) current false
    result
  = parseFrom rest (current ++ list_ascii_of_string v) false result.
Proof.
  intros Hrest. unfold escapeCsv.
  destruct (includes comma _ || includes quote _ || includes newline _)
    eqn:Hspecial.
  - rewrite list_ascii_of_string_of_list_ascii.
    change ((quote :: doubleQuotes (list_ascii_of_string v) ++ [quote]) ++ rest)
      with (quote :: ((doubleQuotes (list_ascii_of_string v) ++ [quote]) ++ rest)).
    rewrite <- app_assoc. simpl app.
    assert (Hopen : forall l,
               parseFrom (quote :: l) current false result
               = parseFrom l current true result).
    { intros l. simpl. by destruct l. }
    rewrite Hopen. by apply parseFrom_quoted.
  - apply orb_false_elim in Hspecial as [Hspecial _].
    apply orb_false_elim in Hspecial as [Hcomma Hquote].
    apply parseFrom_plain; [by apply includes_false|].
    intros _. by apply includes_false.
Qed.

Lemma concat_more (sep x y : string) (l : list string) :
  String.concat sep (x :: y :: l) = x +:+ sep +:+ String.concat sep (y :: l).
Proof. reflexivity. Qed.

Lemma parseFrom_comma (l current : list ascii) (result : list string) :
  parseFrom (comma :: l) current false result
  = parseFrom l [] false (result ++ [Js.trim (string_of_list_ascii current)]).
Proof. reflexivity. Qed.

Lemma parseFrom_row (fs : list string) (f : string) (result : list string) :
  parseFrom
    (list_ascii_of_string
       (joinComma (map (fun v => escapeCsv (Some v)) (f :: fs))))
    [] false result
  = result ++ map Js.trim (f :: fs).
Proof.
  revert f result. induction fs as [|g fs IH]; intros f result.
  - change (joinComma (map (fun v => escapeCsv (Some v)) [f]))
      with (escapeCsv (Some f)).
    rewrite <- (app_nil_r (list_ascii_of_string (escapeCsv (Some f)))).
    rewrite parseFrom_field by done. simpl.
    by rewrite string_of_list_ascii_of_string.
  - unfold joinComma.
    change (map (fun v => escapeCsv (Some v)) (f :: g :: fs))
      with (escapeCsv (Some f) :: escapeCsv (Some g)
            :: map (fun v => escapeCsv (Some v)) fs).
    rewrite concat_more, !list_of_append.
    change (list_ascii_of_string (String comma EmptyString) ++ ?l)
      with (comma :: l).
    rewrite parseFrom_field.
    2: { intros c [= <-]. reflexivity. }
    rewrite parseFrom_comma. simpl app.
    rewrite string_of_list_ascii_of_string.
    etrans; [apply (IH g (result ++ [Js.trim f]))|].
    by rewrite <- app_assoc.
Qed.

(** X26. [parseCsvLine] reads back a row as the export builds it: joining
    the escaped fields with commas and parsing that line returns the
    fields, each trimmed, however many commas, quotes or line feeds they
    hold. (This is about one line handed to [parseCsvLine]; the import
    cuts the file at line feeds before it parses.) *)
Theorem csv_row_round_trip (f : string) (fs : list string) :
  parseCsvLine (joinComma (map (fun v => escapeCsv (Some v)) (f :: fs)))
  = map Js.trim (f :: fs).
Proof. unfold parseCsvLine. by rewrite parseFrom_row. Qed.

Lemma underscore_code (c : ascii) :
  (nat_of_ascii c =? 95)%nat = true <-> c = "_"%char.
Proof.
  split; [|by intros ->].
  intros H. apply Nat.eqb_eq in H.
  rewrite <- (ascii_nat_embedding c), H. reflexivity.
Qed.

Lemma toLower_fileSafe (c : ascii) :
  isFileChar c = true ->
  fileSafe (toLower c) /\ (toLower c = "_"%char -> c = "_"%char).
Proof.
  unfold fileSafe.
  destruct c as [[] [] [] [] [] [] [] []]; vm_compute; intros H;
    try discriminate H; (split; [auto | try done]).
Qed.

Lemma underscoreRuns_shape (inRun : bool) (l : list ascii) :
  Forall (fun c => isFileChar c = true) l ->
  Forall (fun c => isFileChar c = true) (underscoreRuns inRun l)
  /\ singleUnderscores (underscoreRuns inRun l)
  /\ (inRun = true -> head (underscoreRuns inRun l) <> Some "_"%char)
  /\ (inRun = false -> l <> [] -> underscoreRuns inRun l <> []).
Proof.
  intros Hl. revert inRun.
  induction Hl as [|c l Hc Hl IH]; intros inRun.
  { split; [constructor|]. split; [by intros i|]. by split. }
  simpl.
  destruct (IH true) as (Hf1 & Hs1 & Hh1 & _).
  destruct (IH false) as (Hf0 & Hs0 & _ & _).
  destruct (nat_of_ascii c =? 95)%nat eqn:Hu.
  - apply underscore_code in Hu as ->. destruct inRun.
    + split; [done|]. split; [done|]. split; [by intros _; apply Hh1 | done].
    + split; [by constructor|]. split; [|by split].
      intros [|i]; simpl.
      * intros _. specialize (Hh1 eq_refl).
        by destruct (underscoreRuns true l).
      * apply Hs1.
  - assert (Hne : c <> "_"%char).
    { intros ->. discriminate Hu. }
    split; [by constructor|]. split; [|split; [|done]].
    + intros [|i]; simpl; [by intros [= ->] | apply Hs0].
    + intros _. simpl. by intros [= ->].
Qed.

(** X27. The file name of an export is never empty, consists of lower-case
    letters, digits, underscores and dashes only, and has no two
    underscores in a row. *)
Theorem sanitizeFilename_shape (name : string) :
  sanitizeFilename name <> ""
  /\ Forall fileSafe (list_ascii_of_string (sanitizeFilename name))
  /\ singleUnderscores (list_ascii_of_string (sanitizeFilename name)).
Proof.
  unfold sanitizeFilename.
  set (l := list_ascii_of_string (Js.strOr name "gut-list")).
  set (replaced := map (fun c => if isFileChar c then c else "_"%char) l).
  assert (Hl : l <> []).
  { unfold l, Js.strOr. destruct (String.eqb_spec name ""); [done|].
    by destruct name. }
  assert (Hreplaced : Forall (fun c => isFileChar c = true) replaced
                      /\ replaced <> []).
  { split; [|by destruct l].
    unfold replaced. apply Forall_forall. intros c Hc.
    apply list_elem_of_fmap in Hc as (d & -> & _).
    by destruct (isFileChar d) eqn:Hd. }
  destruct Hreplaced as [Hfile Hne].
  destruct (underscoreRuns_shape false replaced Hfile) as (Hf & Hs & _ & Hn).
  specialize (Hn eq_refl Hne).
  rewrite list_ascii_of_string_of_list_ascii.
  split; [|split].
  - intros Hempty. apply (f_equal list_ascii_of_string) in Hempty.
    rewrite list_ascii_of_string_of_list_ascii in Hempty.
    by destruct (underscoreRuns false replaced).
  - apply Forall_forall. intros c Hc.
    apply list_elem_of_fmap in Hc as (d & -> & Hd).
    apply toLower_fileSafe. by eapply (proj1 (Forall_forall _ _) Hf).
  - intros i. rewrite !list_lookup_fmap.
    destruct (underscoreRuns false replaced !! i) as [c|] eqn:Hc; [|done].
    destruct (underscoreRuns false replaced !! S i) as [d|] eqn:Hd; [|done].
    simpl. intros [= Hci] [= Hdi].
    apply toLower_fileSafe in Hci, Hdi;
      try (eapply (proj1 (Forall_lookup _ _) Hf); eassumption).
    subst. by apply (Hs i).
Qed.

End CsvFacts.
